(** * RVO2-TS: a shallow embedding of the ORCA simulator

    The TypeScript sources (Vector2, RVOMath, Agent, KdTree, Simulator) are
    transcribed function by function.  A JavaScript [number] is an IEEE-754
    binary64 value, so scalars are Rocq's primitive floats: every arithmetic
    expression below keeps the evaluation order of the source, and the
    definitions run under [vm_compute] exactly as the program runs.

    Objects that the program shares by reference are kept in arenas and
    referred to by index: an agent is its index in [Simulator.agents] (which is
    also its [id]), an obstacle vertex is its index in [Simulator.obstacles].
    The single [Simulator.Instance] is an ordinary value handed to the
    functions that read it.

    A property access on [undefined] throws; the functions in which that can
    happen (the agent k-D tree and what calls it) return an [option], and
    [None] stands for the exception.  Recursion that is not structural takes
    fuel; the section on fuel shows that the fuel given is never the reason for
    a [None].

    The first part holds the program, the second the properties. *)

From Stdlib Require Import Floats ZArith Lia Bool.
From stdpp Require Import base option list.

Set Warnings "-inexact-float,-clear-no-such-hyp".

(** ** JavaScript numbers *)

Module Num.
Local Open Scope float_scope.

(** [a < b], [a <= b], [a > b], [a >= b] and [a === b] on numbers; each is
    false as soon as an operand is NaN. *)
Definition lt (a b : float) : bool := PrimFloat.ltb a b.
Definition le (a b : float) : bool := PrimFloat.leb a b.
Definition gt (a b : float) : bool := PrimFloat.ltb b a.
Definition ge (a b : float) : bool := PrimFloat.leb b a.
Definition eq (a b : float) : bool := PrimFloat.eqb a b.

Definition is_negzero (a : float) : bool :=
  match PrimFloat.classify a with NZero => true | _ => false end.

(** [Math.max] and [Math.min]: NaN if either argument is NaN, and
    [-0 < +0]. *)
Definition Math_max (a b : float) : float :=
  if PrimFloat.is_nan a || PrimFloat.is_nan b then nan
  else if PrimFloat.ltb a b then b
  else if PrimFloat.ltb b a then a
  else if is_negzero a then b else a.

Definition Math_min (a b : float) : float :=
  if PrimFloat.is_nan a || PrimFloat.is_nan b then nan
  else if PrimFloat.ltb a b then a
  else if PrimFloat.ltb b a then b
  else if is_negzero a then a else b.

Definition Math_abs (a : float) : float := PrimFloat.abs a.
Definition Math_sqrt (a : float) : float := PrimFloat.sqrt a.

Definition POSITIVE_INFINITY : float := infinity.
End Num.

(** ** Vector2.js *)

Module Vector2.
Local Open Scope float_scope.

Record t : Set := mk { x : float; y : float }.

Definition dot (vector1 vector2 : t) : float :=
  x vector1 * x vector2 + y vector1 * y vector2.

Definition multiply (v : t) (scalar : float) : t :=
  mk (x v * scalar) (y v * scalar).

Definition divide (v : t) (scalar : float) : t :=
  mk (x v / scalar) (y v / scalar).

Definition add (vector1 vector2 : t) : t :=
  mk (x vector1 + x vector2) (y vector1 + y vector2).

Definition subtract (vector1 vector2 : t) : t :=
  mk (x vector1 - x vector2) (y vector1 - y vector2).

Definition negate (v : t) : t := mk (- x v) (- y v).

Definition length (v : t) : float :=
  Num.Math_sqrt (x v * x v + y v * y v).

Definition lengthSq (v : t) : float := x v * x v + y v * y v.

(** The instance method [normalize()]; the static [Vector2.normalize(v)] is
    [v.normalize()]. *)
Definition normalize (v : t) : t :=
  let len := length v in
  if Num.gt len 0 then divide v len else mk 0 0.

Definition static_normalize (vector : t) : t := normalize vector.

Definition zero : t := mk 0 0.
End Vector2.

(** ** RVOMath.ts *)

Module RVOMath.
Local Open Scope float_scope.

Definition RVO_EPSILON : float := 0.00001.

Definition sqr (scalar : float) : float := scalar * scalar.
Definition sqrt (scalar : float) : float := Num.Math_sqrt scalar.
Definition fabs (scalar : float) : float := Num.Math_abs scalar.

Definition absSq (vector : Vector2.t) : float := Vector2.dot vector vector.
Definition abs (vector : Vector2.t) : float := sqrt (absSq vector).

(** No guard: a zero vector is divided by its zero length. *)
Definition normalize (vector : Vector2.t) : Vector2.t :=
  Vector2.divide vector (abs vector).

Definition det (vector1 vector2 : Vector2.t) : float :=
  Vector2.x vector1 * Vector2.y vector2 - Vector2.y vector1 * Vector2.x vector2.

Definition distSqPointLineSegment (vector1 vector2 vector3 : Vector2.t) : float :=
  let r := Vector2.dot (Vector2.subtract vector3 vector1) (Vector2.subtract vector2 vector1)
           / absSq (Vector2.subtract vector2 vector1) in
  if Num.lt r 0 then absSq (Vector2.subtract vector3 vector1)
  else if Num.gt r 1 then absSq (Vector2.subtract vector3 vector2)
  else absSq (Vector2.subtract vector3
                (Vector2.add vector1 (Vector2.multiply (Vector2.subtract vector2 vector1) r))).

Definition leftOf (a b c : Vector2.t) : float :=
  det (Vector2.subtract a c) (Vector2.subtract b a).
End RVOMath.

(** ** Line, Obstacle, Agent: the data *)

Module Line.
Record t : Set := mk { direction : Vector2.t; point : Vector2.t }.
End Line.

Module Obstacle.
(** [next] and [previous] are references to vertices of the same polygon;
    [None] is [null].  The class body is not among the sources (only its
    declaration is); every field of a fresh obstacle is assigned before the
    obstacle is used, so the initial values below are never observed. *)
Record t : Set := mk {
  next : option nat;
  previous : option nat;
  direction : Vector2.t;
  point : Vector2.t;
  id : nat;
  convex : bool
}.

Definition new : t := mk None None Vector2.zero Vector2.zero 0 false.

Definition set_next (n : option nat) (o : t) : t :=
  mk n (previous o) (direction o) (point o) (id o) (convex o).
Definition set_previous (p : option nat) (o : t) : t :=
  mk (next o) p (direction o) (point o) (id o) (convex o).
End Obstacle.

Module Agent.
(** A neighbour entry [{ key, value }]: the squared distance and the
    neighbour (an agent index, or the index of an edge's first vertex). *)
Abbreviation entry := (float * nat)%type (only parsing).

Record t : Set := mk {
  agentNeighbors : list entry;
  obstacleNeighbors : list entry;
  orcaLines : list Line.t;
  position : Vector2.t;
  prefVelocity : Vector2.t;
  velocity : Vector2.t;
  id : nat;
  maxNeighbors : nat;
  maxSpeed : float;
  neighborDist : float;
  radius : float;
  timeHorizon : float;
  timeHorizonObst : float;
  newVelocity : Vector2.t
}.

(** The constructor. *)
Definition new : t :=
  mk [] [] [] Vector2.zero Vector2.zero Vector2.zero 0 0
     0%float 0%float 0%float 0%float 0%float Vector2.zero.

Definition set_agentNeighbors (l : list entry) (a : t) : t :=
  mk l (obstacleNeighbors a) (orcaLines a) (position a) (prefVelocity a)
     (velocity a) (id a) (maxNeighbors a) (maxSpeed a) (neighborDist a)
     (radius a) (timeHorizon a) (timeHorizonObst a) (newVelocity a).
Definition set_obstacleNeighbors (l : list entry) (a : t) : t :=
  mk (agentNeighbors a) l (orcaLines a) (position a) (prefVelocity a)
     (velocity a) (id a) (maxNeighbors a) (maxSpeed a) (neighborDist a)
     (radius a) (timeHorizon a) (timeHorizonObst a) (newVelocity a).
Definition set_orcaLines (l : list Line.t) (a : t) : t :=
  mk (agentNeighbors a) (obstacleNeighbors a) l (position a) (prefVelocity a)
     (velocity a) (id a) (maxNeighbors a) (maxSpeed a) (neighborDist a)
     (radius a) (timeHorizon a) (timeHorizonObst a) (newVelocity a).
Definition set_position (v : Vector2.t) (a : t) : t :=
  mk (agentNeighbors a) (obstacleNeighbors a) (orcaLines a) v (prefVelocity a)
     (velocity a) (id a) (maxNeighbors a) (maxSpeed a) (neighborDist a)
     (radius a) (timeHorizon a) (timeHorizonObst a) (newVelocity a).
Definition set_prefVelocity (v : Vector2.t) (a : t) : t :=
  mk (agentNeighbors a) (obstacleNeighbors a) (orcaLines a) (position a) v
     (velocity a) (id a) (maxNeighbors a) (maxSpeed a) (neighborDist a)
     (radius a) (timeHorizon a) (timeHorizonObst a) (newVelocity a).
Definition set_velocity (v : Vector2.t) (a : t) : t :=
  mk (agentNeighbors a) (obstacleNeighbors a) (orcaLines a) (position a)
     (prefVelocity a) v (id a) (maxNeighbors a) (maxSpeed a) (neighborDist a)
     (radius a) (timeHorizon a) (timeHorizonObst a) (newVelocity a).
Definition set_newVelocity (v : Vector2.t) (a : t) : t :=
  mk (agentNeighbors a) (obstacleNeighbors a) (orcaLines a) (position a)
     (prefVelocity a) (velocity a) (id a) (maxNeighbors a) (maxSpeed a)
     (neighborDist a) (radius a) (timeHorizon a) (timeHorizonObst a) v.
End Agent.

(** ** KdTree.js: the data *)

Module AgentTreeNode.
Record t : Set := mk {
  begin_ : nat; end_ : nat; left : nat; right : nat;
  maxX : float; maxY : float; minX : float; minY : float
}.
Definition new : t := mk 0 0 0 0 0%float 0%float 0%float 0%float.
End AgentTreeNode.

(** [FloatPair] is only ever built from the two counters of the splitter
    search, which hold array lengths: its components are natural numbers. *)
Module FloatPair.
Record t : Set := mk { a : nat; b : nat }.

Definition lessThan (pair1 pair2 : t) : bool :=
  (a pair1 <? a pair2)%nat
  || (negb (a pair2 <? a pair1)%nat && (b pair1 <? b pair2)%nat).
Definition lessThanOrEqual (pair1 pair2 : t) : bool :=
  ((a pair1 =? a pair2)%nat && (b pair1 =? b pair2)%nat) || lessThan pair1 pair2.
Definition greaterThan (pair1 pair2 : t) : bool :=
  negb (lessThanOrEqual pair1 pair2).
Definition greaterThanOrEqual (pair1 pair2 : t) : bool :=
  negb (lessThan pair1 pair2).
End FloatPair.

(** An [ObstacleTreeNode], or [null]. *)
Inductive ObstacleTreeNode : Set :=
| ONull : ObstacleTreeNode
| ONode (obstacle : nat) (left right : ObstacleTreeNode) : ObstacleTreeNode.

Module KdTree.
Record t : Set := mk {
  agents : list nat;
  agentTree : list AgentTreeNode.t;
  obstacleTree : ObstacleTreeNode
}.
Definition new : t := mk [] [] ONull.
Definition MAX_LEAF_SIZE : nat := 10.
End KdTree.

(** ** Simulator.ts: the state and the operations that do not step *)

Module Simulator.
Record t : Set := mk {
  agents : list Agent.t;
  obstacles : list Obstacle.t;
  kdTree : KdTree.t;
  timeStep : float;
  defaultAgent : option Agent.t;
  globalTime : float
}.

Definition set_agents (l : list Agent.t) (s : t) : t :=
  mk l (obstacles s) (kdTree s) (timeStep s) (defaultAgent s) (globalTime s).
Definition set_obstacles (l : list Obstacle.t) (s : t) : t :=
  mk (agents s) l (kdTree s) (timeStep s) (defaultAgent s) (globalTime s).
Definition set_kdTree (k : KdTree.t) (s : t) : t :=
  mk (agents s) (obstacles s) k (timeStep s) (defaultAgent s) (globalTime s).
End Simulator.

Section SimulatorOps.
Local Open Scope float_scope.
Import Simulator.

(** References are followed through the arenas.  An index out of range
    stands for a reference the program never builds; it yields a fresh
    object. *)
Definition getAgent (s : Simulator.t) (index : nat) : Agent.t :=
  default Agent.new (agents s !! index).
Definition getObstacle (obstacles : list Obstacle.t) (index : nat) : Obstacle.t :=
  default Obstacle.new (obstacles !! index).
Definition deref (obstacles : list Obstacle.t) (r : option nat) : Obstacle.t :=
  match r with Some i => getObstacle obstacles i | None => Obstacle.new end.

(** [clear()], and the state the private constructor leaves, which runs
    [clear()] on the field initialisers. *)
Definition clear (s : Simulator.t) : Simulator.t :=
  Simulator.mk [] [] KdTree.new 0.1 None 0.0.

Definition fresh : Simulator.t :=
  clear (Simulator.mk [] [] KdTree.new 0.1 None 0.0).

Definition addAgent (position : Vector2.t) (s : Simulator.t) : Z * Simulator.t :=
  match defaultAgent s with
  | None => ((-1)%Z, s)
  | Some d =>
      let agent :=
        Agent.mk [] [] [] position Vector2.zero (Agent.velocity d)
                 (length (agents s)) (Agent.maxNeighbors d) (Agent.maxSpeed d)
                 (Agent.neighborDist d) (Agent.radius d) (Agent.timeHorizon d)
                 (Agent.timeHorizonObst d) Vector2.zero in
      (Z.of_nat (Agent.id agent), set_agents (agents s ++ [agent]) s)
  end.

Definition addAgentWithParams (position : Vector2.t) (neighborDist : float)
    (maxNeighbors : nat) (timeHorizon timeHorizonObst radius maxSpeed : float)
    (velocity : Vector2.t) (s : Simulator.t) : Z * Simulator.t :=
  let agent :=
    Agent.mk [] [] [] position Vector2.zero velocity
             (length (agents s)) maxNeighbors maxSpeed neighborDist radius
             timeHorizon timeHorizonObst Vector2.zero in
  (Z.of_nat (Agent.id agent), set_agents (agents s ++ [agent]) s).

Definition setAgentDefaults (neighborDist : float) (maxNeighbors : nat)
    (timeHorizon timeHorizonObst radius maxSpeed : float)
    (velocity : Vector2.t) (s : Simulator.t) : Simulator.t :=
  let d := match defaultAgent s with None => Agent.new | Some d => d end in
  let d' :=
    Agent.mk (Agent.agentNeighbors d) (Agent.obstacleNeighbors d)
             (Agent.orcaLines d) (Agent.position d) (Agent.prefVelocity d)
             velocity (Agent.id d) maxNeighbors maxSpeed neighborDist radius
             timeHorizon timeHorizonObst (Agent.newVelocity d) in
  Simulator.mk (agents s) (obstacles s) (kdTree s) (timeStep s) (Some d')
               (globalTime s).

(** One round of the loop of [addObstacle]; [i] is the loop counter and
    [obstacleNo] the length of the list when the call began. *)
Definition vertexAt (vertices : list Vector2.t) (i : nat) : Vector2.t :=
  default Vector2.zero (vertices !! i).

Definition addObstacle_step (vertices : list Vector2.t) (obstacleNo : nat)
    (obstacles : list Obstacle.t) (i : nat) : list Obstacle.t :=
  let n := length vertices in
  let self := length obstacles in
  let last := (i =? n - 1)%nat in
  (* obstacle.previous = obstacles[length - 1]; obstacle.previous.next = obstacle *)
  let '(prev, obstacles1) :=
    if (i =? 0)%nat then (None, obstacles)
    else (Some (self - 1)%nat,
          alter (Obstacle.set_next (Some self)) (self - 1)%nat obstacles) in
  (* obstacle.next = obstacles[obstacleNo]; obstacle.next.previous = obstacle *)
  let '(nxt, obstacles2) :=
    if last then (Some obstacleNo,
                  alter (Obstacle.set_previous (Some self)) obstacleNo obstacles1)
    else (None, obstacles1) in
  let direction :=
    RVOMath.normalize
      (Vector2.subtract (vertexAt vertices (if last then 0 else i + 1)%nat)
                        (vertexAt vertices i)) in
  let convex :=
    if (n =? 2)%nat then true
    else Num.ge (RVOMath.leftOf
                   (vertexAt vertices (if (i =? 0)%nat then n - 1 else i - 1)%nat)
                   (vertexAt vertices i)
                   (vertexAt vertices (if last then 0 else i + 1)%nat)) 0.0 in
  obstacles2 ++ [Obstacle.mk nxt prev direction (vertexAt vertices i) self convex].

Definition addObstacle (vertices : list Vector2.t) (s : Simulator.t)
    : Z * Simulator.t :=
  if (length vertices <? 2)%nat then ((-1)%Z, s)
  else
    let obstacleNo := length (obstacles s) in
    let obstacles' :=
      foldl (addObstacle_step vertices obstacleNo) (obstacles s)
            (seq 0 (length vertices)) in
    (Z.of_nat obstacleNo, set_obstacles obstacles' s).

Definition getGlobalTime (s : Simulator.t) : float := globalTime s.
Definition getTimeStep (s : Simulator.t) : float := timeStep s.
Definition getNumAgents (s : Simulator.t) : nat := length (agents s).
Definition getNumObstacleVertices (s : Simulator.t) : nat := length (obstacles s).

Definition setTimeStep (timeStep : float) (s : Simulator.t) : Simulator.t :=
  Simulator.mk (agents s) (obstacles s) (kdTree s) timeStep (defaultAgent s)
               (globalTime s).
Definition setGlobalTime (globalTime : float) (s : Simulator.t) : Simulator.t :=
  Simulator.mk (agents s) (obstacles s) (kdTree s) (Simulator.timeStep s)
               (defaultAgent s) globalTime.

Definition setAgent (agentNo : nat) (f : Agent.t -> Agent.t) (s : Simulator.t)
    : Simulator.t :=
  set_agents (alter f agentNo (agents s)) s.
Definition setAgentPrefVelocity (agentNo : nat) (prefVelocity : Vector2.t) :=
  setAgent agentNo (Agent.set_prefVelocity prefVelocity).
Definition setAgentVelocity (agentNo : nat) (velocity : Vector2.t) :=
  setAgent agentNo (Agent.set_velocity velocity).
Definition setAgentPosition (agentNo : nat) (position : Vector2.t) :=
  setAgent agentNo (Agent.set_position position).
End SimulatorOps.


(** ** Agent.js: the two neighbour lists *)

Section Neighbors.
Local Open Scope float_scope.

(** The loop [while (i !== 0 && distSq < list[i - 1].key) { list[i] = list[i - 1]; --i; }],
    run from index [i]; it yields the array and the index where it stops.
    Reading [.key] of a missing element throws: [None]. *)
Fixpoint shiftNeighbors (distSq : float) (l : list Agent.entry) (i : nat)
    : option (list Agent.entry * nat) :=
  match i with
  | O => Some (l, O)
  | S i' =>
      e ← l !! i';
      if Num.lt distSq e.1 then shiftNeighbors distSq (<[i := e]> l) i'
      else Some (l, i)
  end.

(** [insertAgentNeighbor(agent, rangeSq)] on the agent [this] whose index is
    [self]; the cell [rangeSq] is returned with the agent. *)
Definition insertAgentNeighbor (s : Simulator.t) (self : nat) (this : Agent.t)
    (agent : nat) (rangeSq : float) : option (Agent.t * float) :=
  if decide (self = agent) then Some (this, rangeSq)
  else
    let distSq :=
      RVOMath.absSq (Vector2.subtract (Agent.position this)
                                      (Agent.position (getAgent s agent))) in
    if Num.lt distSq rangeSq then
      let l1 :=
        if (length (Agent.agentNeighbors this) <? Agent.maxNeighbors this)%nat
        then Agent.agentNeighbors this ++ [(distSq, agent)]
        else Agent.agentNeighbors this in
      match length l1 with
      | O => None
      | S i0 =>
          '(l2, i) ← shiftNeighbors distSq l1 i0;
          let l3 := <[i := (distSq, agent)]> l2 in
          let rangeSq' :=
            if (length l3 =? Agent.maxNeighbors this)%nat
            then default rangeSq (fst <$> l3 !! (length l3 - 1)%nat)
            else rangeSq in
          Some (Agent.set_agentNeighbors l3 this, rangeSq')
      end
    else Some (this, rangeSq).

(** The squared distance from [position] to the edge that starts at vertex
    [obstacle]. *)
Definition edgeDistSq (obstacles : list Obstacle.t) (position : Vector2.t)
    (obstacle : nat) : float :=
  let o := getObstacle obstacles obstacle in
  let nextObstacle := deref obstacles (Obstacle.next o) in
  RVOMath.distSqPointLineSegment (Obstacle.point o) (Obstacle.point nextObstacle) position.

(** [insertObstacleNeighbor(obstacle, rangeSq)]: [rangeSq] is a number passed
    by value, and nothing is returned but the updated list. *)
Definition insertObstacleNeighbor (obstacles : list Obstacle.t) (this : Agent.t)
    (obstacle : nat) (rangeSq : float) : option Agent.t :=
  let distSq := edgeDistSq obstacles (Agent.position this) obstacle in
  if Num.lt distSq rangeSq then
    let l1 := Agent.obstacleNeighbors this ++ [(distSq, obstacle)] in
    '(l2, i) ← shiftNeighbors distSq l1 (length l1 - 1)%nat;
    Some (Agent.set_obstacleNeighbors (<[i := (distSq, obstacle)]> l2) this)
  else Some this.
End Neighbors.

(** ** KdTree.js: the agent tree *)

Section AgentTree.
Local Open Scope float_scope.

Variable s : Simulator.t.

(** The coordinate the partition compares: [agents[i].position.x()] or
    [.y()]. *)
Definition kdPosition (agents : list nat) (i : nat) : option Vector2.t :=
  idx ← agents !! i; Some (Agent.position (getAgent s idx)).

Definition kdCoord (isVertical : bool) (agents : list nat) (i : nat) : option float :=
  p ← kdPosition agents i;
  Some (if isVertical then Vector2.x p else Vector2.y p).

(** The bounding-box loop, for [i] in [[i, end)]. *)
Fixpoint boundingBox (agents : list nat) (i k : nat) (n : AgentTreeNode.t)
    : option AgentTreeNode.t :=
  match k with
  | O => Some n
  | S k' =>
      p ← kdPosition agents i;
      boundingBox agents (S i) k'
        (AgentTreeNode.mk (AgentTreeNode.begin_ n) (AgentTreeNode.end_ n)
           (AgentTreeNode.left n) (AgentTreeNode.right n)
           (Num.Math_max (AgentTreeNode.maxX n) (Vector2.x p))
           (Num.Math_max (AgentTreeNode.maxY n) (Vector2.y p))
           (Num.Math_min (AgentTreeNode.minX n) (Vector2.x p))
           (Num.Math_min (AgentTreeNode.minY n) (Vector2.y p)))
  end.

(** [while (left < right && coord(agents[left]) < splitValue) ++left], with
    [k = right - left]. *)
Fixpoint scanLeft (isVertical : bool) (splitValue : float) (agents : list nat)
    (k left : nat) : option nat :=
  match k with
  | O => Some left
  | S k' =>
      c ← kdCoord isVertical agents left;
      if Num.lt c splitValue then scanLeft isVertical splitValue agents k' (S left)
      else Some left
  end.

(** [while (right > left && coord(agents[right - 1]) >= splitValue) --right],
    with [k = right - left]. *)
Fixpoint scanRight (isVertical : bool) (splitValue : float) (agents : list nat)
    (k right : nat) : option nat :=
  match k with
  | O => Some right
  | S k' =>
      c ← kdCoord isVertical agents (right - 1);
      if Num.ge c splitValue then scanRight isVertical splitValue agents k' (right - 1)
      else Some right
  end.

Definition swapAgents (agents : list nat) (i j : nat) : option (list nat) :=
  ai ← agents !! i; aj ← agents !! j;
  Some (<[j := ai]> (<[i := aj]> agents)).

(** The outer [while (left < right)] loop.  Every round that does not end
    the loop brings [left] and [right] closer, so [fuel = right - left + 1]
    rounds are enough. *)
Fixpoint partitionLoop (isVertical : bool) (splitValue : float) (fuel : nat)
    (agents : list nat) (left right : nat) : option (list nat * nat * nat) :=
  if (left <? right)%nat then
    match fuel with
    | O => None
    | S fuel' =>
        left1 ← scanLeft isVertical splitValue agents (right - left) left;
        right1 ← scanRight isVertical splitValue agents (right - left1) right;
        if (left1 <? right1)%nat then
          agents' ← swapAgents agents left1 (right1 - 1);
          partitionLoop isVertical splitValue fuel' agents' (S left1) (right1 - 1)
        else partitionLoop isVertical splitValue fuel' agents left1 right1
    end
  else Some (agents, left, right).

(** [buildAgentTreeRecursive(begin, end, node)].  A call on node [node] only
    calls itself on larger node numbers, and a node number outside the array
    throws; [fuel] bounds the depth and [length agentTree + 1] is enough. *)
Fixpoint buildAgentTreeRecursive (fuel : nat) (begin_ end_ node : nat)
    (kd : KdTree.t) : option KdTree.t :=
  match fuel with
  | O => None
  | S fuel' =>
      n0 ← KdTree.agentTree kd !! node;
      p ← kdPosition (KdTree.agents kd) begin_;
      n1 ← boundingBox (KdTree.agents kd) (S begin_) (end_ - S begin_)
             (AgentTreeNode.mk begin_ end_ (AgentTreeNode.left n0)
                (AgentTreeNode.right n0)
                (Vector2.x p) (Vector2.y p) (Vector2.x p) (Vector2.y p));
      if (KdTree.MAX_LEAF_SIZE <? end_ - begin_)%nat then
        let isVertical :=
          Num.gt (AgentTreeNode.maxX n1 - AgentTreeNode.minX n1)
                 (AgentTreeNode.maxY n1 - AgentTreeNode.minY n1) in
        let splitValue :=
          0.5 * (if isVertical then AgentTreeNode.maxX n1 + AgentTreeNode.minX n1
                 else AgentTreeNode.maxY n1 + AgentTreeNode.minY n1) in
        '(agents', left0, _) ←
          partitionLoop isVertical splitValue (S (end_ - begin_))
                        (KdTree.agents kd) begin_ end_;
        let leftSize := if (left0 - begin_ =? 0)%nat then 1%nat else (left0 - begin_)%nat in
        let left := if (left0 - begin_ =? 0)%nat then S left0 else left0 in
        let n2 :=
          AgentTreeNode.mk (AgentTreeNode.begin_ n1) (AgentTreeNode.end_ n1)
            (node + 1) (node + 2 * leftSize)
            (AgentTreeNode.maxX n1) (AgentTreeNode.maxY n1)
            (AgentTreeNode.minX n1) (AgentTreeNode.minY n1) in
        let kd1 :=
          KdTree.mk agents' (<[node := n2]> (KdTree.agentTree kd))
                    (KdTree.obstacleTree kd) in
        kd2 ← buildAgentTreeRecursive fuel' begin_ left (AgentTreeNode.left n2) kd1;
        buildAgentTreeRecursive fuel' left end_ (AgentTreeNode.right n2) kd2
      else
        Some (KdTree.mk (KdTree.agents kd) (<[node := n1]> (KdTree.agentTree kd))
                        (KdTree.obstacleTree kd))
  end.

Definition buildAgentTree (kd : KdTree.t) : option KdTree.t :=
  let kd1 :=
    if decide (length (KdTree.agents kd) = getNumAgents s) then kd
    else KdTree.mk (seq 0 (getNumAgents s))
                   (replicate (2 * getNumAgents s) AgentTreeNode.new)
                   (KdTree.obstacleTree kd) in
  if decide (length (KdTree.agents kd1) = 0%nat) then Some kd1
  else buildAgentTreeRecursive (S (length (KdTree.agentTree kd1)))
                               0 (length (KdTree.agents kd1)) 0 kd1.

(** The squared distance from [p] to the bounding box of a node. *)
Definition distSqBox (p : Vector2.t) (n : AgentTreeNode.t) : float :=
  RVOMath.sqr (Num.Math_max 0.0 (AgentTreeNode.minX n - Vector2.x p))
  + RVOMath.sqr (Num.Math_max 0.0 (Vector2.x p - AgentTreeNode.maxX n))
  + RVOMath.sqr (Num.Math_max 0.0 (AgentTreeNode.minY n - Vector2.y p))
  + RVOMath.sqr (Num.Math_max 0.0 (Vector2.y p - AgentTreeNode.maxY n)).

(** The leaf loop [for (i = begin; i < end; ++i) agent.insertAgentNeighbor(agents[i], rangeSq)]. *)
Fixpoint insertLeaf (kd : KdTree.t) (self : nat) (range : list nat)
    (st : Agent.t * float) : option (Agent.t * float) :=
  match range with
  | [] => Some st
  | i :: range' =>
      other ← KdTree.agents kd !! i;
      st' ← insertAgentNeighbor s self st.1 other st.2;
      insertLeaf kd self range' st'
  end.

(** [queryAgentTreeRecursive(agent, rangeSq, node)]; the state is the
    querying agent and the cell [rangeSq].  The children of a node have larger
    numbers than the node, so [length agentTree + 1] bounds the depth. *)
Fixpoint queryAgentTreeRecursive (fuel : nat) (kd : KdTree.t) (self : nat)
    (node : nat) (st : Agent.t * float) : option (Agent.t * float) :=
  match fuel with
  | O => None
  | S fuel' =>
      n ← KdTree.agentTree kd !! node;
      if (AgentTreeNode.end_ n - AgentTreeNode.begin_ n <=? KdTree.MAX_LEAF_SIZE)%nat then
        insertLeaf kd self
          (seq (AgentTreeNode.begin_ n) (AgentTreeNode.end_ n - AgentTreeNode.begin_ n)) st
      else
        nl ← KdTree.agentTree kd !! AgentTreeNode.left n;
        nr ← KdTree.agentTree kd !! AgentTreeNode.right n;
        let distSqLeft := distSqBox (Agent.position st.1) nl in
        let distSqRight := distSqBox (Agent.position st.1) nr in
        if Num.lt distSqLeft distSqRight then
          if Num.lt distSqLeft st.2 then
            st1 ← queryAgentTreeRecursive fuel' kd self (AgentTreeNode.left n) st;
            if Num.lt distSqRight st1.2 then
              queryAgentTreeRecursive fuel' kd self (AgentTreeNode.right n) st1
            else Some st1
          else Some st
        else
          if Num.lt distSqRight st.2 then
            st1 ← queryAgentTreeRecursive fuel' kd self (AgentTreeNode.right n) st;
            if Num.lt distSqLeft st1.2 then
              queryAgentTreeRecursive fuel' kd self (AgentTreeNode.left n) st1
            else Some st1
          else Some st
  end.

Definition computeAgentNeighbors (kd : KdTree.t) (self : nat) (this : Agent.t)
    (rangeSq : float) : option (Agent.t * float) :=
  queryAgentTreeRecursive (S (length (KdTree.agentTree kd))) kd self 0 (this, rangeSq).
End AgentTree.

(** ** KdTree.js: the obstacle tree *)

Section ObstacleTree.
Local Open Scope float_scope.

(** How the edge starting at vertex [j] lies with respect to the line through
    the points [pI1] and [pI2] of the candidate edge ([obstacleI1.point] and
    [obstacleI2.point], read once per candidate): the three branches of the
    [if / else if / else] that both loops of [buildObstacleTreeRecursive]
    share. *)
Inductive side : Set := SLeft | SRight | SBoth.

Definition edgePoints (obstacles : list Obstacle.t) (i : nat) : Vector2.t * Vector2.t :=
  let obstacleI1 := getObstacle obstacles i in
  let obstacleI2 := deref obstacles (Obstacle.next obstacleI1) in
  (Obstacle.point obstacleI1, Obstacle.point obstacleI2).

Definition j1LeftOfI (obstacles : list Obstacle.t) (pI : Vector2.t * Vector2.t)
    (j : nat) : float :=
  RVOMath.leftOf pI.1 pI.2 (edgePoints obstacles j).1.

Definition j2LeftOfI (obstacles : list Obstacle.t) (pI : Vector2.t * Vector2.t)
    (j : nat) : float :=
  RVOMath.leftOf pI.1 pI.2 (edgePoints obstacles j).2.

Definition classify (obstacles : list Obstacle.t) (pI : Vector2.t * Vector2.t)
    (j : nat) : side :=
  if Num.ge (j1LeftOfI obstacles pI j) (- RVOMath.RVO_EPSILON)
     && Num.ge (j2LeftOfI obstacles pI j) (- RVOMath.RVO_EPSILON) then SLeft
  else if Num.le (j1LeftOfI obstacles pI j) RVOMath.RVO_EPSILON
          && Num.le (j2LeftOfI obstacles pI j) RVOMath.RVO_EPSILON then SRight
  else SBoth.

(** [new FloatPair(Math.max(l, r), Math.min(l, r))]. *)
Definition sizePair (l r : nat) : FloatPair.t :=
  FloatPair.mk (Nat.max l r) (Nat.min l r).

Definition bump (sd : side) (sizes : nat * nat) : nat * nat :=
  match sd with
  | SLeft => (S sizes.1, sizes.2)
  | SRight => (sizes.1, S sizes.2)
  | SBoth => (S sizes.1, S sizes.2)
  end.

(** The inner counting loop for candidate [i] (whose line is [pI]), from
    position [j] on, with its [continue] at [i === j] and its [break] once the running
    pair is not below the best pair [(minLeft, minRight)]. *)
Fixpoint countSides (arena : list Obstacle.t) (i : nat)
    (pI : Vector2.t * Vector2.t) (best : FloatPair.t)
    (rest : list nat) (j : nat) (sizes : nat * nat) : nat * nat :=
  match rest with
  | [] => sizes
  | oj :: rest' =>
      if (i =? j)%nat then countSides arena i pI best rest' (S j) sizes
      else
        let sizes' := bump (classify arena pI oj) sizes in
        if FloatPair.greaterThanOrEqual (sizePair sizes'.1 sizes'.2) best
        then sizes'
        else countSides arena i pI best rest' (S j) sizes'
  end.

(** The outer loop over the candidates, from position [i] on; the state is
    [(optimalSplit, minLeft, minRight)]. *)
Fixpoint chooseSplit (arena : list Obstacle.t) (obstacles rest : list nat)
    (i : nat) (st : nat * nat * nat) : nat * nat * nat :=
  match rest with
  | [] => st
  | oi :: rest' =>
      let '(optimalSplit, minLeft, minRight) := st in
      let sizes :=
        countSides arena i (edgePoints arena oi) (sizePair minLeft minRight)
                   obstacles 0 (0, 0)%nat in
      chooseSplit arena obstacles rest' (S i)
        (if FloatPair.lessThan (sizePair sizes.1 sizes.2) (sizePair minLeft minRight)
         then (i, sizes.1, sizes.2) else st)
  end.

Definition optimalSplit (arena : list Obstacle.t) (obstacles : list nat)
    : nat * nat * nat :=
  chooseSplit arena obstacles obstacles 0 (0%nat, length obstacles, length obstacles).

(** The second loop: the edges other than the splitter are handed to the
    left or the right list, and an edge that straddles the line is cut by a
    new vertex, appended to the simulator's list and spliced into the chain.
    The source preallocates the two arrays with [minLeft] and [minRight]
    slots and fills them through two counters that end at these lengths;
    here the two lists grow by one per write. *)
Definition splitEdge (i : nat) (pI : Vector2.t * Vector2.t)
    (st : list Obstacle.t * list nat * list nat) (jo : nat * nat)
    : list Obstacle.t * list nat * list nat :=
  let '(arena, leftObstacles, rightObstacles) := st in
  let '(j, oj) := jo in
  if (i =? j)%nat then st
  else
    match classify arena pI oj with
    | SLeft => (arena, leftObstacles ++ [oj], rightObstacles)
    | SRight => (arena, leftObstacles, rightObstacles ++ [oj])
    | SBoth =>
        let obstacleJ1 := getObstacle arena oj in
        let obstacleJ2 := deref arena (Obstacle.next obstacleJ1) in
        let t :=
          RVOMath.det (Vector2.subtract pI.2 pI.1)
                      (Vector2.subtract (Obstacle.point obstacleJ1) pI.1)
          / RVOMath.det (Vector2.subtract pI.2 pI.1)
                        (Vector2.subtract (Obstacle.point obstacleJ1) (Obstacle.point obstacleJ2)) in
        let splitPoint :=
          Vector2.add (Obstacle.point obstacleJ1)
            (Vector2.multiply
               (Vector2.subtract (Obstacle.point obstacleJ2) (Obstacle.point obstacleJ1)) t) in
        let new := length arena in
        let newObstacle :=
          Obstacle.mk (Obstacle.next obstacleJ1) (Some oj)
                      (Obstacle.direction obstacleJ1) splitPoint new true in
        let arena1 := arena ++ [newObstacle] in
        let arena2 := alter (Obstacle.set_next (Some new)) oj arena1 in
        let arena3 :=
          match Obstacle.next obstacleJ1 with
          | Some j2 => alter (Obstacle.set_previous (Some new)) j2 arena2
          | None => arena2
          end in
        if Num.gt (j1LeftOfI arena pI oj) 0.0
        then (arena3, leftObstacles ++ [oj], rightObstacles ++ [new])
        else (arena3, leftObstacles ++ [new], rightObstacles ++ [oj])
    end.

(** [buildObstacleTreeRecursive(obstacles)]; the simulator's vertex list is
    threaded through.  Each of the two lists handed down is shorter than
    [obstacles], so [fuel = length obstacles] is enough. *)
Fixpoint buildObstacleTreeRecursive (fuel : nat) (obstacles : list nat)
    (arena : list Obstacle.t) : ObstacleTreeNode * list Obstacle.t :=
  match obstacles, fuel with
  | [], _ => (ONull, arena)
  | _, O => (ONull, arena)
  | _, S fuel' =>
      let i := (optimalSplit arena obstacles).1.1 in
      let oi := default 0%nat (obstacles !! i) in
      let '(arena1, leftObstacles, rightObstacles) :=
        foldl (splitEdge i (edgePoints arena oi)) (arena, [], [])
              (imap (fun j oj => (j, oj)) obstacles) in
      let '(l, arena2) := buildObstacleTreeRecursive fuel' leftObstacles arena1 in
      let '(r, arena3) := buildObstacleTreeRecursive fuel' rightObstacles arena2 in
      (ONode oi l r, arena3)
  end.

Definition buildObstacleTree (s : Simulator.t) : Simulator.t :=
  let obstacles := seq 0 (getNumObstacleVertices s) in
  let '(tree, arena) :=
    buildObstacleTreeRecursive (length obstacles) obstacles (Simulator.obstacles s) in
  Simulator.mk (Simulator.agents s) arena
    (KdTree.mk (KdTree.agents (Simulator.kdTree s))
               (KdTree.agentTree (Simulator.kdTree s)) tree)
    (Simulator.timeStep s) (Simulator.defaultAgent s) (Simulator.globalTime s).

Definition processObstacles (s : Simulator.t) : Simulator.t := buildObstacleTree s.

(** [queryObstacleTreeRecursive(agent, rangeSq, node)]: the same [rangeSq] is
    handed to every call. *)
Definition agentLeftOfLine (obstacles : list Obstacle.t) (position : Vector2.t)
    (obstacle : nat) : float :=
  let obstacle1 := getObstacle obstacles obstacle in
  let obstacle2 := deref obstacles (Obstacle.next obstacle1) in
  RVOMath.leftOf (Obstacle.point obstacle1) (Obstacle.point obstacle2) position.

Definition distSqLine (obstacles : list Obstacle.t) (position : Vector2.t)
    (obstacle : nat) : float :=
  let obstacle1 := getObstacle obstacles obstacle in
  let obstacle2 := deref obstacles (Obstacle.next obstacle1) in
  RVOMath.sqr (agentLeftOfLine obstacles position obstacle)
  / RVOMath.absSq (Vector2.subtract (Obstacle.point obstacle2) (Obstacle.point obstacle1)).

Fixpoint queryObstacleTreeRecursive (obstacles : list Obstacle.t)
    (rangeSq : float) (node : ObstacleTreeNode) (this : Agent.t)
    : option Agent.t :=
  match node with
  | ONull => Some this
  | ONode obstacle l r =>
      let side := agentLeftOfLine obstacles (Agent.position this) obstacle in
      this1 ← queryObstacleTreeRecursive obstacles rangeSq
                 (if Num.ge side 0.0 then l else r) this;
      if Num.lt (distSqLine obstacles (Agent.position this) obstacle) rangeSq then
        this2 ← (if Num.lt side 0.0
                  then insertObstacleNeighbor obstacles this1 obstacle rangeSq
                  else Some this1);
        queryObstacleTreeRecursive obstacles rangeSq
          (if Num.ge side 0.0 then r else l) this2
      else Some this1
  end.

Definition computeObstacleNeighbors (s : Simulator.t) (this : Agent.t)
    (rangeSq : float) : option Agent.t :=
  queryObstacleTreeRecursive (Simulator.obstacles s) rangeSq
    (KdTree.obstacleTree (Simulator.kdTree s)) this.

(** [computeNeighbors()] of the agent at index [self]. *)
Definition computeNeighbors (s : Simulator.t) (self : nat) (this : Agent.t)
    : option Agent.t :=
  let this0 := Agent.set_obstacleNeighbors [] this in
  let rangeSq :=
    RVOMath.sqr (Agent.timeHorizonObst this0 * Agent.maxSpeed this0 + Agent.radius this0) in
  this1 ← computeObstacleNeighbors s this0 rangeSq;
  let this2 := Agent.set_agentNeighbors [] this1 in
  if (0 <? Agent.maxNeighbors this2)%nat then
    let rangeSq := RVOMath.sqr (Agent.neighborDist this2) in
    st ← computeAgentNeighbors s (Simulator.kdTree s) self this2 rangeSq;
    Some st.1
  else Some this2.
End ObstacleTree.

(** ** Agent.js: the linear programs *)

Section LinearPrograms.
Local Open Scope float_scope.

Definition lineAt (lines : list Line.t) (i : nat) : Line.t :=
  default (Line.mk Vector2.zero Vector2.zero) (lines !! i).

(** The loop of [linearProgram1] over the lines before [lineNo]: it narrows
    [[tLeft, tRight]] and gives [None] where the source returns [false]. *)
Fixpoint clipLine (line : Line.t) (earlier : list Line.t) (tLeft tRight : float)
    : option (float * float) :=
  match earlier with
  | [] => Some (tLeft, tRight)
  | li :: earlier' =>
      let denominator := RVOMath.det (Line.direction line) (Line.direction li) in
      let numerator :=
        RVOMath.det (Line.direction li)
                    (Vector2.subtract (Line.point line) (Line.point li)) in
      if Num.le (Num.Math_abs denominator) RVOMath.RVO_EPSILON then
        if Num.lt numerator 0.0 then None
        else clipLine line earlier' tLeft tRight
      else
        let t := numerator / denominator in
        let tRight' := if Num.ge denominator 0.0 then Num.Math_min tRight t else tRight in
        let tLeft' := if Num.ge denominator 0.0 then tLeft else Num.Math_max tLeft t in
        if Num.gt tLeft' tRight' then None
        else clipLine line earlier' tLeft' tRight'
  end.

(** [linearProgram1(lines, lineNo, radius, optVelocity, directionOpt, result)]:
    [Some v] when it returns [true] after writing [v] to [result.value],
    [None] when it returns [false]. *)
Definition linearProgram1 (lines : list Line.t) (lineNo : nat) (radius : float)
    (optVelocity : Vector2.t) (directionOpt : bool) : option Vector2.t :=
  let line := lineAt lines lineNo in
  let dotProduct := Vector2.dot (Line.point line) (Line.direction line) in
  let discriminant :=
    RVOMath.sqr dotProduct + RVOMath.sqr radius - RVOMath.absSq (Line.point line) in
  if Num.lt discriminant 0.0 then None
  else
    let sqrtDiscriminant := RVOMath.sqrt discriminant in
    '(tLeft, tRight) ←
      clipLine line (take lineNo lines) (- dotProduct - sqrtDiscriminant)
               (- dotProduct + sqrtDiscriminant);
    let along (t : float) :=
      Vector2.add (Line.point line) (Vector2.multiply (Line.direction line) t) in
    if directionOpt then
      if Num.gt (Vector2.dot optVelocity (Line.direction line)) 0.0
      then Some (along tRight) else Some (along tLeft)
    else
      let t := Vector2.dot (Line.direction line)
                           (Vector2.subtract optVelocity (Line.point line)) in
      if Num.lt t tLeft then Some (along tLeft)
      else if Num.gt t tRight then Some (along tRight)
      else Some (along t).

(** The value [linearProgram2] first gives [this.newVelocity]. *)
Definition seedVelocity (radius : float) (optVelocity : Vector2.t)
    (directionOpt : bool) : Vector2.t :=
  if directionOpt then Vector2.multiply optVelocity radius
  else if Num.gt (RVOMath.absSq optVelocity) (RVOMath.sqr radius)
  then Vector2.multiply (RVOMath.normalize optVelocity) radius
  else optVelocity.

(** The loop of [linearProgram2] from line [i] on ([rest] is [lines] from [i]). *)
Fixpoint linearProgram2_loop (lines : list Line.t) (radius : float)
    (optVelocity : Vector2.t) (directionOpt : bool) (rest : list Line.t)
    (i : nat) (newVelocity : Vector2.t) : nat * Vector2.t :=
  match rest with
  | [] => (length lines, newVelocity)
  | li :: rest' =>
      if Num.gt (RVOMath.det (Line.direction li)
                   (Vector2.subtract (Line.point li) newVelocity)) 0.0 then
        match linearProgram1 lines i radius optVelocity directionOpt with
        | None => (i, newVelocity)
        | Some result =>
            linearProgram2_loop lines radius optVelocity directionOpt rest' (S i) result
        end
      else linearProgram2_loop lines radius optVelocity directionOpt rest' (S i) newVelocity
  end.

(** [linearProgram2(lines, radius, optVelocity, directionOpt)]: the line it
    fails on and the [this.newVelocity] it leaves. *)
Definition linearProgram2 (lines : list Line.t) (radius : float)
    (optVelocity : Vector2.t) (directionOpt : bool) : nat * Vector2.t :=
  linearProgram2_loop lines radius optVelocity directionOpt lines 0
    (seedVelocity radius optVelocity directionOpt).

(** The projected line that [linearProgram3] builds from lines [i] and [j];
    [None] is the [continue]. *)
Definition projectLine (li lj : Line.t) : option Line.t :=
  let determinant := RVOMath.det (Line.direction li) (Line.direction lj) in
  let direction :=
    RVOMath.normalize (Vector2.subtract (Line.direction lj) (Line.direction li)) in
  if Num.le (Num.Math_abs determinant) RVOMath.RVO_EPSILON then
    if Num.gt (Vector2.dot (Line.direction li) (Line.direction lj)) 0.0 then None
    else Some (Line.mk direction
                 (Vector2.multiply (Vector2.add (Line.point li) (Line.point lj)) 0.5))
  else
    Some (Line.mk direction
            (Vector2.add (Line.point li)
               (Vector2.multiply (Line.direction li)
                  (RVOMath.det (Line.direction lj)
                     (Vector2.subtract (Line.point li) (Line.point lj))
                   / determinant)))).

(** [projLines] as [linearProgram3] fills it for line [i]: the first
    [numObstLines] lines, then the projections of the lines from
    [numObstLines] to [i - 1].  [computeNewVelocity], the only caller, passes
    the number of obstacle lines of [lines], so [numObstLines <= lines.length];
    for a larger [numObstLines] the source pushes [undefined] entries, on
    which the inner [linearProgram2] throws, and that case is outside this
    definition. *)
Definition projLines (lines : list Line.t) (numObstLines i : nat) : list Line.t :=
  take numObstLines lines
  ++ omap (fun j => projectLine (lineAt lines i) (lineAt lines j))
          (seq numObstLines (i - numObstLines)).

(** The loop of [linearProgram3] from line [i] on; the state is
    [this.newVelocity] and [distance].  After the inner [linearProgram2] the
    source assigns [this.newVelocity] from [tempResult] or from
    [result.value], and both were read from [this.newVelocity] before the
    call. *)
Fixpoint linearProgram3_loop (lines : list Line.t) (numObstLines : nat)
    (radius : float) (rest : list Line.t) (i : nat)
    (st : Vector2.t * float) : Vector2.t * float :=
  match rest with
  | [] => st
  | li :: rest' =>
      let '(newVelocity, distance) := st in
      if Num.gt (RVOMath.det (Line.direction li)
                   (Vector2.subtract (Line.point li) newVelocity)) distance then
        let pl := projLines lines numObstLines i in
        let tempResult := newVelocity in
        let result_value := newVelocity in
        let lp2 :=
          linearProgram2 pl radius
            (Vector2.mk (- Vector2.y (Line.direction li)) (Vector2.x (Line.direction li)))
            true in
        let newVelocity' :=
          if (lp2.1 <? length pl)%nat then tempResult else result_value in
        linearProgram3_loop lines numObstLines radius rest' (S i)
          (newVelocity',
           RVOMath.det (Line.direction li)
                       (Vector2.subtract (Line.point li) newVelocity'))
      else linearProgram3_loop lines numObstLines radius rest' (S i) st
  end.

Definition linearProgram3 (lines : list Line.t) (numObstLines beginLine : nat)
    (radius : float) (newVelocity : Vector2.t) : Vector2.t :=
  (linearProgram3_loop lines numObstLines radius (drop beginLine lines) beginLine
     (newVelocity, 0.0)).1.
End LinearPrograms.

(** ** Agent.js: the ORCA lines and the step *)

Section NewVelocity.
Local Open Scope float_scope.

(** The coverage test of the obstacle loop, for one earlier line: both end
    points of the edge, scaled to velocity space, lie at least
    [radius * invTimeHorizonObst] (up to epsilon) to the right of it. *)
Definition coveredBy (this : Agent.t) (invTimeHorizonObst : float)
    (relativePosition1 relativePosition2 : Vector2.t) (line : Line.t) : bool :=
  let det1 :=
    RVOMath.det (Vector2.subtract (Vector2.multiply relativePosition1 invTimeHorizonObst)
                                  (Line.point line)) (Line.direction line) in
  let det2 :=
    RVOMath.det (Vector2.subtract (Vector2.multiply relativePosition2 invTimeHorizonObst)
                                  (Line.point line)) (Line.direction line) in
  Num.ge (det1 - invTimeHorizonObst * Agent.radius this) (- RVOMath.RVO_EPSILON)
  && Num.ge (det2 - invTimeHorizonObst * Agent.radius this) (- RVOMath.RVO_EPSILON).

(** [alreadyCovered] after the loop over [this.orcaLines]. *)
Definition alreadyCovered (this : Agent.t) (invTimeHorizonObst : float)
    (relativePosition1 relativePosition2 : Vector2.t) (orcaLines : list Line.t) : bool :=
  existsb (coveredBy this invTimeHorizonObst relativePosition1 relativePosition2) orcaLines.

Definition relativePositions (obstacles : list Obstacle.t) (this : Agent.t)
    (obstacle : nat) : Vector2.t * Vector2.t :=
  let obstacle1 := getObstacle obstacles obstacle in
  let obstacle2 := deref obstacles (Obstacle.next obstacle1) in
  (Vector2.subtract (Obstacle.point obstacle1) (Agent.position this),
   Vector2.subtract (Obstacle.point obstacle2) (Agent.position this)).

Definition leftLeg (rp : Vector2.t) (leg radius distSq : float) : Vector2.t :=
  Vector2.divide
    (Vector2.mk (Vector2.x rp * leg - Vector2.y rp * radius)
                (Vector2.x rp * radius + Vector2.y rp * leg)) distSq.

Definition rightLeg (rp : Vector2.t) (leg radius distSq : float) : Vector2.t :=
  Vector2.divide
    (Vector2.mk (Vector2.x rp * leg + Vector2.y rp * radius)
                (- Vector2.x rp * radius + Vector2.y rp * leg)) distSq.

Definition perp (v : Vector2.t) : Vector2.t := Vector2.mk (- Vector2.y v) (Vector2.x v).

(** What one round of the obstacle loop does once the edge is known not to
    be covered: the line it pushes, or [None] when it reaches a [continue]
    without pushing. *)
Definition obstacleLine (obstacles : list Obstacle.t) (this : Agent.t)
    (obstacle : nat) : option Line.t :=
  let invTimeHorizonObst := 1.0 / Agent.timeHorizonObst this in
  let obstacle1 := getObstacle obstacles obstacle in
  let obstacle2 := deref obstacles (Obstacle.next obstacle1) in
  let same := bool_decide (Obstacle.next obstacle1 = Some obstacle) in
  let relativePosition1 := (relativePositions obstacles this obstacle).1 in
  let relativePosition2 := (relativePositions obstacles this obstacle).2 in
  let distSq1 := RVOMath.absSq relativePosition1 in
  let distSq2 := RVOMath.absSq relativePosition2 in
  let radiusSq := RVOMath.sqr (Agent.radius this) in
  let obstacleVector := Vector2.subtract (Obstacle.point obstacle2) (Obstacle.point obstacle1) in
  let s := (- Vector2.dot relativePosition1 obstacleVector) / RVOMath.absSq obstacleVector in
  let distSqLine :=
    RVOMath.absSq (Vector2.subtract (Vector2.negate relativePosition1)
                                    (Vector2.multiply obstacleVector s)) in
  if Num.lt s 0.0 && Num.le distSq1 radiusSq then
    if Obstacle.convex obstacle1
    then Some (Line.mk (RVOMath.normalize (perp relativePosition1)) (Vector2.mk 0.0 0.0))
    else None
  else if Num.gt s 1.0 && Num.le distSq2 radiusSq then
    if Obstacle.convex obstacle2
    then Some (Line.mk (RVOMath.normalize (perp relativePosition2)) (Vector2.mk 0.0 0.0))
    else None
  else if Num.ge s 0.0 && Num.le s 1.0 && Num.le distSqLine radiusSq then
    Some (Line.mk (Vector2.negate (Obstacle.direction obstacle1)) (Vector2.mk 0.0 0.0))
  else
    let legs : option (Vector2.t * Vector2.t) :=
      if Num.lt s 0.0 && Num.le distSqLine radiusSq then
        if negb (Obstacle.convex obstacle1) then None
        else
          let leg1 := RVOMath.sqrt (distSq1 - radiusSq) in
          Some (leftLeg relativePosition1 leg1 (Agent.radius this) distSq1,
                rightLeg relativePosition1 leg1 (Agent.radius this) distSq1)
      else if Num.gt s 1.0 && Num.le distSqLine radiusSq then
        if negb (Obstacle.convex obstacle2) then None
        else
          let leg2 := RVOMath.sqrt (distSq2 - radiusSq) in
          Some (leftLeg relativePosition2 leg2 (Agent.radius this) distSq2,
                rightLeg relativePosition2 leg2 (Agent.radius this) distSq2)
      else
        Some (if Obstacle.convex obstacle1
              then leftLeg relativePosition1 (RVOMath.sqrt (distSq1 - radiusSq))
                           (Agent.radius this) distSq1
              else Vector2.negate (Obstacle.direction obstacle1),
              if Obstacle.convex obstacle2
              then rightLeg relativePosition2 (RVOMath.sqrt (distSq2 - radiusSq))
                            (Agent.radius this) distSq2
              else Obstacle.direction obstacle1) in
    match legs with
    | None => None
    | Some (leftLegDirection0, rightLegDirection0) =>
        let leftNeighbor := deref obstacles (Obstacle.previous obstacle1) in
        let isLeftLegForeign :=
          Obstacle.convex obstacle1
          && Num.ge (RVOMath.det leftLegDirection0
                       (Vector2.negate (Obstacle.direction leftNeighbor))) 0.0 in
        let leftLegDirection :=
          if isLeftLegForeign then Vector2.negate (Obstacle.direction leftNeighbor)
          else leftLegDirection0 in
        let isRightLegForeign :=
          Obstacle.convex obstacle2
          && Num.le (RVOMath.det rightLegDirection0 (Obstacle.direction obstacle2)) 0.0 in
        let rightLegDirection :=
          if isRightLegForeign then Obstacle.direction obstacle2 else rightLegDirection0 in
        let leftCutOff := Vector2.multiply relativePosition1 invTimeHorizonObst in
        let rightCutOff := Vector2.multiply relativePosition2 invTimeHorizonObst in
        let cutOffVector := Vector2.subtract rightCutOff leftCutOff in
        let t :=
          if same then 0.5
          else Vector2.dot (Vector2.subtract (Agent.velocity this) leftCutOff) cutOffVector
               / RVOMath.absSq cutOffVector in
        let tLeft :=
          Vector2.dot (Vector2.subtract (Agent.velocity this) leftCutOff) leftLegDirection in
        let tRight :=
          Vector2.dot (Vector2.subtract (Agent.velocity this) rightCutOff) rightLegDirection in
        let offset (d : Vector2.t) :=
          Vector2.multiply (perp d) (Agent.radius this * invTimeHorizonObst) in
        if (Num.lt t 0.0 && Num.lt tLeft 0.0)
           || (same && Num.lt tLeft 0.0 && Num.lt tRight 0.0) then
          let unitW := RVOMath.normalize (Vector2.subtract (Agent.velocity this) leftCutOff) in
          Some (Line.mk (Vector2.mk (Vector2.y unitW) (- Vector2.x unitW))
                  (Vector2.add leftCutOff
                     (Vector2.multiply unitW (Agent.radius this * invTimeHorizonObst))))
        else if Num.gt t 1.0 && Num.lt tRight 0.0 then
          let unitW := RVOMath.normalize (Vector2.subtract (Agent.velocity this) rightCutOff) in
          Some (Line.mk (Vector2.mk (Vector2.y unitW) (- Vector2.x unitW))
                  (Vector2.add rightCutOff
                     (Vector2.multiply unitW (Agent.radius this * invTimeHorizonObst))))
        else
          let distSqCutoff :=
            if Num.lt t 0.0 || Num.gt t 1.0 || same then Num.POSITIVE_INFINITY
            else RVOMath.absSq
                   (Vector2.subtract (Agent.velocity this)
                      (Vector2.add leftCutOff (Vector2.multiply cutOffVector t))) in
          let distSqLeft :=
            if Num.lt tLeft 0.0 then Num.POSITIVE_INFINITY
            else RVOMath.absSq
                   (Vector2.subtract (Agent.velocity this)
                      (Vector2.add leftCutOff (Vector2.multiply leftLegDirection tLeft))) in
          let distSqRight :=
            if Num.lt tRight 0.0 then Num.POSITIVE_INFINITY
            else RVOMath.absSq
                   (Vector2.subtract (Agent.velocity this)
                      (Vector2.add rightCutOff (Vector2.multiply rightLegDirection tRight))) in
          if Num.le distSqCutoff distSqLeft && Num.le distSqCutoff distSqRight then
            let direction := Vector2.negate (Obstacle.direction obstacle1) in
            Some (Line.mk direction (Vector2.add leftCutOff (offset direction)))
          else if Num.le distSqLeft distSqRight then
            if isLeftLegForeign then None
            else Some (Line.mk leftLegDirection
                         (Vector2.add leftCutOff (offset leftLegDirection)))
          else if isRightLegForeign then None
          else
            let direction := Vector2.negate rightLegDirection in
            Some (Line.mk direction (Vector2.add rightCutOff (offset direction)))
    end.

(** One round of the obstacle loop, on [this.orcaLines]. *)
Definition obstacleOrcaStep (obstacles : list Obstacle.t) (this : Agent.t)
    (orcaLines : list Line.t) (neighbor : Agent.entry) : list Line.t :=
  let invTimeHorizonObst := 1.0 / Agent.timeHorizonObst this in
  let rp := relativePositions obstacles this neighbor.2 in
  if alreadyCovered this invTimeHorizonObst rp.1 rp.2 orcaLines then orcaLines
  else
    match obstacleLine obstacles this neighbor.2 with
    | Some line => orcaLines ++ [line]
    | None => orcaLines
    end.

(** The line one round of the agent loop pushes. *)
Definition agentLine (timeStep : float) (this other : Agent.t) : Line.t :=
  let invTimeHorizon := 1.0 / Agent.timeHorizon this in
  let relativePosition := Vector2.subtract (Agent.position other) (Agent.position this) in
  let relativeVelocity := Vector2.subtract (Agent.velocity this) (Agent.velocity other) in
  let distSq := RVOMath.absSq relativePosition in
  let combinedRadius := Agent.radius this + Agent.radius other in
  let combinedRadiusSq := RVOMath.sqr combinedRadius in
  let '(direction, u) :=
    if Num.gt distSq combinedRadiusSq then
      let w := Vector2.subtract relativeVelocity
                 (Vector2.multiply relativePosition invTimeHorizon) in
      let wLengthSq := RVOMath.absSq w in
      let dotProduct1 := Vector2.dot w relativePosition in
      if Num.lt dotProduct1 0.0
         && Num.gt (RVOMath.sqr dotProduct1) (combinedRadiusSq * wLengthSq) then
        let wLength := RVOMath.sqrt wLengthSq in
        let unitW := Vector2.divide w wLength in
        (Vector2.mk (Vector2.y unitW) (- Vector2.x unitW),
         Vector2.multiply unitW (combinedRadius * invTimeHorizon - wLength))
      else
        let leg := RVOMath.sqrt (distSq - combinedRadiusSq) in
        let direction :=
          if Num.gt (RVOMath.det relativePosition w) 0.0
          then leftLeg relativePosition leg combinedRadius distSq
          else Vector2.negate (rightLeg relativePosition leg combinedRadius distSq) in
        let dotProduct2 := Vector2.dot relativeVelocity direction in
        (direction,
         Vector2.subtract (Vector2.multiply direction dotProduct2) relativeVelocity)
    else
      let invTimeStep := 1.0 / timeStep in
      let w := Vector2.subtract relativeVelocity
                 (Vector2.multiply relativePosition invTimeStep) in
      let wLength := RVOMath.abs w in
      let unitW := Vector2.divide w wLength in
      (Vector2.mk (Vector2.y unitW) (- Vector2.x unitW),
       Vector2.multiply unitW (combinedRadius * invTimeStep - wLength)) in
  Line.mk direction (Vector2.add (Agent.velocity this) (Vector2.multiply u 0.5)).

(** [computeNewVelocity()]. *)
Definition orcaLinesOf (s : Simulator.t) (this : Agent.t) : list Line.t :=
  foldl (obstacleOrcaStep (Simulator.obstacles s) this) [] (Agent.obstacleNeighbors this)
  ++ map (fun e : Agent.entry => agentLine (getTimeStep s) this (getAgent s e.2))
         (Agent.agentNeighbors this).

Definition computeNewVelocity (s : Simulator.t) (this : Agent.t) : Agent.t :=
  let orcaLines := orcaLinesOf s this in
  let numObstLines := length orcaLines in
  let '(lineFail, newVelocity) :=
    linearProgram2 orcaLines (Agent.maxSpeed this) (Agent.prefVelocity this) false in
  let newVelocity' :=
    if (lineFail <? length orcaLines)%nat
    then linearProgram3 orcaLines numObstLines lineFail (Agent.maxSpeed this) newVelocity
    else newVelocity in
  Agent.set_newVelocity newVelocity' (Agent.set_orcaLines orcaLines this).

(** [update()]. *)
Definition update (timeStep : float) (this : Agent.t) : Agent.t :=
  let this1 := Agent.set_velocity (Agent.newVelocity this) this in
  Agent.set_position
    (Vector2.add (Agent.position this1)
                 (Vector2.multiply (Agent.velocity this1) timeStep)) this1.

(** The first loop of [doStep()], for the agents at the indices of [todo]:
    each computes its neighbours and its new velocity in place. *)
Fixpoint computeAll (s : Simulator.t) (todo : list nat) : option Simulator.t :=
  match todo with
  | [] => Some s
  | i :: todo' =>
      a ← Simulator.agents s !! i;
      a1 ← computeNeighbors s i a;
      computeAll (Simulator.set_agents
                    (<[i := computeNewVelocity s a1]> (Simulator.agents s)) s) todo'
  end.

(** [doStep()]: the simulator after the step and the value returned, or
    [None] when the step throws. *)
Definition doStep (s : Simulator.t) : option (Simulator.t * float) :=
  kd ← buildAgentTree s (Simulator.kdTree s);
  s1 ← computeAll (Simulator.set_kdTree kd s) (seq 0 (length (Simulator.agents s)));
  let agents' := map (update (getTimeStep s1)) (Simulator.agents s1) in
  let globalTime := Simulator.globalTime s1 + Simulator.timeStep s1 in
  Some (Simulator.mk agents' (Simulator.obstacles s1) (Simulator.kdTree s1)
                     (Simulator.timeStep s1) (Simulator.defaultAgent s1) globalTime,
        globalTime).
End NewVelocity.

(** ** Simulator.ts: the accessors *)

Section SimulatorAccessors.
Import Simulator.

(** A getter reads a field of [this.agents[agentNo]] or of
    [this.obstacles[vertexNo]]; for a number out of range the element is
    [undefined] and the read throws: [None]. *)
Definition getAgentMaxNeighbors (s : Simulator.t) (agentNo : nat) : option nat :=
  Agent.maxNeighbors <$> agents s !! agentNo.
Definition getAgentMaxSpeed (s : Simulator.t) (agentNo : nat) : option float :=
  Agent.maxSpeed <$> agents s !! agentNo.
Definition getAgentNeighborDist (s : Simulator.t) (agentNo : nat) : option float :=
  Agent.neighborDist <$> agents s !! agentNo.
Definition getAgentNumAgentNeighbors (s : Simulator.t) (agentNo : nat) : option nat :=
  (fun a => length (Agent.agentNeighbors a)) <$> agents s !! agentNo.
Definition getAgentNumObstacleNeighbors (s : Simulator.t) (agentNo : nat) : option nat :=
  (fun a => length (Agent.obstacleNeighbors a)) <$> agents s !! agentNo.
Definition getAgentOrcaLines (s : Simulator.t) (agentNo : nat) : option (list Line.t) :=
  Agent.orcaLines <$> agents s !! agentNo.
Definition getAgentPosition (s : Simulator.t) (agentNo : nat) : option Vector2.t :=
  Agent.position <$> agents s !! agentNo.
Definition getAgentPrefVelocity (s : Simulator.t) (agentNo : nat) : option Vector2.t :=
  Agent.prefVelocity <$> agents s !! agentNo.
Definition getAgentRadius (s : Simulator.t) (agentNo : nat) : option float :=
  Agent.radius <$> agents s !! agentNo.
Definition getAgentTimeHorizon (s : Simulator.t) (agentNo : nat) : option float :=
  Agent.timeHorizon <$> agents s !! agentNo.
Definition getAgentTimeHorizonObst (s : Simulator.t) (agentNo : nat) : option float :=
  Agent.timeHorizonObst <$> agents s !! agentNo.
Definition getAgentVelocity (s : Simulator.t) (agentNo : nat) : option Vector2.t :=
  Agent.velocity <$> agents s !! agentNo.

(** [agents[agentNo].agentNeighbors[neighborNo].value.id]: the entry holds a
    reference to the neighbour, whose [id] is read. *)
Definition getAgentAgentNeighbor (s : Simulator.t) (agentNo neighborNo : nat)
    : option nat :=
  a ← agents s !! agentNo;
  e ← Agent.agentNeighbors a !! neighborNo;
  Some (Agent.id (getAgent s e.2)).

Definition getAgentObstacleNeighbor (s : Simulator.t) (agentNo neighborNo : nat)
    : option nat :=
  a ← agents s !! agentNo;
  e ← Agent.obstacleNeighbors a !! neighborNo;
  Some (Obstacle.id (getObstacle (obstacles s) e.2)).

Definition getObstacleVertex (s : Simulator.t) (vertexNo : nat) : option Vector2.t :=
  Obstacle.point <$> obstacles s !! vertexNo.

(** [obstacles[vertexNo].next!.id] and [obstacles[vertexNo].previous!.id]:
    a [null] link throws as well. *)
Definition getNextObstacleVertexNo (s : Simulator.t) (vertexNo : nat) : option nat :=
  o ← obstacles s !! vertexNo;
  n ← Obstacle.next o;
  Some (Obstacle.id (getObstacle (obstacles s) n)).

Definition getPrevObstacleVertexNo (s : Simulator.t) (vertexNo : nat) : option nat :=
  o ← obstacles s !! vertexNo;
  p ← Obstacle.previous o;
  Some (Obstacle.id (getObstacle (obstacles s) p)).

Definition addObstacleVertex (obstacle : Obstacle.t) (s : Simulator.t) : Simulator.t :=
  set_obstacles (obstacles s ++ [obstacle]) s.

(** A setter assigns to a field of [this.agents[agentNo]]; for an agent
    number out of range the assignment throws: [None]. *)
Definition assignAgent (agentNo : nat) (f : Agent.t -> Agent.t) (s : Simulator.t)
    : option Simulator.t :=
  a ← agents s !! agentNo;
  Some (set_agents (<[agentNo := f a]> (agents s)) s).

Definition setAgentMaxNeighbors (agentNo maxNeighbors : nat) :=
  assignAgent agentNo (fun a =>
    Agent.mk (Agent.agentNeighbors a) (Agent.obstacleNeighbors a) (Agent.orcaLines a)
      (Agent.position a) (Agent.prefVelocity a) (Agent.velocity a) (Agent.id a)
      maxNeighbors (Agent.maxSpeed a) (Agent.neighborDist a) (Agent.radius a)
      (Agent.timeHorizon a) (Agent.timeHorizonObst a) (Agent.newVelocity a)).
Definition setAgentMaxSpeed (agentNo : nat) (maxSpeed : float) :=
  assignAgent agentNo (fun a =>
    Agent.mk (Agent.agentNeighbors a) (Agent.obstacleNeighbors a) (Agent.orcaLines a)
      (Agent.position a) (Agent.prefVelocity a) (Agent.velocity a) (Agent.id a)
      (Agent.maxNeighbors a) maxSpeed (Agent.neighborDist a) (Agent.radius a)
      (Agent.timeHorizon a) (Agent.timeHorizonObst a) (Agent.newVelocity a)).
Definition setAgentNeighborDist (agentNo : nat) (neighborDist : float) :=
  assignAgent agentNo (fun a =>
    Agent.mk (Agent.agentNeighbors a) (Agent.obstacleNeighbors a) (Agent.orcaLines a)
      (Agent.position a) (Agent.prefVelocity a) (Agent.velocity a) (Agent.id a)
      (Agent.maxNeighbors a) (Agent.maxSpeed a) neighborDist (Agent.radius a)
      (Agent.timeHorizon a) (Agent.timeHorizonObst a) (Agent.newVelocity a)).
Definition setAgentRadius (agentNo : nat) (radius : float) :=
  assignAgent agentNo (fun a =>
    Agent.mk (Agent.agentNeighbors a) (Agent.obstacleNeighbors a) (Agent.orcaLines a)
      (Agent.position a) (Agent.prefVelocity a) (Agent.velocity a) (Agent.id a)
      (Agent.maxNeighbors a) (Agent.maxSpeed a) (Agent.neighborDist a) radius
      (Agent.timeHorizon a) (Agent.timeHorizonObst a) (Agent.newVelocity a)).
Definition setAgentTimeHorizon (agentNo : nat) (timeHorizon : float) :=
  assignAgent agentNo (fun a =>
    Agent.mk (Agent.agentNeighbors a) (Agent.obstacleNeighbors a) (Agent.orcaLines a)
      (Agent.position a) (Agent.prefVelocity a) (Agent.velocity a) (Agent.id a)
      (Agent.maxNeighbors a) (Agent.maxSpeed a) (Agent.neighborDist a) (Agent.radius a)
      timeHorizon (Agent.timeHorizonObst a) (Agent.newVelocity a)).
Definition setAgentTimeHorizonObst (agentNo : nat) (timeHorizonObst : float) :=
  assignAgent agentNo (fun a =>
    Agent.mk (Agent.agentNeighbors a) (Agent.obstacleNeighbors a) (Agent.orcaLines a)
      (Agent.position a) (Agent.prefVelocity a) (Agent.velocity a) (Agent.id a)
      (Agent.maxNeighbors a) (Agent.maxSpeed a) (Agent.neighborDist a) (Agent.radius a)
      (Agent.timeHorizon a) timeHorizonObst (Agent.newVelocity a)).
End SimulatorAccessors.

(** ** KdTree.js: the visibility query *)

Section Visibility.
Local Open Scope float_scope.

(** [queryVisibilityRecursive(q1, q2, radius, node)].  The source combines
    the recursive calls with [&&] and [||]; the calls have no effect, so
    evaluating all of them gives the same value. *)
Fixpoint queryVisibilityRecursive (obstacles : list Obstacle.t) (q1 q2 : Vector2.t)
    (radius : float) (node : ObstacleTreeNode) : bool :=
  match node with
  | ONull => true
  | ONode obstacle l r =>
      let obstacle1 := getObstacle obstacles obstacle in
      let obstacle2 := deref obstacles (Obstacle.next obstacle1) in
      let q1LeftOfI :=
        RVOMath.leftOf (Obstacle.point obstacle1) (Obstacle.point obstacle2) q1 in
      let q2LeftOfI :=
        RVOMath.leftOf (Obstacle.point obstacle1) (Obstacle.point obstacle2) q2 in
      let invLengthI :=
        1.0 / RVOMath.absSq (Vector2.subtract (Obstacle.point obstacle2)
                                              (Obstacle.point obstacle1)) in
      if Num.ge q1LeftOfI 0.0 && Num.ge q2LeftOfI 0.0 then
        queryVisibilityRecursive obstacles q1 q2 radius l
        && ((Num.ge (RVOMath.sqr q1LeftOfI * invLengthI) (RVOMath.sqr radius)
             && Num.ge (RVOMath.sqr q2LeftOfI * invLengthI) (RVOMath.sqr radius))
            || queryVisibilityRecursive obstacles q1 q2 radius r)
      else if Num.le q1LeftOfI 0.0 && Num.le q2LeftOfI 0.0 then
        queryVisibilityRecursive obstacles q1 q2 radius r
        && ((Num.ge (RVOMath.sqr q1LeftOfI * invLengthI) (RVOMath.sqr radius)
             && Num.ge (RVOMath.sqr q2LeftOfI * invLengthI) (RVOMath.sqr radius))
            || queryVisibilityRecursive obstacles q1 q2 radius l)
      else if Num.ge q1LeftOfI 0.0 && Num.le q2LeftOfI 0.0 then
        queryVisibilityRecursive obstacles q1 q2 radius l
        && queryVisibilityRecursive obstacles q1 q2 radius r
      else
        let point1LeftOfQ := RVOMath.leftOf q1 q2 (Obstacle.point obstacle1) in
        let point2LeftOfQ := RVOMath.leftOf q1 q2 (Obstacle.point obstacle2) in
        let invLengthQ := 1.0 / RVOMath.absSq (Vector2.subtract q2 q1) in
        Num.ge (point1LeftOfQ * point2LeftOfQ) 0.0
        && Num.gt (RVOMath.sqr point1LeftOfQ * invLengthQ) (RVOMath.sqr radius)
        && Num.gt (RVOMath.sqr point2LeftOfQ * invLengthQ) (RVOMath.sqr radius)
        && queryVisibilityRecursive obstacles q1 q2 radius l
        && queryVisibilityRecursive obstacles q1 q2 radius r
  end.

(** [KdTree.queryVisibility], which [Simulator.queryVisibility] calls. *)
Definition queryVisibility (s : Simulator.t) (point1 point2 : Vector2.t)
    (radius : float) : bool :=
  queryVisibilityRecursive (Simulator.obstacles s) point1 point2 radius
    (KdTree.obstacleTree (Simulator.kdTree s)).
End Visibility.

(** * Properties *)

(** ** The two normalisations *)

(** The four zero vectors of IEEE arithmetic. *)
Definition zeroVectors : list Vector2.t :=
  [Vector2.mk 0 0; Vector2.mk 0 (-0); Vector2.mk (-0) 0; Vector2.mk (-0) (-0)]%float.

(** C10. On the zero vector the method [Vector2.normalize] (and the static
    wrapper that calls it) finds the length not above zero, does not divide,
    and returns the vector (0,0); [RVOMath.normalize] divides both components
    by the zero length, and both components of the result are NaN. *)
Theorem normalize_zero_vector :
  Forall (fun v =>
            Num.gt (Vector2.length v) 0 = false
            /\ Vector2.normalize v = Vector2.mk 0 0
            /\ Vector2.static_normalize v = Vector2.mk 0 0
            /\ RVOMath.abs v = 0%float
            /\ RVOMath.normalize v = Vector2.mk nan nan
            /\ PrimFloat.is_nan (Vector2.x (RVOMath.normalize v)) = true
            /\ PrimFloat.is_nan (Vector2.y (RVOMath.normalize v)) = true)
         zeroVectors.
Proof.
  unfold zeroVectors.
  repeat constructor; vm_compute; reflexivity.
Qed.

(** ** The simulator's bookkeeping *)

Section Bookkeeping.
Import Simulator.

(** C9. [clear()] leaves the state the constructor leaves: no agent, no
    obstacle, no default agent, a new k-D tree, global time 0.0 and time step
    0.1, whatever [setTimeStep] had stored before. *)
Theorem clear_resets (s : Simulator.t) (timeStep : float) :
  clear s = fresh
  /\ agents (clear s) = []
  /\ obstacles (clear s) = []
  /\ defaultAgent (clear s) = None
  /\ kdTree (clear s) = KdTree.new
  /\ globalTime (clear s) = 0.0%float
  /\ getTimeStep (clear s) = 0.1%float
  /\ getTimeStep (setTimeStep timeStep s) = timeStep
  /\ getTimeStep (clear (setTimeStep timeStep s)) = 0.1%float.
Proof. repeat split. Qed.

(** C3. Without agent defaults [addAgent] returns -1, and with fewer than
    two vertices [addObstacle] returns -1; in both cases the simulator that
    comes back is the one that went in, field for field. *)
Theorem add_failures_leave_state (s : Simulator.t) (position : Vector2.t)
    (vertices : list Vector2.t) :
  (defaultAgent s = None -> addAgent position s = ((-1)%Z, s))
  /\ (length vertices < 2 -> addObstacle vertices s = ((-1)%Z, s)).
Proof.
  split.
  - intros Hnone. unfold addAgent. rewrite Hnone. reflexivity.
  - intros Hshort. unfold addObstacle.
    destruct (Nat.ltb_spec (length vertices) 2) as [_ | Hge]; [reflexivity | lia].
Qed.

Lemma add_failures_leave_state_witness :
  addAgent (Vector2.mk 1 2) (setTimeStep 0.25 fresh) = ((-1)%Z, setTimeStep 0.25 fresh)
  /\ addObstacle [Vector2.mk 3 4] (setTimeStep 0.25 fresh)
     = ((-1)%Z, setTimeStep 0.25 fresh).
Proof.
  split.
  - apply (proj1 (add_failures_leave_state (setTimeStep 0.25 fresh) (Vector2.mk 1 2)
                    [Vector2.mk 3 4])).
    reflexivity.
  - apply (proj2 (add_failures_leave_state (setTimeStep 0.25 fresh) (Vector2.mk 1 2)
                    [Vector2.mk 3 4])).
    simpl. lia.
Defined.

(** The agent at index [k] carries the id [k]. *)
Definition ids_ok (s : Simulator.t) : Prop :=
  forall k a, agents s !! k = Some a -> Agent.id a = k.

(** A call that adds an agent, or sets the template [addAgent] copies. *)
Inductive addCall : Set :=
| CallAddAgent (position : Vector2.t)
| CallAddAgentWithParams (position : Vector2.t) (neighborDist : float)
    (maxNeighbors : nat) (timeHorizon timeHorizonObst radius maxSpeed : float)
    (velocity : Vector2.t)
| CallSetAgentDefaults (neighborDist : float) (maxNeighbors : nat)
    (timeHorizon timeHorizonObst radius maxSpeed : float) (velocity : Vector2.t).

Definition runCall (s : Simulator.t) (c : addCall) : Simulator.t :=
  match c with
  | CallAddAgent position => (addAgent position s).2
  | CallAddAgentWithParams position neighborDist maxNeighbors timeHorizon
      timeHorizonObst radius maxSpeed velocity =>
      (addAgentWithParams position neighborDist maxNeighbors timeHorizon
         timeHorizonObst radius maxSpeed velocity s).2
  | CallSetAgentDefaults neighborDist maxNeighbors timeHorizon timeHorizonObst
      radius maxSpeed velocity =>
      setAgentDefaults neighborDist maxNeighbors timeHorizon timeHorizonObst
        radius maxSpeed velocity s
  end.

Definition runCalls (calls : list addCall) (s : Simulator.t) : Simulator.t :=
  foldl runCall s calls.

Lemma ids_ok_snoc (s : Simulator.t) (a : Agent.t) :
  ids_ok s -> Agent.id a = length (agents s) ->
  ids_ok (set_agents (agents s ++ [a]) s).
Proof.
  intros Hok Hid k b. simpl. intros Hk.
  apply lookup_app_Some in Hk as [Hk | [Hlen Hk]].
  - by apply Hok.
  - apply list_lookup_singleton_Some in Hk as [Hk ->]. lia.
Qed.

Lemma runCall_agents (s : Simulator.t) (c : addCall) :
  agents (runCall s c) = agents s
  \/ exists a, agents (runCall s c) = agents s ++ [a]
               /\ Agent.id a = length (agents s).
Proof.
  destruct c; simpl.
  - unfold addAgent. destruct (defaultAgent s); simpl; [right | left; done].
    eexists. split; [reflexivity | reflexivity].
  - right. eexists. split; reflexivity.
  - left. reflexivity.
Qed.

Lemma runCall_ids_ok (s : Simulator.t) (c : addCall) :
  ids_ok s -> ids_ok (runCall s c) /\ agents s `prefix_of` agents (runCall s c).
Proof.
  intros Hok. destruct (runCall_agents s c) as [Heq | (a & Heq & Hid)].
  - split; [| rewrite Heq; done]. intros k b. rewrite Heq. apply Hok.
  - split; [| rewrite Heq; by apply prefix_app_r].
    intros k b. rewrite Heq. apply (ids_ok_snoc s a Hok Hid).
Qed.

(** C6. [addAgent] (when it adds) and [addAgentWithParams] give the new
    agent the current length of the list as its id and append it; hence, from
    a list in which every index [k] holds the agent with id [k], every
    sequence of add calls leads to such a list again, with the old list as a
    prefix: no agent moves and no id changes. *)
Theorem id_stability (s : Simulator.t) (calls : list addCall) :
  ids_ok s ->
  (forall position d, defaultAgent s = Some d ->
     exists a, addAgent position s
               = (Z.of_nat (length (agents s)), set_agents (agents s ++ [a]) s)
               /\ Agent.id a = length (agents s))
  /\ (forall position neighborDist maxNeighbors timeHorizon timeHorizonObst
             radius maxSpeed velocity,
     exists a, addAgentWithParams position neighborDist maxNeighbors timeHorizon
                 timeHorizonObst radius maxSpeed velocity s
               = (Z.of_nat (length (agents s)), set_agents (agents s ++ [a]) s)
               /\ Agent.id a = length (agents s))
  /\ ids_ok (runCalls calls s)
  /\ agents s `prefix_of` agents (runCalls calls s).
Proof.
  intros Hok. split; [| split].
  - intros position d Hd. unfold addAgent. rewrite Hd.
    eexists. split; reflexivity.
  - intros. eexists. split; reflexivity.
  - revert s Hok. unfold runCalls.
    induction calls as [| c calls IH]; intros s Hok; simpl.
    + split; done.
    + destruct (runCall_ids_ok s c Hok) as [Hok' Hpre].
      destruct (IH _ Hok') as [Hfin Hpre'].
      split; [exact Hfin | by etrans].
Qed.

Lemma ids_ok_fresh : ids_ok fresh.
Proof. intros k a Hk. discriminate Hk. Qed.

Lemma id_stability_witness :
  ids_ok (runCalls [CallSetAgentDefaults 15 10 10 10 2 2 (Vector2.mk 0 0);
                    CallAddAgent (Vector2.mk 0 0);
                    CallAddAgentWithParams (Vector2.mk 10 0) 15 10 10 10 2 2
                      (Vector2.mk 0 0);
                    CallAddAgent (Vector2.mk 5 5)] fresh).
Proof.
  exact (proj1 (proj2 (proj2 (id_stability fresh _ ids_ok_fresh)))).
Defined.
End Bookkeeping.

(** ** Order facts about JavaScript numbers *)

Section NumberOrder.

Lemma SFcompare_antisym (x y : spec_float) (c : comparison) :
  SFcompare x y = Some c -> SFcompare y x = Some (CompOpp c).
Proof.
  destruct x as [sx | sx | | sx mx ex], y as [sy | sy | | sy my ey];
    simpl; intros H; inversion H; subst; clear H;
    try reflexivity; try (destruct sx; reflexivity);
    try (destruct sy; reflexivity); try (destruct sx, sy; reflexivity).
  change (PosDef.Pos.compare_cont Eq mx my) with (Pos.compare mx my).
  change (PosDef.Pos.compare_cont Eq my mx) with (Pos.compare my mx).
  rewrite (Z.compare_antisym ex ey), (Pos.compare_antisym mx my).
  destruct sx, sy; simpl; try reflexivity;
    destruct (ex ?= ey)%Z; simpl; try reflexivity;
    destruct (mx ?= my)%positive; reflexivity.
Qed.

Lemma SFcompare_defined (x y z w : spec_float) (c d : comparison) :
  SFcompare x z = Some c -> SFcompare y w = Some d ->
  exists e, SFcompare x y = Some e.
Proof.
  destruct x as [sx | sx | | sx mx ex], y as [sy | sy | | sy my ey];
    simpl; intros Hx Hy; try (eexists; reflexivity);
    try discriminate Hx; try discriminate Hy.
Qed.

(** A number that is below some number is not NaN. *)
Definition ordered (a : float) : Prop := exists r, Num.lt a r = true.

Lemma lt_asym (a b : float) : Num.lt a b = true -> Num.lt b a = false.
Proof.
  unfold Num.lt. rewrite !ltb_spec. unfold SFltb.
  destruct (SFcompare (Prim2SF a) (Prim2SF b)) as [c |] eqn:E; [| discriminate].
  rewrite (SFcompare_antisym _ _ _ E). destruct c; simpl; congruence.
Qed.

Lemma lt_le (a b : float) : Num.lt a b = true -> Num.le a b = true.
Proof.
  unfold Num.lt, Num.le. rewrite ltb_spec, leb_spec. unfold SFltb, SFleb.
  destruct (SFcompare (Prim2SF a) (Prim2SF b)) as [[] |]; congruence.
Qed.

Lemma not_lt_le (a b : float) :
  ordered a -> ordered b -> Num.lt a b = false -> Num.le b a = true.
Proof.
  unfold ordered, Num.lt, Num.le. intros [ra Ha] [rb Hb].
  rewrite ltb_spec in Ha, Hb. rewrite ltb_spec, leb_spec. unfold SFltb, SFleb in *.
  destruct (SFcompare (Prim2SF a) (Prim2SF ra)) as [ca |] eqn:Ea; [| discriminate].
  destruct (SFcompare (Prim2SF b) (Prim2SF rb)) as [cb |] eqn:Eb; [| discriminate].
  destruct (SFcompare_defined _ _ _ _ _ _ Ea Eb) as [e He].
  rewrite He, (SFcompare_antisym _ _ _ He). destruct e; simpl; congruence.
Qed.
End NumberOrder.

(** ** The insertion loop *)

Section InsertionLoop.
Implicit Types (l : list Agent.entry) (x e : Agent.entry) (d : float).

Lemma shiftNeighbors_S d l i :
  shiftNeighbors d l (S i)
  = match l !! i with
    | Some e => if Num.lt d e.1 then shiftNeighbors d (<[S i := e]> l) i
                else Some (l, S i)
    | None => None
    end.
Proof. simpl. destruct (l !! i); reflexivity. Qed.

(** Started at index [i] of [l], the loop followed by [l[j] = x] gives the
    elements before the stop [j], then [x], then the elements from [j] to
    [i - 1] moved up by one place (each has a key above [d]), then what came
    after index [i]; the element just before [x], if any, does not have a key
    above [d]. *)
Lemma shiftNeighbors_spec d x : forall i l,
  i < length l ->
  exists l' j,
    shiftNeighbors d l i = Some (l', j)
    /\ j <= i
    /\ <[j := x]> l' = take j l ++ x :: take (i - j) (drop j l) ++ drop (S i) l
    /\ Forall (fun e => Num.lt d e.1 = true) (take (i - j) (drop j l))
    /\ (forall e, list.last (take j l) = Some e -> Num.lt d e.1 = false).
Proof.
  induction i as [| i IH]; intros l Hi.
  - exists l, 0. simpl. repeat split; [lia | | constructor | discriminate].
    rewrite insert_take_drop by done. reflexivity.
  - destruct (lookup_lt_is_Some_2 l i) as [e He]; [lia |].
    rewrite shiftNeighbors_S, He.
    destruct (Num.lt d e.1) eqn:Hlt.
    + destruct (IH (<[S i := e]> l)) as (l' & j & Hs & Hj & Hl & Hall & Hlast).
      { rewrite length_insert. lia. }
      exists l', j. split; [exact Hs |]. split; [lia |].
      rewrite take_insert_ge in Hl, Hlast by lia.
      rewrite drop_insert_ge, take_insert_ge in Hl, Hall by lia.
      assert (Hd : drop (S i) (<[S i := e]> l) = e :: drop (S (S i)) l).
      { rewrite (drop_S _ e); [| apply list_lookup_insert_eq; lia].
        rewrite drop_insert_lt by lia. reflexivity. }
      rewrite Hd in Hl.
      assert (Ht : take (S i - j) (drop j l) = take (i - j) (drop j l) ++ [e]).
      { replace (S i - j) with (S (i - j)) by lia.
        apply take_S_r. rewrite lookup_drop. replace (j + (i - j)) with i by lia.
        exact He. }
      split; [| split]; [| | exact Hlast].
      * rewrite Hl, Ht, <- !app_assoc. reflexivity.
      * rewrite Ht. apply Forall_app. split; [exact Hall |].
        constructor; [exact Hlt | constructor].
    + exists l, (S i). split; [reflexivity |]. split; [lia |].
      replace (S i - S i) with 0 by lia. simpl.
      split; [| split]; [| constructor |].
      * apply insert_take_drop. lia.
      * intros e'. rewrite (take_S_r _ _ e He), last_snoc. congruence.
Qed.
End InsertionLoop.

(** ** The agent-neighbour list *)

Section AgentNeighborList.
Implicit Types (l : list Agent.entry) (x e : Agent.entry) (d : float).

(** Keys never go down from one entry to the next. *)
Fixpoint ascending (l : list Agent.entry) : Prop :=
  match l with
  | a :: ((b :: _) as l') => Num.le a.1 b.1 = true /\ ascending l'
  | _ => True
  end.

(** Keys go up from each entry to the next. *)
Fixpoint strictly_ascending (l : list Agent.entry) : Prop :=
  match l with
  | a :: ((b :: _) as l') => Num.lt a.1 b.1 = true /\ strictly_ascending l'
  | _ => True
  end.

Lemma ascending_lookup l :
  ascending l <->
  forall i a b, l !! i = Some a -> l !! S i = Some b -> Num.le a.1 b.1 = true.
Proof.
  induction l as [| a [| b l] IH].
  - split; [intros _ i a b H; discriminate H | done].
  - split; [intros _ [| i] a' b H1 H2; discriminate H2 | done].
  - split.
    + intros [Hab Hl] [| i] a' b' H1 H2.
      * simpl in H1, H2. by simplify_eq.
      * apply (proj1 IH Hl i a' b'); assumption.
    + intros H. split.
      * apply (H 0 a b); reflexivity.
      * apply IH. intros i a' b' H1 H2. apply (H (S i) a' b'); assumption.
Qed.

Lemma ascending_tail a l : ascending (a :: l) -> ascending l.
Proof. destruct l; simpl; tauto. Qed.

Lemma ascending_take n : forall l, ascending l -> ascending (take n l).
Proof.
  induction n as [| n IH]; intros [| a [| b l]] H; simpl; try done.
  - destruct n; done.
  - destruct H as [Hab Hl]. specialize (IH _ Hl).
    destruct n; simpl in *; [done | split; assumption].
Qed.

(** Putting [x] at place [j] of an ascending list keeps it ascending when
    the entry before has a key not above, and the entry after a key not
    below. *)
Lemma ascending_insert x : forall (b : list Agent.entry) j,
  ascending b ->
  (forall e, list.last (take j b) = Some e -> Num.le e.1 x.1 = true) ->
  (forall e, head (drop j b) = Some e -> Num.le x.1 e.1 = true) ->
  ascending (take j b ++ x :: drop j b).
Proof.
  induction b as [| a b IH]; intros j Hasc Hbefore Hafter.
  - destruct j; simpl; done.
  - destruct j as [| j].
    + simpl. split; [apply Hafter; reflexivity | exact Hasc].
    + simpl take. simpl drop.
      assert (Hrest : ascending (take j b ++ x :: drop j b)).
      { apply IH.
        - by eapply ascending_tail.
        - intros e He. apply Hbefore. simpl take.
          destruct (take j b) eqn:Et; [discriminate He | exact He].
        - exact Hafter. }
      destruct (take j b) as [| c t] eqn:Et.
      * simpl. split; [| exact Hrest]. apply Hbefore. simpl take. rewrite Et. reflexivity.
      * simpl. split; [| exact Hrest].
        destruct b as [| c' b']; [destruct j; discriminate Et |].
        destruct j; [discriminate Et |]. simpl in Et. injection Et as -> _.
        exact (proj1 Hasc).
Qed.

(** The loop of the two insert methods, run on an array [l1] from its last
    index: [x] ends up somewhere in the array without its last element. *)
Lemma insert_from_end d x l1 :
  l1 <> [] ->
  let b := take (length l1 - 1) l1 in
  exists l' j,
    shiftNeighbors d l1 (length l1 - 1) = Some (l', j)
    /\ j <= length b
    /\ <[j := x]> l' = take j b ++ x :: drop j b
    /\ Forall (fun e => Num.lt d e.1 = true) (drop j b)
    /\ (forall e, list.last (take j b) = Some e -> Num.lt d e.1 = false).
Proof.
  intros Hne b.
  assert (Hlen : length l1 - 1 < length l1) by (destruct l1; [done | simpl; lia]).
  destruct (shiftNeighbors_spec d x _ _ Hlen) as (l' & j & Hs & Hj & Hl & Hall & Hlast).
  assert (Hb : length b = length l1 - 1) by (unfold b; rewrite length_take; lia).
  assert (Htake : take j b = take j l1).
  { unfold b. rewrite take_take. f_equal. lia. }
  assert (Hdrop : drop j b = take (length l1 - 1 - j) (drop j l1)).
  { unfold b. rewrite take_drop_commute. do 2 f_equal. lia. }
  exists l', j. rewrite Htake, Hdrop. repeat split; try assumption; [lia |].
  rewrite Hl. rewrite (drop_ge l1 (S (length l1 - 1))) by lia.
  rewrite app_nil_r. reflexivity.
Qed.
End AgentNeighborList.

Section AgentNeighborInvariant.
Local Open Scope float_scope.

(** The simulator the query reads, the index of the querying agent and its
    position. *)
Variables (s : Simulator.t) (self : nat) (pos : Vector2.t).

(** An entry [(key, other)] of the list of agent [self]: [other] is another
    agent, and [key] is the squared distance between the two positions, a
    number that took part in a successful [<] test. *)
Definition entry_ok (e : Agent.entry) : Prop :=
  e.2 <> self
  /\ e.1 = RVOMath.absSq (Vector2.subtract pos (Agent.position (getAgent s e.2)))
  /\ ordered e.1.

Definition neighbors_ok (maxNeighbors : nat) (l : list Agent.entry) : Prop :=
  length l <= maxNeighbors /\ Forall entry_ok l /\ ascending l.

Lemma neighbors_ok_nil (maxNeighbors : nat) : neighbors_ok maxNeighbors [].
Proof. repeat split; [simpl; lia | constructor]. Qed.

Lemma neighbors_ok_insert (maxNeighbors : nat) (b : list Agent.entry)
    (x : Agent.entry) (j : nat) :
  S (length b) <= maxNeighbors ->
  Forall entry_ok b -> ascending b -> entry_ok x ->
  Forall (fun e => Num.lt x.1 e.1 = true) (drop j b) ->
  (forall e, list.last (take j b) = Some e -> Num.lt x.1 e.1 = false) ->
  neighbors_ok maxNeighbors (take j b ++ x :: drop j b).
Proof.
  intros Hlen Hall Hasc Hx Hafter Hbefore. split; [| split].
  - rewrite length_app. simpl. rewrite length_take, length_drop. lia.
  - apply Forall_app. split; [by apply Forall_take |].
    constructor; [exact Hx | by apply Forall_drop].
  - apply ascending_insert; [exact Hasc | |].
    + intros e He. apply not_lt_le; [apply Hx | | by apply Hbefore].
      assert (Hin : e ∈ take j b) by (apply last_Some_elem_of; exact He).
      apply (subseteq_take j b) in Hin.
      by apply (proj1 (Forall_forall _ _) Hall e Hin).
    + intros e He. apply lt_le.
      destruct (drop j b) as [| e' t]; [discriminate He |].
      simpl in He. injection He as ->. by inversion Hafter.
Qed.

(** [insertAgentNeighbor] changes nothing of the agent but the list, and the
    list stays within bounds, well-keyed and ascending. *)
Lemma insertAgentNeighbor_ok (this this' : Agent.t) (agent : nat)
    (rangeSq rangeSq' : float) :
  Agent.position this = pos ->
  neighbors_ok (Agent.maxNeighbors this) (Agent.agentNeighbors this) ->
  insertAgentNeighbor s self this agent rangeSq = Some (this', rangeSq') ->
  exists l, this' = Agent.set_agentNeighbors l this
            /\ neighbors_ok (Agent.maxNeighbors this) l.
Proof.
  intros Hpos Hok. unfold insertAgentNeighbor.
  assert (Hsame : this = Agent.set_agentNeighbors (Agent.agentNeighbors this) this)
    by (destruct this; reflexivity).
  destruct (decide (self = agent)) as [Heq | Hne].
  { intros [= <- <-]. eauto. }
  set (distSq := RVOMath.absSq _).
  destruct (Num.lt distSq rangeSq) eqn:Hlt; [| intros [= <- <-]; eauto].
  set (x := (distSq, agent)).
  assert (Hx : entry_ok x).
  { repeat split; [simpl; congruence | | exists rangeSq; exact Hlt].
    simpl. unfold distSq. rewrite Hpos. reflexivity. }
  set (l1 := if (_ <? _)%nat then _ else _).
  destruct (length l1) as [| i0] eqn:Hl1; [discriminate |].
  assert (Hne1 : l1 <> []) by (intros E; rewrite E in Hl1; discriminate).
  destruct (insert_from_end distSq x l1 Hne1) as (l' & j & Hs & Hj & Hl & Hafter & Hbefore).
  replace (length l1 - 1)%nat with i0 in * by lia.
  rewrite Hs. simpl. intros [= <- <-].
  exists (<[j := x]> l'). split; [reflexivity |].
  rewrite Hl. destruct Hok as (Hlen & Hall & Hasc).
  assert (Hb : S (length (take i0 l1)) <= Agent.maxNeighbors this
               /\ exists n, take i0 l1 = take n (Agent.agentNeighbors this)).
  { subst l1. destruct (Nat.ltb_spec (length (Agent.agentNeighbors this))
                                      (Agent.maxNeighbors this)) as [Hlt' | Hge].
    - rewrite length_app in Hl1. simpl in Hl1.
      assert (i0 = length (Agent.agentNeighbors this)) as -> by lia.
      rewrite take_app_length. split; [lia |].
      exists (length (Agent.agentNeighbors this)). by rewrite take_ge.
    - rewrite length_take. split; [lia | eauto]. }
  destruct Hb as [Hb [n Hn]].
  apply neighbors_ok_insert; try assumption.
  - rewrite Hn. by apply Forall_take.
  - rewrite Hn. by apply ascending_take.
Qed.

Lemma insertLeaf_ok (kd : KdTree.t) : forall (range : list nat) (st st' : Agent.t * float),
  Agent.position st.1 = pos ->
  neighbors_ok (Agent.maxNeighbors st.1) (Agent.agentNeighbors st.1) ->
  insertLeaf s kd self range st = Some st' ->
  exists l, st'.1 = Agent.set_agentNeighbors l st.1
            /\ neighbors_ok (Agent.maxNeighbors st.1) l.
Proof.
  induction range as [| i range IH]; intros st st' Hpos Hok; simpl.
  - intros [= <-]. exists (Agent.agentNeighbors st.1).
    split; [by destruct st as [[] ?] | exact Hok].
  - destruct (KdTree.agents kd !! i) as [other |]; [| discriminate]. simpl.
    destruct (insertAgentNeighbor s self st.1 other st.2) as [[this1 r1] |] eqn:Hins;
      [| discriminate]. simpl.
    destruct (insertAgentNeighbor_ok _ _ _ _ _ Hpos Hok Hins) as (l1 & -> & Hok1).
    intros Hrest.
    destruct (IH (Agent.set_agentNeighbors l1 st.1, r1) st') as (l & E & Hl);
      [exact Hpos | exact Hok1 | exact Hrest |].
    exists l. rewrite E. split; [reflexivity | exact Hl].
Qed.

(** A step of the query keeps the agent, but for a list that stays good. *)
Definition keeps_neighbors_ok (f : Agent.t * float -> option (Agent.t * float)) : Prop :=
  forall st st' : Agent.t * float,
    Agent.position st.1 = pos ->
    neighbors_ok (Agent.maxNeighbors st.1) (Agent.agentNeighbors st.1) ->
    f st = Some st' ->
    exists l, st'.1 = Agent.set_agentNeighbors l st.1
              /\ neighbors_ok (Agent.maxNeighbors st.1) l.

Lemma keeps_neighbors_ok_ret : keeps_neighbors_ok Some.
Proof.
  intros [[] ?] st' _ H [= <-]. eexists. split; [reflexivity | exact H].
Qed.

Lemma keeps_neighbors_ok_seq (f1 f2 : Agent.t * float -> option (Agent.t * float))
    (g : Agent.t * float -> Agent.t * float -> bool) :
  keeps_neighbors_ok f1 -> keeps_neighbors_ok f2 ->
  keeps_neighbors_ok (fun st => st1 ← f1 st; if g st st1 then f2 st1 else Some st1).
Proof.
  intros H1 H2 st st' Hpos Hok. simpl.
  destruct (f1 st) as [st1 |] eqn:E1; [| discriminate]. simpl.
  destruct (H1 _ _ Hpos Hok E1) as (l1 & El1 & Hok1).
  destruct (g st st1).
  - intros E2. destruct (H2 st1 st') as (l & E & Hl).
    + rewrite El1. exact Hpos.
    + rewrite El1. exact Hok1.
    + exact E2.
    + exists l. rewrite E, El1. split; [reflexivity |]. rewrite El1 in Hl. exact Hl.
  - intros [= <-]. eauto.
Qed.

Lemma queryAgentTreeRecursive_ok (kd : KdTree.t) (fuel node : nat) :
  keeps_neighbors_ok (queryAgentTreeRecursive s fuel kd self node).
Proof.
  revert node. induction fuel as [| fuel IH]; intros node st st' Hpos Hok; simpl;
    [discriminate |].
  destruct (KdTree.agentTree kd !! node) as [n |]; [| discriminate]. simpl.
  destruct (_ <=? _)%nat; [by apply insertLeaf_ok |].
  destruct (KdTree.agentTree kd !! AgentTreeNode.left n) as [nl |]; [| discriminate].
  destruct (KdTree.agentTree kd !! AgentTreeNode.right n) as [nr |]; [| discriminate].
  simpl.
  destruct (Num.lt (distSqBox _ nl) (distSqBox _ nr)).
  - destruct (Num.lt (distSqBox _ nl) st.2);
      [| intros E; by apply (keeps_neighbors_ok_ret st st')].
    apply (keeps_neighbors_ok_seq _ _
             (fun st0 st1 => Num.lt (distSqBox (Agent.position st0.1) nr) st1.2)
             (IH (AgentTreeNode.left n)) (IH (AgentTreeNode.right n))); assumption.
  - destruct (Num.lt (distSqBox _ nr) st.2);
      [| intros E; by apply (keeps_neighbors_ok_ret st st')].
    apply (keeps_neighbors_ok_seq _ _
             (fun st0 st1 => Num.lt (distSqBox (Agent.position st0.1) nl) st1.2)
             (IH (AgentTreeNode.right n)) (IH (AgentTreeNode.left n))); assumption.
Qed.
End AgentNeighborInvariant.

(** ** The obstacle-neighbour query *)

Section ObstacleQuery.
Local Open Scope float_scope.

Variables (obstacles : list Obstacle.t) (rangeSq : float) (pos : Vector2.t).

(** The vertices whose tree node a query from [pos] visits: the root, the
    nodes visited in the child on the side of [pos], and, when the line of the
    node is closer than [rangeSq], the nodes visited in the other child. *)
Inductive reached : ObstacleTreeNode -> nat -> Prop :=
| reached_here o l r : reached (ONode o l r) o
| reached_near o l r o' :
    reached (if Num.ge (agentLeftOfLine obstacles pos o) 0.0 then l else r) o' ->
    reached (ONode o l r) o'
| reached_far o l r o' :
    Num.lt (distSqLine obstacles pos o) rangeSq = true ->
    reached (if Num.ge (agentLeftOfLine obstacles pos o) 0.0 then r else l) o' ->
    reached (ONode o l r) o'.

(** The edges the query hands to [insertObstacleNeighbor]: those of visited
    nodes with [pos] strictly to the right of the edge's line and the line
    closer than [rangeSq]. *)
Definition offered (node : ObstacleTreeNode) (o : nat) : Prop :=
  reached node o
  /\ Num.lt (agentLeftOfLine obstacles pos o) 0.0 = true
  /\ Num.lt (distSqLine obstacles pos o) rangeSq = true.

(** The entry [insertObstacleNeighbor] makes for an edge. *)
Definition edgeEntry (o : nat) : Agent.entry := (edgeDistSq obstacles pos o, o).

Lemma insertObstacleNeighbor_spec (this : Agent.t) (o : nat) :
  Agent.position this = pos ->
  exists l,
    insertObstacleNeighbor obstacles this o rangeSq
    = Some (Agent.set_obstacleNeighbors l this)
    /\ (if Num.lt (edgeDistSq obstacles pos o) rangeSq
        then l ≡ₚ edgeEntry o :: Agent.obstacleNeighbors this
        else l = Agent.obstacleNeighbors this).
Proof.
  intros Hpos. unfold insertObstacleNeighbor. rewrite Hpos.
  destruct (Num.lt (edgeDistSq obstacles pos o) rangeSq).
  - set (x := (edgeDistSq obstacles pos o, o)).
    set (l1 := Agent.obstacleNeighbors this ++ [x]).
    assert (Hne : l1 <> []) by (unfold l1; destruct (Agent.obstacleNeighbors this); done).
    destruct (insert_from_end (edgeDistSq obstacles pos o) x l1 Hne)
      as (l' & j & Hs & _ & Hl & _).
    rewrite Hs. simpl. eexists. split; [reflexivity |].
    rewrite Hl. unfold l1. rewrite length_app. simpl.
    replace (length (Agent.obstacleNeighbors this) + 1 - 1)%nat
      with (length (Agent.obstacleNeighbors this)) by lia.
    rewrite take_app_length.
    rewrite <- Permutation_middle. by rewrite take_drop.
  - exists (Agent.obstacleNeighbors this). split; [| reflexivity].
    by destruct this.
Qed.

(** The query always returns; it only touches the obstacle-neighbour list,
    keeps what was there, adds the entry of every offered edge closer than
    [rangeSq], and adds nothing else. *)
Lemma queryObstacleTreeRecursive_spec : forall (node : ObstacleTreeNode) (this : Agent.t),
  Agent.position this = pos ->
  exists l,
    queryObstacleTreeRecursive obstacles rangeSq node this
    = Some (Agent.set_obstacleNeighbors l this)
    /\ (forall e, e ∈ l <->
          e ∈ Agent.obstacleNeighbors this
          \/ exists o, offered node o
                       /\ Num.lt (edgeDistSq obstacles pos o) rangeSq = true
                       /\ e = edgeEntry o).
Proof.
  induction node as [| o l IHl r IHr]; intros this Hpos.
  - exists (Agent.obstacleNeighbors this). split; [by destruct this |].
    intros e. split; [by left |]. intros [H | (o & [Hr _] & _)]; [done | inversion Hr].
  - cbn [queryObstacleTreeRecursive]. rewrite Hpos.
    set (side := agentLeftOfLine obstacles pos o).
    set (near := if Num.ge side 0.0 then l else r).
    set (far := if Num.ge side 0.0 then r else l).
    assert (IHnear : forall this0, Agent.position this0 = pos ->
      exists l0, queryObstacleTreeRecursive obstacles rangeSq near this0
                 = Some (Agent.set_obstacleNeighbors l0 this0)
      /\ (forall e, e ∈ l0 <-> e ∈ Agent.obstacleNeighbors this0
            \/ exists o', offered near o'
                 /\ Num.lt (edgeDistSq obstacles pos o') rangeSq = true
                 /\ e = edgeEntry o')).
    { unfold near. destruct (Num.ge side 0.0); assumption. }
    assert (IHfar : forall this0, Agent.position this0 = pos ->
      exists l0, queryObstacleTreeRecursive obstacles rangeSq far this0
                 = Some (Agent.set_obstacleNeighbors l0 this0)
      /\ (forall e, e ∈ l0 <-> e ∈ Agent.obstacleNeighbors this0
            \/ exists o', offered far o'
                 /\ Num.lt (edgeDistSq obstacles pos o') rangeSq = true
                 /\ e = edgeEntry o')).
    { unfold far. destruct (Num.ge side 0.0); assumption. }
    clear IHl IHr.
    destruct (IHnear this Hpos) as (l1 & E1 & H1). rewrite E1. simpl.
    assert (Hoff : forall o', offered (ONode o l r) o' <->
              offered near o'
              \/ (Num.lt (distSqLine obstacles pos o) rangeSq = true
                  /\ ((o' = o /\ Num.lt side 0.0 = true) \/ offered far o'))).
    { intros o'. unfold offered. split.
      - intros (Hr & Hs & Hd). inversion Hr; subst.
        + right. split; [exact Hd |]. left. split; [reflexivity | exact Hs].
        + left. repeat split; assumption.
        + right. split; [assumption |]. right. repeat split; assumption.
      - intros [(Hr & Hs & Hd) | [Hline [[-> Hs] | (Hr & Hs & Hd)]]].
        + repeat split; [by apply reached_near | |]; assumption.
        + repeat split; [apply reached_here | |]; assumption.
        + repeat split; [by apply reached_far | |]; assumption. }
    destruct (Num.lt (distSqLine obstacles pos o) rangeSq) eqn:Hline.
    + assert (Hins : exists l2,
                (if Num.lt side 0.0
                 then insertObstacleNeighbor obstacles
                        (Agent.set_obstacleNeighbors l1 this) o rangeSq
                 else Some (Agent.set_obstacleNeighbors l1 this))
                = Some (Agent.set_obstacleNeighbors l2 this)
                /\ (forall e, e ∈ l2 <->
                      e ∈ l1 \/ (Num.lt side 0.0 = true
                                 /\ Num.lt (edgeDistSq obstacles pos o) rangeSq = true
                                 /\ e = edgeEntry o))).
      { destruct (Num.lt side 0.0).
        - destruct (insertObstacleNeighbor_spec (Agent.set_obstacleNeighbors l1 this) o Hpos)
            as (l2 & E2 & H2).
          exists l2. split; [exact E2 |]. simpl in H2.
          destruct (Num.lt (edgeDistSq obstacles pos o) rangeSq).
          + intros e. rewrite H2, elem_of_cons. naive_solver.
          + subst l2. naive_solver.
        - exists l1. split; [reflexivity | naive_solver]. }
      destruct Hins as (l2 & E2 & H2). rewrite E2. simpl.
      destruct (IHfar (Agent.set_obstacleNeighbors l2 this) Hpos) as (l3 & E3 & H3).
      exists l3. split; [exact E3 |].
      intros e. rewrite H3. simpl. rewrite H2, H1.
      setoid_rewrite Hoff. naive_solver.
    + exists l1. split; [reflexivity |].
      intros e. rewrite H1. setoid_rewrite Hoff. naive_solver.
Qed.
End ObstacleQuery.

(** ** What a step changes *)

Section StepFrame.
Import Simulator.

(** [a] is [a0] with new neighbour lists, ORCA lines and new velocity, and
    everything else as it was: what the first loop of [doStep] may do to an
    agent. *)
Definition stepFrame (a0 a : Agent.t) : Prop :=
  a = Agent.mk (Agent.agentNeighbors a) (Agent.obstacleNeighbors a) (Agent.orcaLines a)
        (Agent.position a0) (Agent.prefVelocity a0) (Agent.velocity a0) (Agent.id a0)
        (Agent.maxNeighbors a0) (Agent.maxSpeed a0) (Agent.neighborDist a0)
        (Agent.radius a0) (Agent.timeHorizon a0) (Agent.timeHorizonObst a0)
        (Agent.newVelocity a).

Lemma stepFrame_refl (a : Agent.t) : stepFrame a a.
Proof. by destruct a. Qed.

Lemma stepFrame_trans (a b c : Agent.t) : stepFrame a b -> stepFrame b c -> stepFrame a c.
Proof. unfold stepFrame. intros -> ->. reflexivity. Qed.

Lemma stepFrame_position (a0 a : Agent.t) :
  stepFrame a0 a -> Agent.position a = Agent.position a0.
Proof. intros ->. reflexivity. Qed.

Lemma stepFrame_maxNeighbors (a0 a : Agent.t) :
  stepFrame a0 a -> Agent.maxNeighbors a = Agent.maxNeighbors a0.
Proof. intros ->. reflexivity. Qed.

Lemma computeNewVelocity_frame (s : Simulator.t) (a : Agent.t) :
  stepFrame a (computeNewVelocity s a)
  /\ Agent.agentNeighbors (computeNewVelocity s a) = Agent.agentNeighbors a.
Proof.
  unfold computeNewVelocity.
  destruct (linearProgram2 _ _ _ _) as [lineFail newVelocity].
  split; reflexivity.
Qed.

(** [computeNeighbors] always leaves a good agent-neighbour list. *)
Lemma computeNeighbors_ok (s : Simulator.t) (self : nat) (this this' : Agent.t) :
  computeNeighbors s self this = Some this' ->
  stepFrame this this'
  /\ neighbors_ok s self (Agent.position this) (Agent.maxNeighbors this)
                  (Agent.agentNeighbors this').
Proof.
  unfold computeNeighbors, computeObstacleNeighbors.
  set (this0 := Agent.set_obstacleNeighbors [] this).
  destruct (queryObstacleTreeRecursive_spec (Simulator.obstacles s)
              (RVOMath.sqr (Agent.timeHorizonObst this0 * Agent.maxSpeed this0
                            + Agent.radius this0))
              (Agent.position this) (KdTree.obstacleTree (kdTree s)) this0 eq_refl)
    as (lo & E & _).
  rewrite E. simpl.
  destruct (0 <? Agent.maxNeighbors this)%nat.
  - unfold computeAgentNeighbors.
    destruct (queryAgentTreeRecursive _ _ _ _ _ _) as [st |] eqn:Eq; [| discriminate].
    simpl. intros [= <-].
    destruct (queryAgentTreeRecursive_ok s self (Agent.position this) _ _ _
                (Agent.set_agentNeighbors [] (Agent.set_obstacleNeighbors lo this0),
                 RVOMath.sqr (Agent.neighborDist this))
                st eq_refl (neighbors_ok_nil _ _ _ _) Eq) as (la & Ela & Hok).
    rewrite Ela. split; [reflexivity | exact Hok].
  - intros [= <-]. split; [reflexivity | apply neighbors_ok_nil].
Qed.

(** The good-list property only reads the positions of the simulator's
    agents. *)
Lemma neighbors_ok_ext (s s' : Simulator.t) (self : nat) (pos : Vector2.t)
    (m : nat) (l : list Agent.entry) :
  (forall j, Agent.position (getAgent s j) = Agent.position (getAgent s' j)) ->
  neighbors_ok s self pos m l -> neighbors_ok s' self pos m l.
Proof.
  intros Hpos (Hlen & Hall & Hasc). repeat split; [exact Hlen | | exact Hasc].
  eapply Forall_impl; [exact Hall |].
  intros e (H1 & H2 & H3). repeat split; [exact H1 | | exact H3].
  rewrite <- Hpos. exact H2.
Qed.

Lemma stepFrame_getAgent (l0 l : list Agent.t) (s0 s : Simulator.t) :
  agents s0 = l0 -> agents s = l -> Forall2 stepFrame l0 l ->
  forall j, Agent.position (getAgent s0 j) = Agent.position (getAgent s j).
Proof.
  intros <- <- HF j. unfold getAgent.
  destruct (agents s0 !! j) as [a0 |] eqn:E0.
  - destruct (Forall2_lookup_l _ _ _ _ _ HF E0) as (a & -> & Hfr). simpl.
    symmetry. by apply stepFrame_position.
  - assert (agents s !! j = None) as ->; [| reflexivity].
    apply lookup_ge_None. rewrite <- (Forall2_length _ _ _ HF).
    by apply lookup_ge_None.
Qed.

(** The first loop of [doStep]: it touches the agents only, and each of them
    within [stepFrame]; an agent not in the list is not touched at all, and
    an agent in the list ends with a good agent-neighbour list. *)
Lemma computeAll_spec : forall (todo : list nat) (s s1 : Simulator.t),
  computeAll s todo = Some s1 ->
  s1 = set_agents (agents s1) s
  /\ Forall2 stepFrame (agents s) (agents s1)
  /\ (forall k, k ∉ todo -> agents s1 !! k = agents s !! k)
  /\ (forall i a0 a1, i ∈ todo -> agents s !! i = Some a0 -> agents s1 !! i = Some a1 ->
        neighbors_ok s i (Agent.position a0) (Agent.maxNeighbors a0)
                     (Agent.agentNeighbors a1)).
Proof.
  induction todo as [| i todo IH]; intros s s1; simpl.
  - intros [= <-]. split; [| split; [| split]].
    + by destruct s.
    + apply Forall2_same_length_lookup. split; [done |].
      intros k a b Ha Hb. simplify_eq. apply stepFrame_refl.
    + intros k _. reflexivity.
    + intros k a0 a1 Hk. by apply elem_of_nil in Hk.
  - destruct (agents s !! i) as [a |] eqn:Ea; [| discriminate]. simpl.
    destruct (computeNeighbors s i a) as [a1 |] eqn:En; [| discriminate]. simpl.
    destruct (computeNeighbors_ok _ _ _ _ En) as [Hfr1 Hok1].
    destruct (computeNewVelocity_frame s a1) as [Hfr2 Hsame].
    set (a2 := computeNewVelocity s a1) in *.
    set (s2 := set_agents (<[i := a2]> (agents s)) s).
    intros Hrest. destruct (IH s2 s1 Hrest) as (Hs1 & HF & Hout & Hin).
    assert (HF2 : Forall2 stepFrame (agents s) (agents s2)).
    { apply Forall2_same_length_lookup. split; [simpl; by rewrite length_insert |].
      intros k b0 b Hb0 Hb. simpl in Hb.
      destruct (decide (k = i)) as [-> | Hne].
      - rewrite list_lookup_insert_eq in Hb by (by eapply lookup_lt_Some).
        simplify_eq. by eapply stepFrame_trans.
      - rewrite list_lookup_insert_ne in Hb by done. simplify_eq. apply stepFrame_refl. }
    assert (Hpos : forall j, Agent.position (getAgent s2 j) = Agent.position (getAgent s j)).
    { intros j. symmetry. by eapply stepFrame_getAgent. }
    split; [| split; [| split]].
    + rewrite Hs1. reflexivity.
    + apply Forall2_same_length_lookup. split.
      * rewrite <- (Forall2_length _ _ _ HF). simpl. by rewrite length_insert.
      * intros k b0 b Hb0 Hb.
        destruct (Forall2_lookup_l _ _ _ _ _ HF2 Hb0) as (b2 & Hb2 & Hfr).
        destruct (Forall2_lookup_l _ _ _ _ _ HF Hb2) as (b' & Hb' & Hfr').
        simplify_eq. by eapply stepFrame_trans.
    + intros k Hk. apply not_elem_of_cons in Hk as [Hki Hk].
      rewrite (Hout k Hk). simpl. by rewrite list_lookup_insert_ne.
    + intros k b0 b1 Hk Hb0 Hb1.
      destruct (decide (k ∈ todo)) as [Hkt | Hkt].
      * destruct (Forall2_lookup_l _ _ _ _ _ HF2 Hb0) as (b2 & Hb2 & Hfr).
        specialize (Hin k b2 b1 Hkt Hb2 Hb1).
        rewrite (stepFrame_position _ _ Hfr), (stepFrame_maxNeighbors _ _ Hfr) in Hin.
        by apply (neighbors_ok_ext s2 s).
      * apply elem_of_cons in Hk as [-> | Hk]; [| done].
        rewrite (Hout i Hkt) in Hb1. simpl in Hb1.
        rewrite list_lookup_insert_eq in Hb1 by (by eapply lookup_lt_Some).
        rewrite Ea in Hb0. injection Hb0 as <-. injection Hb1 as <-.
        rewrite Hsame. exact Hok1.
Qed.
End StepFrame.

(** ** When a step returns *)

Section StepReturns.
Import Simulator.

Lemma insertAgentNeighbor_returns (s : Simulator.t) (self : nat) (this : Agent.t)
    (agent : nat) (rangeSq : float) :
  0 < Agent.maxNeighbors this ->
  exists l rangeSq',
    insertAgentNeighbor s self this agent rangeSq
    = Some (Agent.set_agentNeighbors l this, rangeSq').
Proof.
  intros Hmax. unfold insertAgentNeighbor.
  assert (Hsame : exists l rangeSq',
             Some (this, rangeSq) = Some (Agent.set_agentNeighbors l this, rangeSq')).
  { exists (Agent.agentNeighbors this), rangeSq. by destruct this. }
  destruct (decide (self = agent)); [exact Hsame |].
  set (distSq := RVOMath.absSq _).
  destruct (Num.lt distSq rangeSq); [| exact Hsame].
  set (l1 := if (_ <? _)%nat then _ else _).
  assert (Hne : l1 <> []).
  { subst l1. destruct (Nat.ltb_spec (length (Agent.agentNeighbors this))
                                      (Agent.maxNeighbors this)) as [Hlt | Hge].
    - by destruct (Agent.agentNeighbors this).
    - intros E. rewrite E in Hge. simpl in Hge. lia. }
  destruct (length l1) as [| i0] eqn:Hl1; [by destruct l1 |].
  destruct (insert_from_end distSq (distSq, agent) l1 Hne) as (l' & j & Hs & _).
  replace (length l1 - 1) with i0 in Hs by lia.
  rewrite Hs. simpl. eauto.
Qed.

Lemma insertLeaf_returns (s : Simulator.t) (kd : KdTree.t) (self : nat) :
  forall (range : list nat) (st : Agent.t * float),
  Forall (fun i => i < length (KdTree.agents kd)) range ->
  0 < Agent.maxNeighbors st.1 ->
  is_Some (insertLeaf s kd self range st).
Proof.
  induction range as [| i range IH]; intros st Hrange Hmax; simpl; [done |].
  inversion Hrange as [| ? ? Hi Hrange']; subst.
  destruct (lookup_lt_is_Some_2 _ _ Hi) as [other ->]. simpl.
  destruct (insertAgentNeighbor_returns s self st.1 other st.2 Hmax) as (l & r' & ->).
  simpl. apply IH; [exact Hrange' | exact Hmax].
Qed.

Lemma boundingBox_returns (s : Simulator.t) (agents : list nat) :
  forall (k i : nat) (n : AgentTreeNode.t),
  i + k <= length agents ->
  exists n', boundingBox s agents i k n = Some n'
             /\ AgentTreeNode.begin_ n' = AgentTreeNode.begin_ n
             /\ AgentTreeNode.end_ n' = AgentTreeNode.end_ n.
Proof.
  induction k as [| k IH]; intros i n Hik; simpl; [eauto |].
  unfold kdPosition.
  destruct (lookup_lt_is_Some_2 agents i) as [idx ->]; [lia |]. simpl.
  destruct (IH (S i)
              (AgentTreeNode.mk (AgentTreeNode.begin_ n) (AgentTreeNode.end_ n)
                 (AgentTreeNode.left n) (AgentTreeNode.right n)
                 (Num.Math_max (AgentTreeNode.maxX n)
                    (Vector2.x (Agent.position (getAgent s idx))))
                 (Num.Math_max (AgentTreeNode.maxY n)
                    (Vector2.y (Agent.position (getAgent s idx))))
                 (Num.Math_min (AgentTreeNode.minX n)
                    (Vector2.x (Agent.position (getAgent s idx))))
                 (Num.Math_min (AgentTreeNode.minY n)
                    (Vector2.y (Agent.position (getAgent s idx))))))
    as (n' & -> & Hb & He); [lia |].
  eauto.
Qed.

Lemma boundingBox_bounds (s : Simulator.t) (agents : list nat) :
  forall (k i : nat) (n n' : AgentTreeNode.t),
  boundingBox s agents i k n = Some n' ->
  AgentTreeNode.begin_ n' = AgentTreeNode.begin_ n
  /\ AgentTreeNode.end_ n' = AgentTreeNode.end_ n.
Proof.
  induction k as [| k IH]; intros i n n'; simpl; [by intros [= <-] |].
  destruct (kdPosition s agents i) as [p |]; [| discriminate]. simpl.
  intros H. apply IH in H. exact H.
Qed.

(** The tree array has been allocated for the agents the tree knows: what
    [buildAgentTree] establishes whenever it finds a new number of agents. *)
Definition treeAllocated (s : Simulator.t) : Prop :=
  length (KdTree.agents (kdTree s)) = getNumAgents s ->
  length (KdTree.agentTree (kdTree s)) = 2 * getNumAgents s.

(** The root of the tree is a leaf over all [n] agents. *)
Definition leafRoot (kd : KdTree.t) (n : nat) : Prop :=
  length (KdTree.agents kd) = n
  /\ (0 < n -> exists root, KdTree.agentTree kd !! 0 = Some root
                            /\ AgentTreeNode.begin_ root = 0
                            /\ AgentTreeNode.end_ root = n).

Lemma buildAgentTree_small (s : Simulator.t) :
  treeAllocated s -> getNumAgents s <= KdTree.MAX_LEAF_SIZE ->
  exists kd, buildAgentTree s (kdTree s) = Some kd /\ leafRoot kd (getNumAgents s).
Proof.
  intros Halloc Hsmall. unfold buildAgentTree.
  set (kd1 := if decide (length (KdTree.agents (kdTree s)) = getNumAgents s)
              then _ else _).
  assert (H1 : length (KdTree.agents kd1) = getNumAgents s
               /\ length (KdTree.agentTree kd1) = 2 * getNumAgents s).
  { subst kd1. destruct (decide _) as [E | _]; [split; [exact E | by apply Halloc] |].
    simpl. by rewrite length_seq, length_replicate. }
  destruct H1 as [Hagents Htree].
  destruct (decide (length (KdTree.agents kd1) = 0)) as [E0 | Hpos].
  { exists kd1. split; [reflexivity |]. split; [exact Hagents | lia]. }
  rewrite Hagents in *.
  cbn [buildAgentTreeRecursive].
  destruct (lookup_lt_is_Some_2 (KdTree.agentTree kd1) 0) as [n0 ->]; [lia |].
  unfold kdPosition at 1.
  destruct (lookup_lt_is_Some_2 (KdTree.agents kd1) 0) as [idx ->]; [lia |].
  cbn [mbind option_bind].
  set (n := AgentTreeNode.mk _ _ _ _ _ _ _ _).
  destruct (boundingBox_returns s (KdTree.agents kd1) (getNumAgents s - 1) 1 n)
    as (n1 & -> & Hb & He); [lia |].
  cbn [mbind option_bind].
  replace (KdTree.MAX_LEAF_SIZE <? getNumAgents s - 0)%nat with false
    by (symmetry; apply Nat.ltb_ge; lia).
  eexists. split; [reflexivity |]. split; [exact Hagents |].
  intros _. exists n1. split; [| split; [exact Hb | exact He]].
  simpl. apply list_lookup_insert_eq. lia.
Qed.

Lemma computeNeighbors_returns (s : Simulator.t) (self : nat) (this : Agent.t) :
  leafRoot (kdTree s) (getNumAgents s) ->
  0 < getNumAgents s <= KdTree.MAX_LEAF_SIZE ->
  is_Some (computeNeighbors s self this).
Proof.
  intros [Hagents Hroot] [Hpos Hsmall].
  unfold computeNeighbors, computeObstacleNeighbors.
  set (this0 := Agent.set_obstacleNeighbors [] this).
  destruct (queryObstacleTreeRecursive_spec (Simulator.obstacles s)
              (RVOMath.sqr (Agent.timeHorizonObst this0 * Agent.maxSpeed this0
                            + Agent.radius this0))%float
              (Agent.position this) (KdTree.obstacleTree (kdTree s)) this0 eq_refl)
    as (lo & -> & _).
  simpl. destruct (Nat.ltb_spec 0 (Agent.maxNeighbors this)) as [Hmax | _]; [| done].
  unfold computeAgentNeighbors. cbn [queryAgentTreeRecursive].
  destruct (Hroot Hpos) as (root & -> & Hb & He). cbn [mbind option_bind].
  rewrite Hb, He.
  replace (getNumAgents s - 0 <=? KdTree.MAX_LEAF_SIZE)%nat with true
    by (symmetry; apply Nat.leb_le; lia).
  destruct (insertLeaf_returns s (kdTree s) self (seq 0 (getNumAgents s - 0))
              (Agent.set_agentNeighbors [] (Agent.set_obstacleNeighbors lo this0),
               RVOMath.sqr (Agent.neighborDist this))) as [st ->]; [| exact Hmax | done].
  apply Forall_forall. intros i Hi. apply elem_of_seq in Hi. lia.
Qed.

Lemma computeAll_returns : forall (todo : list nat) (s : Simulator.t),
  leafRoot (kdTree s) (getNumAgents s) ->
  getNumAgents s <= KdTree.MAX_LEAF_SIZE ->
  Forall (fun i => i < getNumAgents s) todo ->
  is_Some (computeAll s todo).
Proof.
  induction todo as [| i todo IH]; intros s Hroot Hsmall Htodo; simpl; [done |].
  inversion Htodo as [| ? ? Hi Htodo']; subst.
  destruct (lookup_lt_is_Some_2 (agents s) i Hi) as [a ->]. simpl.
  destruct (computeNeighbors_returns s i a Hroot) as [a1 ->];
    [unfold getNumAgents in *; lia |].
  simpl. apply IH; unfold getNumAgents in *; simpl; rewrite ?length_insert;
    assumption.
Qed.

(** With at most [MAX_LEAF_SIZE] agents, whose tree is a single leaf,
    [doStep] returns. *)
Lemma doStep_returns (s : Simulator.t) :
  treeAllocated s -> getNumAgents s <= KdTree.MAX_LEAF_SIZE ->
  is_Some (doStep s).
Proof.
  intros Halloc Hsmall. unfold doStep.
  destruct (buildAgentTree_small s Halloc Hsmall) as (kd & -> & Hroot). simpl.
  destruct (computeAll_returns (seq 0 (length (agents s))) (set_kdTree kd s))
    as [s1 ->]; try assumption; [| done].
  apply Forall_forall. intros i Hi. apply elem_of_seq in Hi.
  unfold getNumAgents. simpl. lia.
Qed.

Lemma doStep_globalTime (s s' : Simulator.t) (t : float) :
  doStep s = Some (s', t) ->
  t = (globalTime s + timeStep s)%float /\ globalTime s' = t /\ timeStep s' = timeStep s.
Proof.
  unfold doStep.
  destruct (buildAgentTree s (kdTree s)) as [kd |]; [| discriminate]. simpl.
  destruct (computeAll _ _) as [s1 |] eqn:E; [| discriminate]. simpl.
  destruct (computeAll_spec _ _ _ E) as (Hs1 & _).
  intros [= <- <-]. rewrite Hs1. simpl. done.
Qed.
End StepReturns.

(** ** Scenarios *)

Section Scenarios.
Local Open Scope float_scope.

(** The scenario of the repository's test script: two agents facing each
    other and a square obstacle. *)
Definition testScene : Simulator.t :=
  let s0 := setAgentDefaults 15 10 10 10 2 2 (Vector2.mk 0 0) fresh in
  let s1 := (addAgent (Vector2.mk 0 0) s0).2 in
  let s2 := (addAgent (Vector2.mk 10 0) s1).2 in
  let s3 := setAgentPrefVelocity 1 (Vector2.mk (-1) 0)
              (setAgentPrefVelocity 0 (Vector2.mk 1 0) s2) in
  let s4 := (addObstacle [Vector2.mk (-5) (-5); Vector2.mk (-5) 5;
                          Vector2.mk 5 5; Vector2.mk 5 (-5)] s3).2 in
  processObstacles s4.

(** Three agents on a line, the middle one (agent 0) heading up: its two
    neighbours are at the same distance. *)
Definition tiedScene : Simulator.t :=
  let s0 := setAgentDefaults 15 10 10 10 0.25 2 (Vector2.mk 0 0) fresh in
  let s1 := (addAgent (Vector2.mk 0 0) s0).2 in
  let s2 := (addAgent (Vector2.mk 1 0) s1).2 in
  let s3 := (addAgent (Vector2.mk (-1) 0) s2).2 in
  setAgentPrefVelocity 0 (Vector2.mk 0 1) s3.

Definition tiedSceneAfter : Simulator.t :=
  Eval vm_compute in
    match doStep tiedScene with Some (s', _) => s' | None => fresh end.

(** Agents 0 and 1 are added at the same place with the same velocity;
    agent 2 stands three units to the right; agent 0 wants to leave fast. *)
Definition coincidentScene : Simulator.t :=
  let s0 := setAgentDefaults 15 10 2 10 1 1 (Vector2.mk 0 0) fresh in
  let s1 := (addAgent (Vector2.mk 0 0) s0).2 in
  let s2 := (addAgent (Vector2.mk 0 0) s1).2 in
  let s3 := (addAgent (Vector2.mk 3 0) s2).2 in
  setAgentPrefVelocity 0 (Vector2.mk 1000 (-1000)) s3.

Definition coincidentSceneAfter : Simulator.t :=
  Eval vm_compute in
    match doStep coincidentScene with Some (s', _) => s' | None => fresh end.
End Scenarios.

(** ** The step *)

Section Step.
Import Simulator.
Local Open Scope float_scope.

(** Whenever [doStep] returns, it returns the global time before the
    call plus the time step, and [getGlobalTime] gives that number afterwards;
    it does return when the agents fit one leaf of the k-D tree; the global
    time of a new simulator, and of a cleared one, is zero. *)
Theorem doStep_advances_time (s : Simulator.t) :
  (forall s' t, doStep s = Some (s', t) ->
     t = globalTime s + timeStep s
     /\ getGlobalTime s' = globalTime s + timeStep s)
  /\ (treeAllocated s -> (getNumAgents s <= KdTree.MAX_LEAF_SIZE)%nat ->
      exists s', doStep s = Some (s', globalTime s + timeStep s)
                 /\ getGlobalTime s' = globalTime s + timeStep s)
  /\ getGlobalTime fresh = 0
  /\ getGlobalTime (clear s) = 0.
Proof.
  split; [| split; [| split; reflexivity]].
  - intros s' t Hdo. destruct (doStep_globalTime s s' t Hdo) as (-> & Hg & _).
    split; [reflexivity | exact Hg].
  - intros Halloc Hsmall.
    destruct (doStep_returns s Halloc Hsmall) as [[s' t] Hdo].
    destruct (doStep_globalTime s s' t Hdo) as (-> & Hg & _).
    exists s'. split; [exact Hdo | exact Hg].
Qed.

Lemma doStep_advances_time_witness :
  exists s', doStep (setTimeStep 0.25 testScene) = Some (s', 0.25)
             /\ getGlobalTime s' = 0.25.
Proof.
  destruct (proj1 (proj2 (doStep_advances_time (setTimeStep 0.25 testScene))))
    as (s' & Hdo & Hg).
  - intros H. vm_compute in H. discriminate H.
  - vm_compute. lia.
  - exists s'. split; [exact Hdo | exact Hg].
Defined.

(** C4 as stated, for the agents of a simulator [s'] that [doStep] left:
    the keys are compared with the positions in [s'] and have to go up
    strictly. *)
Definition neighborhood_as_stated (s' : Simulator.t) : Prop :=
  forall i a', agents s' !! i = Some a' -> (0 < Agent.maxNeighbors a')%nat ->
    (length (Agent.agentNeighbors a') <= Agent.maxNeighbors a')%nat
    /\ (forall e, e ∈ Agent.agentNeighbors a' ->
          e.2 <> i
          /\ e.1 = RVOMath.absSq (Vector2.subtract (Agent.position a')
                                    (Agent.position (getAgent s' e.2))))
    /\ strictly_ascending (Agent.agentNeighbors a').

(** After the step of [tiedScene], agent 0 has the neighbours 1 and 2 both
    with key 1: the keys do not go up strictly; and agent 0 has moved, so that
    the squared distance to agent 1 is no longer the key. *)
Lemma neighborhood_counterexample :
  doStep tiedScene = Some (tiedSceneAfter, 0.1)
  /\ (exists a', agents tiedSceneAfter !! 0%nat = Some a'
        /\ (0 < Agent.maxNeighbors a')%nat
        /\ Agent.agentNeighbors a' = [(1, 1%nat); (1, 2%nat)]
        /\ ~ strictly_ascending (Agent.agentNeighbors a')
        /\ Num.eq 1 (RVOMath.absSq (Vector2.subtract (Agent.position a')
                                      (Agent.position (getAgent tiedSceneAfter 1))))
           = false)
  /\ ~ neighborhood_as_stated tiedSceneAfter.
Proof.
  assert (Hnot : ~ strictly_ascending [(1, 1%nat); (1, 2%nat)]).
  { intros [H _]. vm_compute in H. discriminate H. }
  split; [vm_compute; reflexivity |]. split.
  - eexists. split; [reflexivity |]. split; [vm_compute; lia |].
    split; [reflexivity |]. split; [exact Hnot | vm_compute; reflexivity].
  - intros H. destruct (H 0%nat _ eq_refl) as (_ & _ & Hasc); [vm_compute; lia |].
    exact (Hnot Hasc).
Qed.

(** C4, amended. After [doStep], every agent with [maxNeighbors > 0] has
    at most [maxNeighbors] agent neighbours; no entry is the agent itself;
    the key of each entry is the squared distance between the positions that
    the agent and the neighbour had before the step; and the keys never go
    down from one entry to the next (equal keys stay in insertion order). *)
Theorem bounded_neighborhood (s s' : Simulator.t) (t : float) (i : nat)
    (a a' : Agent.t) :
  doStep s = Some (s', t) ->
  agents s !! i = Some a -> agents s' !! i = Some a' ->
  (0 < Agent.maxNeighbors a')%nat ->
  (length (Agent.agentNeighbors a') <= Agent.maxNeighbors a')%nat
  /\ (forall e, e ∈ Agent.agentNeighbors a' ->
        e.2 <> i
        /\ e.1 = RVOMath.absSq (Vector2.subtract (Agent.position a)
                                  (Agent.position (getAgent s e.2))))
  /\ (forall k e1 e2,
        Agent.agentNeighbors a' !! k = Some e1 ->
        Agent.agentNeighbors a' !! S k = Some e2 ->
        Num.le e1.1 e2.1 = true).
Proof.
  unfold doStep. intros Hdo Ha Ha' _.
  destruct (buildAgentTree s (kdTree s)) as [kd |]; [| discriminate]. simpl in Hdo.
  destruct (computeAll _ _) as [s1 |] eqn:E; [| discriminate]. simpl in Hdo.
  injection Hdo as <- <-. simpl in Ha'.
  apply list_lookup_fmap_Some in Ha' as (a1 & -> & Ha1).
  destruct (computeAll_spec _ _ _ E) as (_ & HF & _ & Hin).
  assert (Hi : i ∈ seq 0 (length (agents s))).
  { apply elem_of_seq. apply lookup_lt_Some in Ha. lia. }
  specialize (Hin i a a1 Hi Ha Ha1).
  apply (neighbors_ok_ext _ s) in Hin; [| reflexivity].
  destruct (Forall2_lookup_l _ _ _ _ _ HF Ha) as (a1' & Ha1' & Hfr).
  simpl in Ha1'. rewrite Ha1 in Ha1'. injection Ha1' as <-.
  destruct Hin as (Hlen & Hall & Hasc). simpl.
  rewrite (stepFrame_maxNeighbors _ _ Hfr).
  split; [exact Hlen |]. split.
  - intros e He. destruct (proj1 (Forall_forall _ _) Hall e He) as (H1 & H2 & _).
    split; assumption.
  - by apply ascending_lookup.
Qed.

Lemma bounded_neighborhood_witness :
  exists a', agents tiedSceneAfter !! 0%nat = Some a'
    /\ (length (Agent.agentNeighbors a') <= Agent.maxNeighbors a')%nat
    /\ (forall k e1 e2,
          Agent.agentNeighbors a' !! k = Some e1 ->
          Agent.agentNeighbors a' !! S k = Some e2 ->
          Num.le e1.1 e2.1 = true).
Proof.
  eexists. split; [reflexivity |].
  refine ((fun H => conj (proj1 H) (proj2 (proj2 H)))
            (bounded_neighborhood tiedScene tiedSceneAfter 0.1 0 _ _ _ _ _ _)).
  - vm_compute. reflexivity.
  - reflexivity.
  - reflexivity.
  - vm_compute. lia.
Defined.

(** C1 at [coincidentScene], where the maximum speed of every agent is 1.
    The ORCA line of agent 0 against agent 1 has NaN components: the two
    agents overlap, their relative position and relative velocity are zero, and
    the vector [w] is divided by its zero length.  [linearProgram2] then finds
    the line against agent 2 violated; in [linearProgram1] the NaN line makes
    [t] and, through [Math.max], [tLeft] NaN; no comparison with [tLeft]
    succeeds and the unclipped projection of the preferred velocity is the
    result.  The step commits the velocity (0.25, -1000), of length above
    1 + epsilon. *)
Theorem speed_bound_fails :
  doStep coincidentScene = Some (coincidentSceneAfter, 0.1)
  /\ Forall (fun a => Agent.maxSpeed a = 1 /\ Num.ge (Agent.maxSpeed a) 0 = true)
            (agents coincidentScene)
  /\ (exists a, agents coincidentSceneAfter !! 0%nat = Some a
        /\ Agent.velocity a = Vector2.mk 0.25 (-1000)
        /\ Agent.orcaLines a
           = [Line.mk (Vector2.mk nan nan) (Vector2.mk nan nan);
              Line.mk (Vector2.mk 0 1) (Vector2.mk 0.25 0)]
        /\ Num.le (RVOMath.abs (Agent.velocity a))
                  (Agent.maxSpeed a + RVOMath.RVO_EPSILON) = false
        /\ linearProgram1 (Agent.orcaLines a) 1 (Agent.maxSpeed a)
                          (Agent.prefVelocity a) false
           = Some (Vector2.mk 0.25 (-1000))).
Proof.
  split; [vm_compute; reflexivity |]. split.
  - repeat constructor.
  - eexists. split; [reflexivity |]. repeat split; vm_compute; reflexivity.
Qed.
End Step.

(** ** The obstacle neighbours and their ORCA lines *)

Section ObstacleLines.
Import Simulator.
Local Open Scope float_scope.

(** A wall segment from (0,0) to (10,0) (a two-vertex obstacle, hence the
    edges 0 and 1 in the two directions) and an agent at (5,1), to the left of
    edge 0 and to the right of edge 1. *)
Definition segmentScene : Simulator.t :=
  let s0 := processObstacles
              (addObstacle [Vector2.mk 0 0; Vector2.mk 10 0] fresh).2 in
  (addAgentWithParams (Vector2.mk 5 1) 15 10 10 10 1 2 (Vector2.mk 0 0) s0).2.

(** A polygon whose side on the line x = 5 is made of the two edges 2 and 3,
    and an agent at the origin, facing that side. *)
Definition wallScene : Simulator.t :=
  let s0 := processObstacles
              (addObstacle [Vector2.mk 5 (-5); Vector2.mk 10 0;
                            Vector2.mk 5 5; Vector2.mk 5 0] fresh).2 in
  (addAgentWithParams (Vector2.mk 0 0) 15 10 10 10 1 2 (Vector2.mk 0 0) s0).2.

(** C7 as stated, for a query that returned [this']: every edge of a
    visited node that is closer than the range is among the neighbours. *)
Definition obstacle_query_as_stated (obstacles : list Obstacle.t) (rangeSq : float)
    (node : ObstacleTreeNode) (this this' : Agent.t) : Prop :=
  forall o, reached obstacles rangeSq (Agent.position this) node o ->
    Num.lt (edgeDistSq obstacles (Agent.position this) o) rangeSq = true ->
    exists key, (key, o) ∈ Agent.obstacleNeighbors this'.

(** In [segmentScene] the query visits the node of edge 0, which is at
    squared distance 1 from the agent, well below the range 441; the agent is
    on the left of edge 0, and the edge is not inserted. *)
Lemma obstacle_query_counterexample :
  let obstacles := Simulator.obstacles segmentScene in
  let this := getAgent segmentScene 0 in
  let node := KdTree.obstacleTree (kdTree segmentScene) in
  exists this',
    queryObstacleTreeRecursive obstacles 441 node this = Some this'
    /\ Agent.obstacleNeighbors this' = [(1, 1%nat)]
    /\ reached obstacles 441 (Agent.position this) node 0
    /\ edgeDistSq obstacles (Agent.position this) 0 = 1
    /\ Num.lt 1 441 = true
    /\ Num.lt (agentLeftOfLine obstacles (Agent.position this) 0) 0 = false
    /\ ~ obstacle_query_as_stated obstacles 441 node this this'.
Proof.
  intros obstacles this node.
  assert (Hreached : reached obstacles 441 (Agent.position this) node 0)
    by apply reached_here.
  eexists. split; [vm_compute; reflexivity |].
  split; [reflexivity |]. split; [exact Hreached |].
  split; [vm_compute; reflexivity |]. split; [reflexivity |].
  split; [vm_compute; reflexivity |].
  intros H. destruct (H 0%nat Hreached) as [key Hkey]; [vm_compute; reflexivity |].
  apply list_elem_of_singleton in Hkey. discriminate Hkey.
Qed.

(** C7, amended. The obstacle query hands one and the same [rangeSq] to
    every call and always returns; it changes nothing of the agent but the
    obstacle-neighbour list, keeps every entry that was there, and inserts the
    edge of every visited node for which the agent is strictly to the right of
    the edge's line, the line is closer than [rangeSq] and the edge is closer
    than [rangeSq].  It inserts nothing else: every entry it adds is the
    entry of such an edge, with the squared distance to the edge as its key,
    below [rangeSq]; an edge that the agent sees from its left side (the
    agent is not strictly to the right of the edge's line) is never inserted.
    The agent query is different: an insertion that leaves the list full
    returns the last key of the list as the new range. *)
Theorem obstacle_query_keeps_range (obstacles : list Obstacle.t) (rangeSq : float)
    (node : ObstacleTreeNode) (this : Agent.t) :
  (exists l,
     queryObstacleTreeRecursive obstacles rangeSq node this
     = Some (Agent.set_obstacleNeighbors l this)
     /\ (forall e, e ∈ Agent.obstacleNeighbors this -> e ∈ l)
     /\ (forall o,
           reached obstacles rangeSq (Agent.position this) node o ->
           Num.lt (agentLeftOfLine obstacles (Agent.position this) o) 0 = true ->
           Num.lt (distSqLine obstacles (Agent.position this) o) rangeSq = true ->
           Num.lt (edgeDistSq obstacles (Agent.position this) o) rangeSq = true ->
           (edgeDistSq obstacles (Agent.position this) o, o) ∈ l)
     /\ (forall e, e ∈ l ->
           e ∈ Agent.obstacleNeighbors this
           \/ (reached obstacles rangeSq (Agent.position this) node e.2
               /\ Num.lt (agentLeftOfLine obstacles (Agent.position this) e.2) 0 = true
               /\ Num.lt (distSqLine obstacles (Agent.position this) e.2) rangeSq = true
               /\ e.1 = edgeDistSq obstacles (Agent.position this) e.2
               /\ Num.lt e.1 rangeSq = true))
     /\ (forall o key,
           Num.lt (agentLeftOfLine obstacles (Agent.position this) o) 0 = false ->
           (key, o) ∈ l -> (key, o) ∈ Agent.obstacleNeighbors this))
  /\ (forall s self agent,
        self <> agent ->
        Num.lt (RVOMath.absSq (Vector2.subtract (Agent.position this)
                                 (Agent.position (getAgent s agent)))) rangeSq = true ->
        (length (Agent.agentNeighbors this) <= Agent.maxNeighbors this)%nat ->
        (0 < Agent.maxNeighbors this <= S (length (Agent.agentNeighbors this)))%nat ->
        exists this' e,
          insertAgentNeighbor s self this agent rangeSq = Some (this', e.1)
          /\ list.last (Agent.agentNeighbors this') = Some e).
Proof.
  split.
  - destruct (queryObstacleTreeRecursive_spec obstacles rangeSq (Agent.position this)
                node this eq_refl) as (l & E & Hl).
    assert (Hnew : forall e, e ∈ l ->
              e ∈ Agent.obstacleNeighbors this
              \/ (reached obstacles rangeSq (Agent.position this) node e.2
                  /\ Num.lt (agentLeftOfLine obstacles (Agent.position this) e.2) 0 = true
                  /\ Num.lt (distSqLine obstacles (Agent.position this) e.2) rangeSq = true
                  /\ e.1 = edgeDistSq obstacles (Agent.position this) e.2
                  /\ Num.lt e.1 rangeSq = true)).
    { intros e He. apply Hl in He as [He | (o & (Hr & Hs & Hd) & Hk & ->)]; [by left |].
      right. unfold edgeEntry. cbn [fst snd]. repeat split; assumption. }
    exists l. split; [exact E |]. split; [| split; [| split]].
    + intros e He. apply Hl. by left.
    + intros o Hr Hs Hd Hk. apply Hl. right. exists o. repeat split; assumption.
    + exact Hnew.
    + intros o key Hside He. destruct (Hnew _ He) as [Hold | (_ & Hs & _)]; [exact Hold |].
      cbn [snd] in Hs. rewrite Hside in Hs. discriminate Hs.
  - intros s self agent Hne Hlt Hlen [Hpos Hfull]. unfold insertAgentNeighbor.
    destruct (decide (self = agent)); [done |]. rewrite Hlt.
    set (distSq := RVOMath.absSq _).
    set (l1 := if (_ <? _)%nat then _ else _).
    assert (Hl1 : length l1 = Agent.maxNeighbors this).
    { subst l1. destruct (Nat.ltb_spec (length (Agent.agentNeighbors this))
                                        (Agent.maxNeighbors this)).
      - rewrite length_app. simpl. lia.
      - lia. }
    assert (Hne1 : l1 <> []) by (intros E; rewrite E in Hl1; simpl in Hl1; lia).
    destruct (insert_from_end distSq (distSq, agent) l1 Hne1) as (l' & j & Hs & Hj & Hl & _).
    destruct (length l1) as [| i0] eqn:El1; [lia |].
    replace (S i0 - 1)%nat with i0 in * by lia.
    rewrite Hs. simpl.
    set (l3 := <[j := (distSq, agent)]> l') in *.
    assert (Hl3 : length l3 = S i0).
    { rewrite Hl, length_app. simpl. rewrite length_take, length_drop, length_take. lia. }
    rewrite Hl3, <- Hl1, Nat.eqb_refl.
    destruct (lookup_lt_is_Some_2 l3 (S i0 - 1)) as [e He]; [lia |].
    rewrite He. simpl. exists (Agent.set_agentNeighbors l3 this), e.
    split; [reflexivity |]. simpl. rewrite last_lookup, Hl3.
    replace (Init.Nat.pred (S i0)) with (S i0 - 1)%nat by lia. exact He.
Qed.

(** In [segmentScene] the agent is to the right of edge 1, which is
    inserted, and to the left of edge 0, which is not. *)
Lemma obstacle_query_keeps_range_witness :
  exists l,
    queryObstacleTreeRecursive (Simulator.obstacles segmentScene) 441
      (KdTree.obstacleTree (kdTree segmentScene)) (getAgent segmentScene 0)
    = Some (Agent.set_obstacleNeighbors l (getAgent segmentScene 0))
    /\ (1, 1%nat) ∈ l
    /\ forall key, (key, 0%nat) ∉ l.
Proof.
  destruct (proj1 (obstacle_query_keeps_range (Simulator.obstacles segmentScene) 441
                     (KdTree.obstacleTree (kdTree segmentScene))
                     (getAgent segmentScene 0)))
    as (l & E & _ & Hin & _ & Hleft).
  exists l. split; [exact E |]. split.
  - apply (Hin 1%nat).
    + apply reached_near. vm_compute. apply reached_here.
    + vm_compute. reflexivity.
    + vm_compute. reflexivity.
    + vm_compute. reflexivity.
  - intros key Hkey. apply (Hleft 0%nat key) in Hkey.
    + vm_compute in Hkey. inversion Hkey.
    + vm_compute. reflexivity.
Defined.
End ObstacleLines.

Section Coverage.
Import Simulator.
Local Open Scope float_scope.

(** The agent of [wallScene] once its obstacle neighbours are computed: the
    edges 2 and 3, both at squared distance 25. *)
Definition wallAgent : Agent.t :=
  Agent.set_obstacleNeighbors [(25, 2%nat); (25, 3%nat)] (getAgent wallScene 0).

Lemma wallAgent_neighbors :
  computeObstacleNeighbors wallScene
    (Agent.set_obstacleNeighbors [] (getAgent wallScene 0)) 441
  = Some wallAgent.
Proof. vm_compute. reflexivity. Qed.

(** The first round of the loop has pushed no line yet: there is no
    earlier line that could cover edge 2, and the round pushes a line for
    it. *)
Lemma wallAgent_first_line :
  obstacleOrcaStep (Simulator.obstacles wallScene) wallAgent [] (25, 2%nat)
  = [Line.mk (Vector2.mk (-0) 1) (Vector2.mk 0.4 0.5)].
Proof. vm_compute. reflexivity. Qed.






End Coverage.

(** ** The splitter of the obstacle tree *)

Section Splitter.

Variable arena : list Obstacle.t.

(** The counts the specification speaks of, for candidate [i] with line
    [pI]: every other edge of the list is classified, an edge on the left
    counts for [L], one on the right for [R], a straddling one for both.
    There is no early exit. *)
Fixpoint sideCounts (i : nat) (pI : Vector2.t * Vector2.t) (rest : list nat)
    (j : nat) (sizes : nat * nat) : nat * nat :=
  match rest with
  | [] => sizes
  | oj :: rest' =>
      sideCounts i pI rest' (S j)
        (if (i =? j)%nat then sizes else bump (classify arena pI oj) sizes)
  end.

(** The pair [(max(L_i, R_i), min(L_i, R_i))] of candidate [i]. *)
Definition candidatePair (obstacles : list nat) (i : nat) : FloatPair.t :=
  let sizes :=
    sideCounts i (edgePoints arena (default 0 (obstacles !! i))) obstacles 0 (0, 0) in
  sizePair sizes.1 sizes.2.

(** The search for the splitter with the full counts of every candidate. *)
Fixpoint chooseSplitFull (obstacles rest : list nat) (i : nat)
    (st : nat * nat * nat) : nat * nat * nat :=
  match rest with
  | [] => st
  | oi :: rest' =>
      let '(optimalSplit, minLeft, minRight) := st in
      let sizes := sideCounts i (edgePoints arena oi) obstacles 0 (0, 0) in
      chooseSplitFull obstacles rest' (S i)
        (if FloatPair.lessThan (sizePair sizes.1 sizes.2) (sizePair minLeft minRight)
         then (i, sizes.1, sizes.2) else st)
  end.

Definition lexLt (p q : FloatPair.t) : Prop :=
  FloatPair.a p < FloatPair.a q
  \/ (FloatPair.a p = FloatPair.a q /\ FloatPair.b p < FloatPair.b q).

Lemma lessThan_spec (p q : FloatPair.t) :
  FloatPair.lessThan p q = true <-> lexLt p q.
Proof.
  unfold FloatPair.lessThan, lexLt.
  rewrite orb_true_iff, andb_true_iff, negb_true_iff, !Nat.ltb_lt, Nat.ltb_ge. lia.
Qed.

Lemma lessThan_false (p q : FloatPair.t) :
  FloatPair.lessThan p q = false <-> ~ lexLt p q.
Proof. rewrite <- lessThan_spec. destruct (FloatPair.lessThan p q); split; congruence. Qed.

Lemma bump_mono (sd : side) (sizes : nat * nat) :
  sizes.1 <= (bump sd sizes).1 <= S sizes.1
  /\ sizes.2 <= (bump sd sizes).2 <= S sizes.2.
Proof. destruct sd; simpl; lia. Qed.

Lemma sideCounts_mono (i : nat) (pI : Vector2.t * Vector2.t) :
  forall (rest : list nat) (j : nat) (sizes : nat * nat),
  sizes.1 <= (sideCounts i pI rest j sizes).1
  /\ sizes.2 <= (sideCounts i pI rest j sizes).2.
Proof.
  induction rest as [| oj rest IH]; intros j sizes; simpl; [lia |].
  destruct (i =? j)%nat; [apply IH |].
  pose proof (bump_mono (classify arena pI oj) sizes).
  pose proof (IH (S j) (bump (classify arena pI oj) sizes)). lia.
Qed.

(** The counts of a candidate that is in the list stay below the length of
    the list. *)
Lemma sideCounts_bound (i : nat) (pI : Vector2.t * Vector2.t) :
  forall (rest : list nat) (j : nat) (sizes : nat * nat),
  let skipped := if decide (j <= i < j + length rest) then 1 else 0 in
  (sideCounts i pI rest j sizes).1 + skipped <= sizes.1 + length rest
  /\ (sideCounts i pI rest j sizes).2 + skipped <= sizes.2 + length rest.
Proof.
  induction rest as [| oj rest IH]; intros j sizes; simpl.
  - case_decide; lia.
  - specialize (IH (S j)). simpl in IH.
    destruct (Nat.eqb_spec i j) as [-> | Hne].
    + specialize (IH sizes). repeat case_decide; lia.
    + specialize (IH (bump (classify arena pI oj) sizes)).
      pose proof (bump_mono (classify arena pI oj) sizes).
      repeat case_decide; lia.
Qed.

Lemma sizePair_mono (l r l' r' : nat) (best : FloatPair.t) :
  l <= l' -> r <= r' -> lexLt (sizePair l' r') best -> lexLt (sizePair l r) best.
Proof. unfold lexLt, sizePair. simpl. lia. Qed.

(** The early exit: the counting loop stops only when the candidate can no
    longer be below the best pair, and otherwise counts everything. *)
Lemma countSides_sideCounts (i : nat) (pI : Vector2.t * Vector2.t)
    (best : FloatPair.t) :
  forall (rest : list nat) (j : nat) (sizes : nat * nat),
  let cs := countSides arena i pI best rest j sizes in
  let full := sideCounts i pI rest j sizes in
  FloatPair.lessThan (sizePair cs.1 cs.2) best
  = FloatPair.lessThan (sizePair full.1 full.2) best
  /\ (FloatPair.lessThan (sizePair full.1 full.2) best = true -> cs = full).
Proof.
  induction rest as [| oj rest IH]; intros j sizes; simpl; [done |].
  destruct (i =? j)%nat; [apply IH |].
  set (sizes' := bump (classify arena pI oj) sizes).
  unfold FloatPair.greaterThanOrEqual.
  destruct (FloatPair.lessThan (sizePair sizes'.1 sizes'.2) best) eqn:Hlt; simpl;
    [apply IH |].
  assert (Hfull : FloatPair.lessThan
                    (sizePair (sideCounts i pI rest (S j) sizes').1
                              (sideCounts i pI rest (S j) sizes').2) best = false).
  { apply lessThan_false. intros Hlex. apply lessThan_false in Hlt. apply Hlt.
    destruct (sideCounts_mono i pI rest (S j) sizes').
    eapply sizePair_mono; eassumption. }
  rewrite Hfull. split; [exact Hlt | discriminate].
Qed.

Lemma chooseSplit_chooseSplitFull (obstacles : list nat) :
  forall (rest : list nat) (i : nat) (st : nat * nat * nat),
  chooseSplit arena obstacles rest i st = chooseSplitFull obstacles rest i st.
Proof.
  induction rest as [| oi rest IH]; intros i [[k minLeft] minRight]; simpl; [done |].
  destruct (countSides_sideCounts i (edgePoints arena oi) (sizePair minLeft minRight)
              obstacles 0 (0, 0)) as [Heq Hfull].
  simpl in Heq, Hfull. rewrite Heq.
  destruct (FloatPair.lessThan
              (sizePair (sideCounts i (edgePoints arena oi) obstacles 0 (0, 0)).1
                        (sideCounts i (edgePoints arena oi) obstacles 0 (0, 0)).2)
              (sizePair minLeft minRight)) eqn:Hlt.
  - rewrite (Hfull eq_refl). apply IH.
  - apply IH.
Qed.

(** The state of the search before candidate [i]: the best of the
    candidates before [i], and the first of them to be that good. *)
Definition bestBefore (obstacles : list nat) (i : nat) (st : nat * nat * nat) : Prop :=
  let '(k, minLeft, minRight) := st in
  k < i
  /\ (minLeft, minRight)
     = sideCounts k (edgePoints arena (default 0 (obstacles !! k))) obstacles 0 (0, 0)
  /\ (forall i', i' < i -> ~ lexLt (candidatePair obstacles i') (candidatePair obstacles k))
  /\ (forall i', i' < k -> lexLt (candidatePair obstacles k) (candidatePair obstacles i')).

Lemma candidatePair_bound (obstacles : list nat) (i : nat) :
  i < length obstacles ->
  FloatPair.a (candidatePair obstacles i) < length obstacles.
Proof.
  intros Hi. unfold candidatePair.
  pose proof (sideCounts_bound i (edgePoints arena (default 0 (obstacles !! i)))
                obstacles 0 (0, 0)) as Hb.
  simpl in Hb. case_decide; [| lia].
  unfold sizePair. simpl. lia.
Qed.

Lemma lexLt_candidate (obstacles : list nat) (i oi : nat) :
  obstacles !! i = Some oi ->
  candidatePair obstacles i
  = sizePair (sideCounts i (edgePoints arena oi) obstacles 0 (0, 0)).1
             (sideCounts i (edgePoints arena oi) obstacles 0 (0, 0)).2.
Proof. intros H. unfold candidatePair. rewrite H. reflexivity. Qed.

Lemma chooseSplitFull_best (obstacles : list nat) :
  forall (rest : list nat) (i : nat) (st : nat * nat * nat),
  drop i obstacles = rest -> i <= length obstacles ->
  (i = 0 /\ st = (0, length obstacles, length obstacles)) \/ bestBefore obstacles i st ->
  (length obstacles = 0
   /\ chooseSplitFull obstacles rest i st = (0, length obstacles, length obstacles))
  \/ bestBefore obstacles (length obstacles) (chooseSplitFull obstacles rest i st).
Proof.
  induction rest as [| oi rest IH]; intros i st Hdrop Hi Hst.
  - assert (i = length obstacles) as ->.
    { apply (f_equal length) in Hdrop. rewrite length_drop in Hdrop. simpl in Hdrop. lia. }
    simpl. destruct Hst as [[Hn ->] | Hst]; [left | right]; done.
  - assert (Hoi : obstacles !! i = Some oi).
    { rewrite <- (Nat.add_0_r i), <- lookup_drop, Hdrop. reflexivity. }
    assert (Hlt : i < length obstacles) by (by eapply lookup_lt_Some).
    assert (Hrest : drop (S i) obstacles = rest).
    { rewrite (drop_S _ _ _ Hoi) in Hdrop. by injection Hdrop. }
    destruct st as [[k minLeft] minRight].
    cbn [chooseSplitFull].
    set (sizes := sideCounts i (edgePoints arena oi) obstacles 0 (0, 0)).
    assert (Hcp : candidatePair obstacles i = sizePair sizes.1 sizes.2)
      by (by apply lexLt_candidate).
    pose proof (candidatePair_bound obstacles i Hlt) as Hbound.
    assert (Hsizes : (sizes.1, sizes.2)
                     = sideCounts i (edgePoints arena (default 0 (obstacles !! i)))
                                  obstacles 0 (0, 0)).
    { rewrite Hoi. simpl. subst sizes. by destruct (sideCounts _ _ _ _ _). }
    apply IH; [exact Hrest | lia |]. right.
    destruct Hst as [[-> [= -> -> ->]] | (Hk & Hc & Hmin & Hfirst)].
    + replace (FloatPair.lessThan (sizePair sizes.1 sizes.2)
                 (sizePair (length obstacles) (length obstacles))) with true.
      * repeat split; [lia | exact Hsizes | | intros i' Hi'; lia].
        intros i' Hi'. assert (i' = 0) as -> by lia. unfold lexLt. lia.
      * symmetry. apply lessThan_spec. rewrite <- Hcp.
        unfold lexLt, sizePair. cbn [FloatPair.a FloatPair.b]. lia.
    + assert (Hk' : sizePair minLeft minRight = candidatePair obstacles k).
      { unfold candidatePair. rewrite <- Hc. reflexivity. }
      rewrite Hk', <- Hcp.
      destruct (FloatPair.lessThan (candidatePair obstacles i) (candidatePair obstacles k))
        eqn:Hless.
      * apply lessThan_spec in Hless.
        repeat split; [lia | exact Hsizes | |].
        -- intros i' Hi'. destruct (decide (i' = i)) as [-> | Hne]; [unfold lexLt; lia |].
           specialize (Hmin i' ltac:(lia)). unfold lexLt in *. lia.
        -- intros i' Hi'. specialize (Hmin i' Hi'). unfold lexLt in *. lia.
      * apply lessThan_false in Hless.
        repeat split; [lia | exact Hc | | exact Hfirst].
        intros i' Hi'. destruct (decide (i' = i)) as [-> | Hne]; [exact Hless |].
        apply Hmin. lia.
Qed.

Lemma optimalSplit_best (obstacles : list nat) :
  obstacles <> [] ->
  optimalSplit arena obstacles
  = chooseSplitFull obstacles obstacles 0 (0, length obstacles, length obstacles)
  /\ bestBefore obstacles (length obstacles) (optimalSplit arena obstacles).
Proof.
  intros Hne. unfold optimalSplit. rewrite chooseSplit_chooseSplitFull.
  split; [reflexivity |].
  destruct (chooseSplitFull_best obstacles obstacles 0
              (0, length obstacles, length obstacles)) as [[Hlen _] | H];
    [reflexivity | lia | by left | | exact H].
  destruct obstacles; [done | discriminate Hlen].
Qed.
End Splitter.

Section ObstacleTreeBuild.

(** The second loop hands an edge to each list at most once, and nothing
    for the splitter itself. *)
Lemma splitEdge_lengths (i : nat) (pI : Vector2.t * Vector2.t) :
  forall (jos : list (nat * nat)) (st : list Obstacle.t * list nat * list nat),
  let st' := foldl (splitEdge i pI) st jos in
  let skipped := length (filter (fun jo => jo.1 = i) jos) in
  length st'.1.2 + skipped <= length st.1.2 + length jos
  /\ length st'.2 + skipped <= length st.2 + length jos.
Proof.
  induction jos as [| [j oj] jos IH]; intros st; simpl; [lia |].
  specialize (IH (splitEdge i pI st (j, oj))). simpl in IH.
  assert (Hstep : let st1 := splitEdge i pI st (j, oj) in
                  let one := if decide (j = i) then 0 else 1 in
                  length st1.1.2 <= length st.1.2 + one
                  /\ length st1.2 <= length st.2 + one).
  { destruct st as [[arena leftObstacles] rightObstacles]. unfold splitEdge.
    destruct (Nat.eqb_spec i j) as [-> | Hne].
    - simpl. case_decide; lia.
    - simpl. case_decide; [congruence |].
      destruct (classify arena pI oj); simpl; rewrite ?length_app; simpl; try lia.
      destruct (Num.gt _ _); simpl; rewrite ?length_app; simpl; lia. }
  simpl in Hstep. rewrite filter_cons. simpl.
  repeat case_decide; simpl; try congruence; lia.
Qed.

Lemma filter_index_imap (i : nat) (obstacles : list nat) :
  forall k, k <= i < k + length obstacles ->
  1 <= length (filter (fun jo : nat * nat => jo.1 = i)
                      (imap (fun j oj => (k + j, oj)) obstacles)).
Proof.
  induction obstacles as [| o obstacles IH]; intros k Hk; simpl in *; [lia |].
  rewrite filter_cons. simpl. case_decide; [simpl; lia |].
  rewrite (imap_ext _ (fun j oj => (S k + j, oj))).
  - apply IH. lia.
  - intros j oj _. simpl. f_equal. lia.
Qed.

(** Both lists handed down are shorter than the list split. *)
Lemma split_lists_shorter (i : nat) (pI : Vector2.t * Vector2.t)
    (arena : list Obstacle.t) (obstacles : list nat) :
  i < length obstacles ->
  let st' := foldl (splitEdge i pI) (arena, [], [])
                   (imap (fun j oj => (j, oj)) obstacles) in
  length st'.1.2 < length obstacles /\ length st'.2 < length obstacles.
Proof.
  intros Hi.
  pose proof (splitEdge_lengths i pI (imap (fun j oj => (j, oj)) obstacles)
                (arena, [], [])) as H.
  pose proof (filter_index_imap i obstacles 0 ltac:(lia)) as Hf.
  simpl in *. rewrite length_imap in H. lia.
Qed.

Lemma optimalSplit_lt (arena : list Obstacle.t) (obstacles : list nat) :
  obstacles <> [] -> (optimalSplit arena obstacles).1.1 < length obstacles.
Proof.
  intros Hne. destruct (optimalSplit_best arena obstacles Hne) as [_ Hbest].
  destruct (optimalSplit arena obstacles) as [[k minLeft] minRight].
  simpl. exact (proj1 Hbest).
Qed.

(** One more unit of fuel than the length of the list changes nothing. *)
Lemma buildObstacleTreeRecursive_fuel_S : forall (fuel : nat) (obstacles : list nat)
    (arena : list Obstacle.t),
  length obstacles <= fuel ->
  buildObstacleTreeRecursive (S fuel) obstacles arena
  = buildObstacleTreeRecursive fuel obstacles arena.
Proof.
  induction fuel as [| fuel IH]; intros obstacles arena Hlen.
  - destruct obstacles; [reflexivity | simpl in Hlen; lia].
  - destruct obstacles as [| o os] eqn:Eo; [reflexivity |]. rewrite <- Eo in *.
    assert (Hne : obstacles <> []) by (rewrite Eo; discriminate).
    pose proof (optimalSplit_lt arena obstacles Hne) as Hk.
    pose proof (split_lists_shorter (optimalSplit arena obstacles).1.1
                  (edgePoints arena
                     (default 0 (obstacles !! (optimalSplit arena obstacles).1.1)))
                  arena obstacles Hk) as [Hl Hr].
    simpl in Hl, Hr.
    assert (Hunfold : forall f, buildObstacleTreeRecursive (S f) obstacles arena
      = let i := (optimalSplit arena obstacles).1.1 in
        let oi := default 0 (obstacles !! i) in
        let '(arena1, leftObstacles, rightObstacles) :=
          foldl (splitEdge i (edgePoints arena oi)) (arena, [], [])
                (imap (fun j oj => (j, oj)) obstacles) in
        let '(l, arena2) := buildObstacleTreeRecursive f leftObstacles arena1 in
        let '(r, arena3) := buildObstacleTreeRecursive f rightObstacles arena2 in
        (ONode oi l r, arena3)).
    { intros f. rewrite Eo. reflexivity. }
    rewrite !Hunfold. cbv zeta.
    destruct (foldl _ _ _) as [[arena1 leftObstacles] rightObstacles]. simpl in Hl, Hr.
    rewrite (IH leftObstacles arena1) by lia.
    destruct (buildObstacleTreeRecursive fuel leftObstacles arena1) as [l arena2].
    rewrite (IH rightObstacles arena2) by lia. reflexivity.
Qed.

(** With at least as much fuel as the list is long, the result is the one
    [buildObstacleTree] computes: the fuel never runs out. *)
Lemma buildObstacleTreeRecursive_fuel (fuel : nat) (obstacles : list nat)
    (arena : list Obstacle.t) :
  length obstacles <= fuel ->
  buildObstacleTreeRecursive fuel obstacles arena
  = buildObstacleTreeRecursive (length obstacles) obstacles arena.
Proof.
  intros Hlen. replace fuel with ((fuel - length obstacles) + length obstacles) by lia.
  induction (fuel - length obstacles) as [| d IH]; [reflexivity |].
  rewrite Nat.add_succ_l, buildObstacleTreeRecursive_fuel_S by lia. exact IH.
Qed.

(** The two edges of the segment from (0,0) to (10,0), built with more fuel
    than needed. *)
Lemma buildObstacleTreeRecursive_fuel_witness :
  let arena :=
    Simulator.obstacles (addObstacle [Vector2.mk 0 0; Vector2.mk 10 0] fresh).2 in
  length [0; 1] <= 5
  /\ buildObstacleTreeRecursive 5 [0; 1] arena
     = buildObstacleTreeRecursive (length [0; 1]) [0; 1] arena.
Proof.
  intros arena. split; [simpl; lia |].
  apply (buildObstacleTreeRecursive_fuel 5 [0; 1] arena). simpl; lia.
Defined.
End ObstacleTreeBuild.

(** ** The splitter, in the words of the specification *)

Section SplitterSpec.
Local Open Scope float_scope.

Variable arena : list Obstacle.t.

(** The specification's side of the comparison, in its own words, written
    without the counters and pairs of the program.  For the line through the
    two end points of edge [oi], an edge [oj] is classified left of it when
    both its end points are on the left, up to epsilon ([leftOf >= -epsilon]);
    right of it when it is not classified left and both end points are on the
    right, up to epsilon ([leftOf <= epsilon]); it straddles the line
    otherwise. *)
Definition fallsLeft (oi oj : nat) : bool :=
  Num.ge (RVOMath.leftOf (edgePoints arena oi).1 (edgePoints arena oi).2
                         (edgePoints arena oj).1) (- RVOMath.RVO_EPSILON)
  && Num.ge (RVOMath.leftOf (edgePoints arena oi).1 (edgePoints arena oi).2
                            (edgePoints arena oj).2) (- RVOMath.RVO_EPSILON).

Definition fallsRight (oi oj : nat) : bool :=
  negb (fallsLeft oi oj)
  && Num.le (RVOMath.leftOf (edgePoints arena oi).1 (edgePoints arena oi).2
                            (edgePoints arena oj).1) RVOMath.RVO_EPSILON
  && Num.le (RVOMath.leftOf (edgePoints arena oi).1 (edgePoints arena oi).2
                            (edgePoints arena oj).2) RVOMath.RVO_EPSILON.

Definition straddles (oi oj : nat) : bool :=
  negb (fallsLeft oi oj) && negb (fallsRight oi oj).

(** [S \ {i}]: the edges of the list at the positions other than [i]. *)
Definition otherEdges (obstacles : list nat) (i : nat) : list nat :=
  delete i obstacles.

(** [L_i] and [R_i]: how many of the other edges fall left, and right, of
    the line of the edge at position [i]; a straddling edge counts for
    both. *)
Definition leftCount (obstacles : list nat) (i : nat) : nat :=
  let oi := default 0%nat (obstacles !! i) in
  length (List.filter (fun oj => fallsLeft oi oj || straddles oi oj)
                      (otherEdges obstacles i)).

Definition rightCount (obstacles : list nat) (i : nat) : nat :=
  let oi := default 0%nat (obstacles !! i) in
  length (List.filter (fun oj => fallsRight oi oj || straddles oi oj)
                      (otherEdges obstacles i)).

(** The pair [(max(L_i, R_i), min(L_i, R_i))]. *)
Definition splitPair (obstacles : list nat) (i : nat) : nat * nat :=
  (Nat.max (leftCount obstacles i) (rightCount obstacles i),
   Nat.min (leftCount obstacles i) (rightCount obstacles i)).

(** The lexicographic order on pairs. *)
Definition pairBelow (p q : nat * nat) : Prop :=
  (p.1 < q.1)%nat \/ (p.1 = q.1 /\ (p.2 < q.2)%nat).

(** The counters after one edge, against the specification's three
    cases. *)
Lemma bump_classify (oi oj : nat) (sizes : nat * nat) :
  bump (classify arena (edgePoints arena oi) oj) sizes
  = ((sizes.1 + length (List.filter (fun oj => fallsLeft oi oj || straddles oi oj) [oj]))%nat,
     (sizes.2 + length (List.filter (fun oj => fallsRight oi oj || straddles oi oj) [oj]))%nat).
Proof.
  unfold classify, straddles, fallsRight, fallsLeft, j1LeftOfI, j2LeftOfI.
  cbn [List.filter].
  destruct (Num.ge _ _); destruct (Num.ge _ _); destruct (Num.le _ _);
    destruct (Num.le _ _); destruct sizes as [a b]; cbn; f_equal; lia.
Qed.

(** The counting loop without the early exit counts the other edges. *)
Lemma sideCounts_counts (i oi : nat) :
  forall (rest : list nat) (j : nat) (sizes : nat * nat),
  sideCounts arena i (edgePoints arena oi) rest j sizes
  = let others := if decide (j <= i)%nat then delete (i - j)%nat rest else rest in
    ((sizes.1 + length (List.filter (fun oj => fallsLeft oi oj || straddles oi oj) others))%nat,
     (sizes.2 + length (List.filter (fun oj => fallsRight oi oj || straddles oi oj) others))%nat).
Proof.
  induction rest as [| oj rest IH]; intros j [a b]; cbv zeta.
  - destruct (decide _); [destruct (i - j)%nat |]; cbn; f_equal; lia.
  - cbn [sideCounts]. rewrite IH. cbv zeta.
    destruct (Nat.eqb_spec i j) as [-> | Hne].
    + rewrite decide_False by lia. rewrite decide_True by lia.
      rewrite Nat.sub_diag. reflexivity.
    + rewrite bump_classify. cbn [fst snd].
      destruct (decide (j <= i)%nat) as [Hle | Hgt].
      * rewrite decide_True by lia.
        replace (i - j)%nat with (S (i - S j)) by lia.
        change (delete (S (i - S j)%nat) (oj :: rest)) with (oj :: delete (i - S j)%nat rest).
        cbn [List.filter].
        destruct (fallsLeft oi oj || straddles oi oj);
          destruct (fallsRight oi oj || straddles oi oj); cbn [length]; f_equal; lia.
      * rewrite decide_False by lia. cbn [List.filter].
        destruct (fallsLeft oi oj || straddles oi oj);
          destruct (fallsRight oi oj || straddles oi oj); cbn [length]; f_equal; lia.
Qed.

Lemma sideCounts_spec (obstacles : list nat) (i : nat) :
  sideCounts arena i (edgePoints arena (default 0%nat (obstacles !! i))) obstacles 0 (0, 0)%nat
  = (leftCount obstacles i, rightCount obstacles i).
Proof.
  rewrite sideCounts_counts. cbv zeta. rewrite decide_True by lia.
  rewrite Nat.sub_0_r. reflexivity.
Qed.

Lemma candidatePair_spec (obstacles : list nat) (i : nat) :
  candidatePair arena obstacles i
  = FloatPair.mk (splitPair obstacles i).1 (splitPair obstacles i).2.
Proof. unfold candidatePair. rewrite sideCounts_spec. reflexivity. Qed.

Lemma lexLt_pairBelow (obstacles : list nat) (i k : nat) :
  lexLt (candidatePair arena obstacles i) (candidatePair arena obstacles k)
  <-> pairBelow (splitPair obstacles i) (splitPair obstacles k).
Proof. rewrite !candidatePair_spec. reflexivity. Qed.
End SplitterSpec.

Section SplitterTheorem.

(** C5. [buildObstacleTreeRecursive], given a list that is not empty,
    returns a node whose edge is the one at the position [k] that the search
    selects.  With [L_i] and [R_i] the numbers of other edges of the list
    that fall left and right of the line of candidate [i], a straddling edge
    counted for both, no candidate has a pair [(max(L_i, R_i), min(L_i, R_i))]
    lexicographically below that of [k], and every candidate before [k] has a
    pair strictly above it: [k] is the first minimiser.  The counters the
    search ends with are [L_k] and [R_k], and the search with the early exit
    ends as the same search without it. *)
Theorem splitter_minimizes (arena : list Obstacle.t) (obstacles : list nat)
    (fuel : nat) :
  obstacles <> [] ->
  exists k oi l r arena',
    obstacles !! k = Some oi
    /\ buildObstacleTreeRecursive (S fuel) obstacles arena = (ONode oi l r, arena')
    /\ (forall i, i < length obstacles ->
          ~ pairBelow (splitPair arena obstacles i) (splitPair arena obstacles k))
    /\ (forall i, i < k ->
          pairBelow (splitPair arena obstacles k) (splitPair arena obstacles i))
    /\ optimalSplit arena obstacles
       = (k, leftCount arena obstacles k, rightCount arena obstacles k)
    /\ optimalSplit arena obstacles
       = chooseSplitFull arena obstacles obstacles 0
           (0, length obstacles, length obstacles).
Proof.
  intros Hne.
  destruct (optimalSplit_best arena obstacles Hne) as [Hfull Hbest].
  pose proof (optimalSplit_lt arena obstacles Hne) as Hk.
  destruct (optimalSplit arena obstacles) as [[k minLeft] minRight] eqn:Eopt.
  cbn [fst snd] in *. destruct Hbest as (_ & Hc & Hmin & Hfirst).
  destruct (lookup_lt_is_Some_2 obstacles k Hk) as [oi Hoi].
  assert (Hnode : exists l r arena',
            buildObstacleTreeRecursive (S fuel) obstacles arena = (ONode oi l r, arena')).
  { destruct obstacles as [| o os] eqn:Eo; [done |]. rewrite <- Eo in *.
    assert (Hunfold : buildObstacleTreeRecursive (S fuel) obstacles arena
      = let i := (optimalSplit arena obstacles).1.1 in
        let oi := default 0 (obstacles !! i) in
        let '(arena1, leftObstacles, rightObstacles) :=
          foldl (splitEdge i (edgePoints arena oi)) (arena, [], [])
                (imap (fun j oj => (j, oj)) obstacles) in
        let '(l, arena2) := buildObstacleTreeRecursive fuel leftObstacles arena1 in
        let '(r, arena3) := buildObstacleTreeRecursive fuel rightObstacles arena2 in
        (ONode oi l r, arena3)).
    { rewrite Eo. reflexivity. }
    rewrite Hunfold, Eopt. cbv zeta. cbn [fst snd]. rewrite Hoi. cbn [default].
    destruct (foldl _ _ _) as [[arena1 leftObstacles] rightObstacles].
    destruct (buildObstacleTreeRecursive fuel leftObstacles arena1) as [l arena2].
    destruct (buildObstacleTreeRecursive fuel rightObstacles arena2) as [r arena3].
    eauto. }
  destruct Hnode as (l & r & arena' & Hnode).
  exists k, oi, l, r, arena'.
  split; [exact Hoi |]. split; [exact Hnode |]. split; [| split; [| split]].
  - intros i Hi Hb. apply (Hmin i Hi). by apply lexLt_pairBelow.
  - intros i Hi. apply lexLt_pairBelow. by apply Hfirst.
  - rewrite sideCounts_spec in Hc. by injection Hc as -> ->.
  - exact Hfull.
Qed.

(** Four walls, each of two vertices and hence two edges: y = 5 (edges 0
    and 1), y = 0 (edges 2 and 3), y = -5 (edges 4 and 5), and a short one
    across the line y = 0 (edges 6 and 7). *)
Definition fenceArena : list Obstacle.t :=
  Simulator.obstacles
    (addObstacle [Vector2.mk 20 (-3); Vector2.mk 20 3]
       (addObstacle [Vector2.mk 0 (-5); Vector2.mk 10 (-5)]
          (addObstacle [Vector2.mk 0 0; Vector2.mk 10 0]
             (addObstacle [Vector2.mk 0 5; Vector2.mk 10 5] fresh).2).2).2).2.

(** The pairs of the eight candidates: the first minimiser is edge 2, with
    five edges on its left (two of them straddling) and four on its right
    (the same two among them). *)
Lemma fenceArena_pairs :
  map (splitPair fenceArena (seq 0 8)) (seq 0 8)
  = [(6, 1); (7, 0); (5, 4); (5, 4); (7, 0); (6, 1); (7, 0); (6, 1)]%nat
  /\ optimalSplit fenceArena (seq 0 8) = (2, 5, 4)%nat.
Proof. split; vm_compute; reflexivity. Qed.

Lemma splitter_minimizes_witness :
  exists k oi l r arena',
    seq 0 8 !! k = Some oi
    /\ buildObstacleTreeRecursive 9 (seq 0 8) fenceArena = (ONode oi l r, arena')
    /\ (forall i, i < 8 ->
          ~ pairBelow (splitPair fenceArena (seq 0 8) i) (splitPair fenceArena (seq 0 8) k))
    /\ (forall i, i < k ->
          pairBelow (splitPair fenceArena (seq 0 8) k) (splitPair fenceArena (seq 0 8) i))
    /\ optimalSplit fenceArena (seq 0 8)
       = (k, leftCount fenceArena (seq 0 8) k, rightCount fenceArena (seq 0 8) k)
    /\ optimalSplit fenceArena (seq 0 8)
       = chooseSplitFull fenceArena (seq 0 8) (seq 0 8) 0 (0, 8, 8).
Proof.
  apply (splitter_minimizes fenceArena (seq 0 8) 8). discriminate.
Defined.
End SplitterTheorem.

(** ** What the step commits *)

Section Commit.
Local Open Scope float_scope.

(** [linearProgram3] hands back the velocity it was given: each round
    restores [this.newVelocity] to what it was before the inner call of
    [linearProgram2], whether that call succeeds or fails. *)
Lemma linearProgram3_loop_velocity (lines : list Line.t) (numObstLines : nat)
    (radius : float) :
  forall (rest : list Line.t) (i : nat) (st : Vector2.t * float),
  (linearProgram3_loop lines numObstLines radius rest i st).1 = st.1.
Proof.
  induction rest as [| li rest IH]; intros i [newVelocity distance]; simpl; [done |].
  destruct (Num.gt _ distance); [| apply IH].
  rewrite IH. simpl. destruct (_ <? _)%nat; reflexivity.
Qed.

(** Called with a number of obstacle lines that is at most the number of
    lines, as [computeNewVelocity] calls it, [linearProgram3] returns with
    [this.newVelocity] as it was when it was called, whatever it does on the
    way. *)
Theorem linearProgram3_keeps_velocity (lines : list Line.t)
    (numObstLines beginLine : nat) (radius : float) (newVelocity : Vector2.t) :
  (numObstLines <= length lines)%nat ->
  linearProgram3 lines numObstLines beginLine radius newVelocity = newVelocity.
Proof. intros _. unfold linearProgram3. apply linearProgram3_loop_velocity. Qed.

(** Two lines, the first of which the velocity violates, so that a round
    of the loop is entered. *)
Lemma linearProgram3_keeps_velocity_witness :
  linearProgram3 [Line.mk (Vector2.mk 1 0) (Vector2.mk 0 0);
                  Line.mk (Vector2.mk 0 1) (Vector2.mk 0 0)] 1 0 1 (Vector2.mk 0 (-1))
  = Vector2.mk 0 (-1).
Proof.
  apply (linearProgram3_keeps_velocity
           [Line.mk (Vector2.mk 1 0) (Vector2.mk 0 0);
            Line.mk (Vector2.mk 0 1) (Vector2.mk 0 0)] 1 0 1 (Vector2.mk 0 (-1))).
  simpl. lia.
Defined.

(** The velocity an agent has after [update()] is what [linearProgram2]
    left for the agent's ORCA lines, its maximum speed and its preferred
    velocity. *)
Theorem committed_velocity (s : Simulator.t) (timeStep : float) (this : Agent.t) :
  Agent.velocity (update timeStep (computeNewVelocity s this))
  = (linearProgram2 (orcaLinesOf s this) (Agent.maxSpeed this)
                    (Agent.prefVelocity this) false).2.
Proof.
  unfold computeNewVelocity.
  destruct (linearProgram2 _ _ _ _) as [lineFail newVelocity]. simpl.
  unfold linearProgram3. rewrite linearProgram3_loop_velocity.
  by destruct (_ <? _)%nat.
Qed.
End Commit.

(** ** The fuel of the agent tree *)

Section AgentTreeFuel.

Variable s : Simulator.t.

Lemma swapAgents_length (agents agents' : list nat) (i j : nat) :
  swapAgents agents i j = Some agents' -> length agents' = length agents.
Proof.
  unfold swapAgents. destruct (agents !! i); [| discriminate].
  destruct (agents !! j); [| discriminate]. simpl.
  intros [= <-]. by rewrite !length_insert.
Qed.

Lemma buildAgentTreeRecursive_S (fuel begin_ end_ node : nat) (kd : KdTree.t) :
  buildAgentTreeRecursive s (S fuel) begin_ end_ node kd
  = (n0 ← KdTree.agentTree kd !! node;
     p ← kdPosition s (KdTree.agents kd) begin_;
     n1 ← boundingBox s (KdTree.agents kd) (S begin_) (end_ - S begin_)
            (AgentTreeNode.mk begin_ end_ (AgentTreeNode.left n0)
               (AgentTreeNode.right n0)
               (Vector2.x p) (Vector2.y p) (Vector2.x p) (Vector2.y p));
     if (KdTree.MAX_LEAF_SIZE <? end_ - begin_)%nat then
       let isVertical :=
         Num.gt (AgentTreeNode.maxX n1 - AgentTreeNode.minX n1)%float
                (AgentTreeNode.maxY n1 - AgentTreeNode.minY n1)%float in
       let splitValue :=
         (0.5 * (if isVertical then AgentTreeNode.maxX n1 + AgentTreeNode.minX n1
                 else AgentTreeNode.maxY n1 + AgentTreeNode.minY n1))%float in
       '(agents', left0, _) ←
         partitionLoop s isVertical splitValue (S (end_ - begin_))
                       (KdTree.agents kd) begin_ end_;
       let leftSize := if (left0 - begin_ =? 0)%nat then 1%nat else (left0 - begin_)%nat in
       let left := if (left0 - begin_ =? 0)%nat then S left0 else left0 in
       let n2 :=
         AgentTreeNode.mk (AgentTreeNode.begin_ n1) (AgentTreeNode.end_ n1)
           (node + 1) (node + 2 * leftSize)
           (AgentTreeNode.maxX n1) (AgentTreeNode.maxY n1)
           (AgentTreeNode.minX n1) (AgentTreeNode.minY n1) in
       let kd1 :=
         KdTree.mk agents' (<[node := n2]> (KdTree.agentTree kd))
                   (KdTree.obstacleTree kd) in
       kd2 ← buildAgentTreeRecursive s fuel begin_ left (AgentTreeNode.left n2) kd1;
       buildAgentTreeRecursive s fuel left end_ (AgentTreeNode.right n2) kd2
     else
       Some (KdTree.mk (KdTree.agents kd) (<[node := n1]> (KdTree.agentTree kd))
                       (KdTree.obstacleTree kd))).
Proof. reflexivity. Qed.

Lemma scanLeft_bounds (isVertical : bool) (splitValue : float) (agents : list nat) :
  forall (k left left1 : nat),
  scanLeft s isVertical splitValue agents k left = Some left1 ->
  left <= left1 <= left + k.
Proof.
  induction k as [| k IH]; intros left left1; simpl; [intros [= <-]; lia |].
  destruct (kdCoord s isVertical agents left) as [c |]; [| discriminate]. simpl.
  destruct (Num.lt c splitValue); [| intros [= <-]; lia].
  intros H. apply IH in H. lia.
Qed.

Lemma scanRight_bounds (isVertical : bool) (splitValue : float) (agents : list nat) :
  forall (k right right1 : nat),
  scanRight s isVertical splitValue agents k right = Some right1 ->
  right - k <= right1 <= right.
Proof.
  induction k as [| k IH]; intros right right1; simpl; [intros [= <-]; lia |].
  destruct (kdCoord s isVertical agents (right - 1)) as [c |]; [| discriminate]. simpl.
  destruct (Num.ge c splitValue); [| intros [= <-]; lia].
  intros H. apply IH in H. lia.
Qed.

Lemma partitionLoop_S (isVertical : bool) (splitValue : float) (fuel : nat)
    (agents : list nat) (left right : nat) :
  partitionLoop s isVertical splitValue (S fuel) agents left right
  = if (left <? right)%nat then
      left1 ← scanLeft s isVertical splitValue agents (right - left) left;
      right1 ← scanRight s isVertical splitValue agents (right - left1) right;
      if (left1 <? right1)%nat then
        agents' ← swapAgents agents left1 (right1 - 1);
        partitionLoop s isVertical splitValue fuel agents' (S left1) (right1 - 1)
      else partitionLoop s isVertical splitValue fuel agents left1 right1
    else Some (agents, left, right).
Proof. reflexivity. Qed.

Lemma partitionLoop_done (isVertical : bool) (splitValue : float) (fuel : nat)
    (agents : list nat) (left right : nat) :
  right <= left ->
  partitionLoop s isVertical splitValue fuel agents left right
  = Some (agents, left, right).
Proof.
  intros H. destruct fuel; simpl;
    (destruct (Nat.ltb_spec left right); [lia | reflexivity]).
Qed.

(** The partition never uses up the fuel [buildAgentTreeRecursive] gives
    it: each round that is not the last brings [left] and [right] closer by
    two. *)
Lemma partitionLoop_fuel_S (isVertical : bool) (splitValue : float) :
  forall (fuel : nat) (agents : list nat) (left right : nat),
  right - left < fuel ->
  partitionLoop s isVertical splitValue (S fuel) agents left right
  = partitionLoop s isVertical splitValue fuel agents left right.
Proof.
  induction fuel as [| fuel IH]; intros agents left right Hlt; [lia |].
  rewrite (partitionLoop_S _ _ (S fuel)), (partitionLoop_S _ _ fuel).
  destruct (Nat.ltb_spec left right) as [Hlr | _]; [| reflexivity].
  destruct (scanLeft s isVertical splitValue agents (right - left) left)
    as [left1 |] eqn:El; [| reflexivity]. cbn [mbind option_bind].
  apply scanLeft_bounds in El.
  destruct (scanRight s isVertical splitValue agents (right - left1) right)
    as [right1 |] eqn:Er; [| reflexivity]. cbn [mbind option_bind].
  apply scanRight_bounds in Er.
  destruct (Nat.ltb_spec left1 right1) as [Hswap | Hstop].
  - destruct (swapAgents agents left1 (right1 - 1)) as [agents' |]; [| reflexivity].
    cbn [mbind option_bind]. apply IH. lia.
  - rewrite !partitionLoop_done by lia. reflexivity.
Qed.

(** An inner node of the tree has children with larger numbers. *)
Definition childrenAbove (tree : list AgentTreeNode.t) : Prop :=
  forall node n, tree !! node = Some n ->
    KdTree.MAX_LEAF_SIZE < AgentTreeNode.end_ n - AgentTreeNode.begin_ n ->
    node < AgentTreeNode.left n /\ node < AgentTreeNode.right n.

Lemma childrenAbove_insert (tree : list AgentTreeNode.t) (node : nat)
    (n : AgentTreeNode.t) :
  childrenAbove tree ->
  (KdTree.MAX_LEAF_SIZE < AgentTreeNode.end_ n - AgentTreeNode.begin_ n ->
   node < AgentTreeNode.left n /\ node < AgentTreeNode.right n) ->
  childrenAbove (<[node := n]> tree).
Proof.
  intros Htree Hn k m Hk.
  destruct (decide (k = node)) as [-> | Hne].
  - apply list_lookup_insert_Some in Hk as [(_ & <- & _) | [? _]]; [exact Hn | done].
  - rewrite list_lookup_insert_ne in Hk by done. by apply Htree.
Qed.

(** A build keeps the length of the tree array and the property above. *)
Lemma buildAgentTreeRecursive_tree : forall (fuel begin_ end_ node : nat)
    (kd kd' : KdTree.t),
  buildAgentTreeRecursive s fuel begin_ end_ node kd = Some kd' ->
  length (KdTree.agentTree kd') = length (KdTree.agentTree kd)
  /\ (childrenAbove (KdTree.agentTree kd) -> childrenAbove (KdTree.agentTree kd')).
Proof.
  induction fuel as [| fuel IH]; intros begin_ end_ node kd kd'; [discriminate |].
  rewrite buildAgentTreeRecursive_S.
  destruct (KdTree.agentTree kd !! node) as [n0 |]; [| discriminate]. cbn [mbind option_bind].
  destruct (kdPosition s (KdTree.agents kd) begin_) as [p |]; [| discriminate]. cbn [mbind option_bind].
  destruct (boundingBox s _ _ _ _) as [n1 |] eqn:Hbox; [| discriminate]. cbn [mbind option_bind].
  destruct (boundingBox_bounds s _ _ _ _ _ Hbox) as [Hb He]. simpl in Hb, He.
  destruct (Nat.ltb_spec KdTree.MAX_LEAF_SIZE (end_ - begin_)) as [Hinner | Hleaf].
  - cbv zeta.
    destruct (partitionLoop s _ _ _ _ _ _) as [[[agents' left0] right0] |];
      [| discriminate]. cbn [mbind option_bind]. cbv zeta.
    cbn [AgentTreeNode.left AgentTreeNode.right].
    set (leftSize := if (left0 - begin_ =? 0)%nat then 1 else left0 - begin_).
    set (left := if (left0 - begin_ =? 0)%nat then S left0 else left0).
    destruct (buildAgentTreeRecursive s fuel begin_ left (node + 1) _) as [kd2 |] eqn:E1;
      [| discriminate]. cbn [mbind option_bind].
    intros E2.
    destruct (IH _ _ _ _ _ E1) as [Hlen1 Hwf1].
    destruct (IH _ _ _ _ _ E2) as [Hlen2 Hwf2].
    simpl in Hlen1, Hwf1. rewrite length_insert in Hlen1.
    split; [lia |]. intros Hwf. apply Hwf2, Hwf1.
    apply childrenAbove_insert; [exact Hwf |]. simpl. intros _.
    assert (1 <= leftSize) by (subst leftSize; destruct (_ =? _)%nat eqn:E;
                               [lia | apply Nat.eqb_neq in E; lia]).
    lia.
  - intros [= <-]. simpl. rewrite length_insert. split; [reflexivity |].
    intros Hwf. apply childrenAbove_insert; [exact Hwf |]. rewrite Hb, He. lia.
Qed.

(** Fuel beyond the end of the tree array is not used: a call on a node
    number outside the array fails whatever the fuel. *)
Lemma buildAgentTreeRecursive_fuel_S : forall (fuel begin_ end_ node : nat)
    (kd : KdTree.t),
  length (KdTree.agentTree kd) <= node + fuel ->
  buildAgentTreeRecursive s (S fuel) begin_ end_ node kd
  = buildAgentTreeRecursive s fuel begin_ end_ node kd.
Proof.
  induction fuel as [| fuel IH]; intros begin_ end_ node kd Hlen.
  - rewrite buildAgentTreeRecursive_S.
    rewrite (proj2 (lookup_ge_None (KdTree.agentTree kd) node)) by lia. reflexivity.
  - rewrite (buildAgentTreeRecursive_S (S fuel)), (buildAgentTreeRecursive_S fuel).
    destruct (KdTree.agentTree kd !! node) as [n0 |]; [| reflexivity]. cbn [mbind option_bind].
    destruct (kdPosition s (KdTree.agents kd) begin_) as [p |]; [| reflexivity]. cbn [mbind option_bind].
    destruct (boundingBox s _ _ _ _) as [n1 |]; [| reflexivity]. cbn [mbind option_bind].
    destruct (KdTree.MAX_LEAF_SIZE <? end_ - begin_)%nat; [| reflexivity].
    cbv zeta.
    destruct (partitionLoop s _ _ _ _ _ _) as [[[agents' left0] right0] |];
      [| reflexivity]. cbn [mbind option_bind]. cbv zeta.
    cbn [AgentTreeNode.left AgentTreeNode.right].
    set (leftSize := if (left0 - begin_ =? 0)%nat then 1 else left0 - begin_).
    assert (1 <= leftSize) by (subst leftSize; destruct (_ =? _)%nat eqn:E;
                               [lia | apply Nat.eqb_neq in E; lia]).
    rewrite IH by (simpl; rewrite length_insert; lia).
    destruct (buildAgentTreeRecursive s fuel begin_ _ (node + 1) _) as [kd2 |] eqn:E1;
      [| reflexivity]. cbn [mbind option_bind].
    destruct (buildAgentTreeRecursive_tree _ _ _ _ _ _ E1) as [Hlen1 _].
    simpl in Hlen1. rewrite length_insert in Hlen1.
    apply IH. lia.
Qed.

Lemma childrenAbove_replicate (n : nat) :
  childrenAbove (replicate n AgentTreeNode.new).
Proof.
  intros node m Hm. apply lookup_replicate in Hm as [-> _]. simpl. lia.
Qed.

(** [buildAgentTree] keeps the tree array in that shape. *)
Lemma buildAgentTree_childrenAbove (kd kd' : KdTree.t) :
  childrenAbove (KdTree.agentTree kd) ->
  buildAgentTree s kd = Some kd' ->
  childrenAbove (KdTree.agentTree kd').
Proof.
  intros Hwf. unfold buildAgentTree.
  set (kd1 := if decide (length (KdTree.agents kd) = getNumAgents s) then _ else _).
  assert (Hwf1 : childrenAbove (KdTree.agentTree kd1)).
  { subst kd1. destruct (decide _); [exact Hwf | apply childrenAbove_replicate]. }
  destruct (decide (length (KdTree.agents kd1) = 0)); [by intros [= <-] |].
  intros H. by apply (buildAgentTreeRecursive_tree _ _ _ _ _ _ H).
Qed.

Lemma buildAgentTreeRecursive_fuel (fuel begin_ end_ : nat) (kd : KdTree.t) :
  S (length (KdTree.agentTree kd)) <= fuel ->
  buildAgentTreeRecursive s fuel begin_ end_ 0 kd
  = buildAgentTreeRecursive s (S (length (KdTree.agentTree kd))) begin_ end_ 0 kd.
Proof.
  intros Hlen.
  replace fuel with ((fuel - S (length (KdTree.agentTree kd)))
                     + S (length (KdTree.agentTree kd))) by lia.
  induction (fuel - S (length (KdTree.agentTree kd))) as [| d IH]; [reflexivity |].
  rewrite Nat.add_succ_l, buildAgentTreeRecursive_fuel_S by lia. exact IH.
Qed.

Lemma queryAgentTreeRecursive_S (fuel : nat) (kd : KdTree.t) (self node : nat)
    (st : Agent.t * float) :
  queryAgentTreeRecursive s (S fuel) kd self node st
  = (n ← KdTree.agentTree kd !! node;
     if (AgentTreeNode.end_ n - AgentTreeNode.begin_ n <=? KdTree.MAX_LEAF_SIZE)%nat then
       insertLeaf s kd self
         (seq (AgentTreeNode.begin_ n) (AgentTreeNode.end_ n - AgentTreeNode.begin_ n)) st
     else
       nl ← KdTree.agentTree kd !! AgentTreeNode.left n;
       nr ← KdTree.agentTree kd !! AgentTreeNode.right n;
       let distSqLeft := distSqBox (Agent.position st.1) nl in
       let distSqRight := distSqBox (Agent.position st.1) nr in
       if Num.lt distSqLeft distSqRight then
         if Num.lt distSqLeft st.2 then
           st1 ← queryAgentTreeRecursive s fuel kd self (AgentTreeNode.left n) st;
           if Num.lt distSqRight st1.2 then
             queryAgentTreeRecursive s fuel kd self (AgentTreeNode.right n) st1
           else Some st1
         else Some st
       else
         if Num.lt distSqRight st.2 then
           st1 ← queryAgentTreeRecursive s fuel kd self (AgentTreeNode.right n) st;
           if Num.lt distSqLeft st1.2 then
             queryAgentTreeRecursive s fuel kd self (AgentTreeNode.left n) st1
           else Some st1
         else Some st).
Proof. reflexivity. Qed.

(** The same for the query, on a tree whose inner nodes have children with
    larger numbers. *)
Lemma queryAgentTreeRecursive_fuel_S (kd : KdTree.t) (self : nat) :
  childrenAbove (KdTree.agentTree kd) ->
  forall (fuel node : nat) (st : Agent.t * float),
  length (KdTree.agentTree kd) <= node + fuel ->
  queryAgentTreeRecursive s (S fuel) kd self node st
  = queryAgentTreeRecursive s fuel kd self node st.
Proof.
  intros Hwf. induction fuel as [| fuel IH]; intros node st Hlen.
  - rewrite queryAgentTreeRecursive_S.
    rewrite (proj2 (lookup_ge_None (KdTree.agentTree kd) node)) by lia. reflexivity.
  - rewrite (queryAgentTreeRecursive_S (S fuel)), (queryAgentTreeRecursive_S fuel).
    destruct (KdTree.agentTree kd !! node) as [n |] eqn:Hn; [| reflexivity].
    cbn [mbind option_bind].
    destruct (Nat.leb_spec (AgentTreeNode.end_ n - AgentTreeNode.begin_ n)
                           KdTree.MAX_LEAF_SIZE) as [Hleaf | Hinner]; [reflexivity |].
    destruct (Hwf node n Hn Hinner) as [Hl Hr].
    destruct (KdTree.agentTree kd !! AgentTreeNode.left n) as [nl |]; [| reflexivity].
    destruct (KdTree.agentTree kd !! AgentTreeNode.right n) as [nr |]; [| reflexivity].
    cbn [mbind option_bind]. cbv zeta.
    rewrite (IH (AgentTreeNode.left n) st), (IH (AgentTreeNode.right n) st) by lia.
    destruct (Num.lt (distSqBox _ nl) (distSqBox _ nr)).
    + destruct (Num.lt (distSqBox _ nl) st.2); [| reflexivity].
      destruct (queryAgentTreeRecursive s fuel kd self (AgentTreeNode.left n) st)
        as [st1 |]; [| reflexivity].
      cbn [mbind option_bind].
      rewrite (IH (AgentTreeNode.right n) st1) by lia. reflexivity.
    + destruct (Num.lt (distSqBox _ nr) st.2); [| reflexivity].
      destruct (queryAgentTreeRecursive s fuel kd self (AgentTreeNode.right n) st)
        as [st1 |]; [| reflexivity].
      cbn [mbind option_bind].
      rewrite (IH (AgentTreeNode.left n) st1) by lia. reflexivity.
Qed.

(** Hence the fuel [computeAgentNeighbors] gives is enough: more fuel gives
    the same result. *)
Lemma queryAgentTreeRecursive_fuel (kd : KdTree.t) (self fuel : nat)
    (st : Agent.t * float) :
  childrenAbove (KdTree.agentTree kd) ->
  S (length (KdTree.agentTree kd)) <= fuel ->
  queryAgentTreeRecursive s fuel kd self 0 st
  = computeAgentNeighbors s kd self st.1 st.2.
Proof.
  intros Hwf Hlen. unfold computeAgentNeighbors. rewrite <- surjective_pairing.
  replace fuel with ((fuel - S (length (KdTree.agentTree kd)))
                     + S (length (KdTree.agentTree kd))) by lia.
  induction (fuel - S (length (KdTree.agentTree kd))) as [| d IH]; [reflexivity |].
  rewrite Nat.add_succ_l, queryAgentTreeRecursive_fuel_S by (assumption || lia).
  exact IH.
Qed.
End AgentTreeFuel.

(** ** A step that throws *)

Section StepOverflow.
Import Simulator.
Local Open Scope float_scope.

(** Eleven agents in a row, far out on the x axis: one more than a leaf of
    the agent tree holds, and the sum of the largest and the smallest x is
    beyond the largest double. *)
Definition overflowScene : Simulator.t :=
  foldl (fun s x => (addAgent (Vector2.mk x 0) s).2)
        (setAgentDefaults 15 10 10 10 2 2 (Vector2.mk 0 0) fresh)
        [1.00e308; 1.01e308; 1.02e308; 1.03e308; 1.04e308; 1.05e308;
         1.06e308; 1.07e308; 1.08e308; 1.09e308; 1.10e308].

(** The tree array [buildAgentTree] allocates for [overflowScene]. *)
Definition overflowTree : KdTree.t :=
  KdTree.mk (seq 0 11) (replicate 22 AgentTreeNode.new) ONull.

(** C8 at [overflowScene], where the global time is 0 and the time step
    0.1: [doStep] does not return 0.1, it throws.  [buildAgentTreeRecursive]
    takes [0.5 * (maxX + minX)] as the split value, which is infinite here;
    every agent is below it, the left part is the whole range and the right
    child gets the number [node + 22], outside the array; the calls on the
    left part repeat that on the nodes 1, 2, ... until node 22 is not there.
    The code guards the case of an empty left part ([leftSize === 0]) but not
    that of an empty right part.  No amount of fuel changes the result. *)
Theorem doStep_throws_on_overflow :
  getNumAgents overflowScene = 11%nat
  /\ globalTime overflowScene = 0
  /\ timeStep overflowScene = 0.1
  /\ (1.10e308 + 1.00e308 = infinity /\ 0.5 * infinity = infinity)
  /\ (forall fuel, buildAgentTreeRecursive overflowScene fuel 0 11 0 overflowTree = None)
  /\ buildAgentTree overflowScene (kdTree overflowScene) = None
  /\ doStep overflowScene = None.
Proof.
  split; [reflexivity |]. split; [reflexivity |]. split; [reflexivity |].
  split; [split; reflexivity |]. split; [| split; vm_compute; reflexivity].
  intros fuel. destruct (le_lt_dec 23 fuel) as [Hge | Hlt].
  - rewrite buildAgentTreeRecursive_fuel by (simpl; lia). vm_compute. reflexivity.
  - do 23 (destruct fuel as [| fuel]; [vm_compute; reflexivity |]). lia.
Qed.
End StepOverflow.

(** ** The order of JavaScript numbers is transitive *)

Section NumberOrderTrans.

(** [SFcompare] is a lexicographic comparison of sign, exponent and
    mantissa, hence transitive on the operands it compares. *)
Definition leC (c : comparison) : bool :=
  match c with Gt => false | _ => true end.

Lemma SFcompare_trans (x y z : spec_float) (c d : comparison) :
  SFcompare x y = Some c -> SFcompare y z = Some d ->
  leC c = true -> leC d = true ->
  exists e, SFcompare x z = Some e /\ leC e = true
            /\ (e = Eq -> c = Eq /\ d = Eq).
Proof.
  destruct x as [sx | sx | | sx mx ex], y as [sy | sy | | sy my ey],
           z as [sz | sz | | sz mz ez];
    simpl; intros Hc Hd; inversion Hc; inversion Hd; subst; clear Hc Hd;
    try (destruct sx); try (destruct sy); try (destruct sz); simpl;
    intros Hlc Hld; try discriminate;
    try (eexists; split; [reflexivity |]; split; [reflexivity |];
         intros; try discriminate; split; reflexivity).
  all: change (PosDef.Pos.compare_cont Eq ?a ?b) with (Pos.compare a b) in *.
  all: destruct (Z.compare_spec ex ey), (Z.compare_spec ey ez), (Z.compare_spec ex ez);
         try lia; subst; simpl in *; try discriminate;
         try (eexists; split; [reflexivity |]; split; [reflexivity |];
              intros; try discriminate; split; reflexivity).
  all: destruct (Pos.compare_spec mx my), (Pos.compare_spec my mz),
                (Pos.compare_spec mx mz);
         try lia; subst; simpl in *; try discriminate;
         try (eexists; split; [reflexivity |]; split; [reflexivity |];
              intros; try discriminate; split; reflexivity).
Qed.

Lemma le_trans (a b c : float) :
  Num.le a b = true -> Num.le b c = true -> Num.le a c = true.
Proof.
  unfold Num.le. rewrite !leb_spec. unfold SFleb.
  destruct (SFcompare (Prim2SF a) (Prim2SF b)) as [c1 |] eqn:E1; [| discriminate].
  destruct (SFcompare (Prim2SF b) (Prim2SF c)) as [c2 |] eqn:E2; [| discriminate].
  intros H1 H2.
  destruct (SFcompare_trans _ _ _ _ _ E1 E2) as (e & -> & He & _);
    [by destruct c1 | by destruct c2 |].
  by destruct e.
Qed.

Lemma lt_le_trans (a b c : float) :
  Num.lt a b = true -> Num.le b c = true -> Num.lt a c = true.
Proof.
  unfold Num.lt, Num.le. rewrite !ltb_spec, leb_spec. unfold SFltb, SFleb.
  destruct (SFcompare (Prim2SF a) (Prim2SF b)) as [c1 |] eqn:E1; [| discriminate].
  destruct (SFcompare (Prim2SF b) (Prim2SF c)) as [c2 |] eqn:E2; [| discriminate].
  intros H1 H2.
  destruct (SFcompare_trans _ _ _ _ _ E1 E2) as (e & -> & He & Heq);
    [by destruct c1 | by destruct c2 |].
  destruct e; try done. destruct (Heq eq_refl) as [-> _]. discriminate.
Qed.

Lemma le_lt_trans (a b c : float) :
  Num.le a b = true -> Num.lt b c = true -> Num.lt a c = true.
Proof.
  unfold Num.lt, Num.le. rewrite !ltb_spec, leb_spec. unfold SFltb, SFleb.
  destruct (SFcompare (Prim2SF a) (Prim2SF b)) as [c1 |] eqn:E1; [| discriminate].
  destruct (SFcompare (Prim2SF b) (Prim2SF c)) as [c2 |] eqn:E2; [| discriminate].
  intros H1 H2.
  destruct (SFcompare_trans _ _ _ _ _ E1 E2) as (e & -> & He & Heq);
    [by destruct c1 | by destruct c2 |].
  destruct e; try done. destruct (Heq eq_refl) as [_ ->]. discriminate.
Qed.

Lemma le_refl (a : float) : ordered a -> Num.le a a = true.
Proof.
  intros Ha. apply not_lt_le; [exact Ha | exact Ha |].
  destruct (Num.lt a a) eqn:E; [| reflexivity].
  by rewrite (lt_asym _ _ E) in E.
Qed.

Lemma lt_ordered_r (a b : float) : Num.lt a b = true -> ordered a.
Proof. intros H. by exists b. Qed.

Lemma le_total (a b : float) :
  ordered a -> ordered b -> Num.le a b = true \/ Num.le b a = true.
Proof.
  intros Ha Hb. destruct (Num.lt a b) eqn:E.
  - left. by apply lt_le.
  - right. by apply not_lt_le.
Qed.
End NumberOrderTrans.

(** ** addObstacle: the ring of a polygon *)

Section AddObstacle.
Import Simulator.

Variables (vertices : list Vector2.t) (obstacles0 : list Obstacle.t).

Let n := length vertices.
Let base := length obstacles0.

(** The links of vertex [i] of the polygon once [k] of its vertices are in
    the list. *)
Definition ringNext (k i : nat) : option nat :=
  if (S i <? k)%nat then Some (base + S i)
  else if (i =? n - 1)%nat then Some base else None.

Definition ringPrev (k i : nat) : option nat :=
  if (i =? 0)%nat then (if (k =? n)%nat then Some (base + (n - 1)) else None)
  else Some (base + (i - 1)).

Definition ringLinked (k : nat) (obstacles : list Obstacle.t) : Prop :=
  length obstacles = base + k
  /\ (forall j, j < base -> obstacles !! j = obstacles0 !! j)
  /\ (forall i, i < k ->
        exists o, obstacles !! (base + i) = Some o
                  /\ Obstacle.next o = ringNext k i
                  /\ Obstacle.previous o = ringPrev k i
                  /\ Obstacle.point o = vertexAt vertices i
                  /\ Obstacle.id o = base + i
                  /\ (n = 2 -> Obstacle.convex o = true)).

(** [addObstacle_step] with its two conditional updates spelled out. *)
Lemma addObstacle_step_eq (obstacleNo : nat) (obstacles : list Obstacle.t) (i : nat) :
  let self := length obstacles in
  let last := (i =? length vertices - 1)%nat in
  addObstacle_step vertices obstacleNo obstacles i
  = (if last then alter (Obstacle.set_previous (Some self)) obstacleNo
             else (fun l => l))
      ((if (i =? 0)%nat then (fun l => l)
        else alter (Obstacle.set_next (Some self)) (self - 1)) obstacles)
    ++ [Obstacle.mk (if last then Some obstacleNo else None)
          (if (i =? 0)%nat then None else Some (self - 1))
          (RVOMath.normalize
             (Vector2.subtract (vertexAt vertices (if last then 0 else i + 1))
                               (vertexAt vertices i)))
          (vertexAt vertices i) self
          (if (length vertices =? 2)%nat then true
           else Num.ge (RVOMath.leftOf
                          (vertexAt vertices
                             (if (i =? 0)%nat then length vertices - 1 else i - 1))
                          (vertexAt vertices i)
                          (vertexAt vertices (if last then 0 else i + 1))) 0.0%float)].
Proof.
  unfold addObstacle_step.
  destruct (i =? 0)%nat, (i =? length vertices - 1)%nat; reflexivity.
Qed.

Lemma addObstacle_step_linked (k : nat) (obstacles : list Obstacle.t) :
  2 <= n -> k < n -> ringLinked k obstacles ->
  ringLinked (S k) (addObstacle_step vertices base obstacles k).
Proof.
  intros Hn Hk (Hlen & Hold & Hring). rewrite addObstacle_step_eq. fold n.
  rewrite Hlen.
  set (new := Obstacle.mk _ _ _ _ _ _).
  set (o1 := (if (k =? 0)%nat then _ else _) obstacles).
  set (o2 := (if (k =? n - 1)%nat then _ else _) o1).
  assert (Hlen1 : length o1 = base + k).
  { subst o1. destruct (k =? 0)%nat; [| rewrite length_alter]; exact Hlen. }
  assert (Hlen2 : length o2 = base + k).
  { subst o2. destruct (k =? n - 1)%nat; [rewrite length_alter |]; exact Hlen1. }
  split; [| split].
  - rewrite length_app, Hlen2. simpl. lia.
  - intros j Hj. rewrite lookup_app_l by lia. rewrite <- (Hold j Hj).
    subst o2 o1.
    destruct (Nat.eqb_spec k (n - 1)), (Nat.eqb_spec k 0);
      rewrite ?list_lookup_alter_ne by lia; reflexivity.
  - intros i Hi. destruct (decide (i = k)) as [-> | Hne].
    + exists new. rewrite lookup_app_r by lia.
      replace (base + k - length o2) with 0 by lia. split; [reflexivity |].
      subst new. simpl. unfold ringNext, ringPrev.
      repeat match goal with
             | |- context [Nat.ltb ?a ?b] => destruct (Nat.ltb_spec a b)
             | |- context [Nat.eqb ?a ?b] => destruct (Nat.eqb_spec a b)
             end;
        repeat split; try reflexivity; try lia; try (f_equal; lia);
        intros; try lia; try congruence.
    + destruct (Hring i) as (o & Ho & Hnext & Hprev & Hpt & Hid & Hcv); [lia |].
      rewrite lookup_app_l by lia.
      assert (Ho1 : o1 !! (base + i)
                    = Some (if decide (i = k - 1) then Obstacle.set_next (Some (base + k)) o
                            else o)).
      { subst o1. destruct (Nat.eqb_spec k 0); [lia |].
        destruct (decide (i = k - 1)) as [-> | Hne'].
        - replace (base + k - 1) with (base + (k - 1)) by lia.
          rewrite list_lookup_alter_eq, Ho. reflexivity.
        - rewrite list_lookup_alter_ne by lia. exact Ho. }
      set (oa := if decide (i = k - 1) then _ else o) in Ho1.
      assert (Ho2 : o2 !! (base + i)
                    = Some (if (k =? n - 1)%nat && (i =? 0)%nat
                            then Obstacle.set_previous (Some (base + k)) oa else oa)).
      { subst o2. destruct (Nat.eqb_spec k (n - 1)); [| exact Ho1].
        destruct (Nat.eqb_spec i 0) as [-> | Hi0]; simpl.
        - replace (base + 0) with base in * by lia.
          rewrite list_lookup_alter_eq, Ho1. reflexivity.
        - rewrite list_lookup_alter_ne by lia. exact Ho1. }
      eexists. split; [exact Ho2 |].
      subst oa. unfold ringNext, ringPrev in *.
      destruct (Nat.eqb_spec k (n - 1)), (Nat.eqb_spec i 0), (decide (i = k - 1));
        unfold Obstacle.set_next, Obstacle.set_previous;
        cbn [andb Obstacle.next Obstacle.previous Obstacle.point Obstacle.id
             Obstacle.convex];
        rewrite ?Hnext, ?Hprev, ?Hpt, ?Hid;
        repeat match goal with
               | |- context [Nat.ltb ?a ?b] => destruct (Nat.ltb_spec a b)
               | |- context [Nat.eqb ?a ?b] => destruct (Nat.eqb_spec a b)
               end;
        repeat split; try reflexivity; try lia; try (f_equal; lia); try exact Hcv.
Qed.

Lemma addObstacle_fold_linked (k : nat) :
  2 <= n -> k <= n ->
  ringLinked k (foldl (addObstacle_step vertices base) obstacles0 (seq 0 k)).
Proof.
  intros Hn. induction k as [| k IH]; intros Hk.
  - simpl. split; [lia |]. split; [reflexivity | intros i Hi; lia].
  - rewrite seq_S, foldl_app. simpl. apply addObstacle_step_linked; [lia | lia |].
    apply IH. lia.
Qed.
End AddObstacle.

(** ** The links between obstacle vertices *)

Section ObstacleLinks.

(** The link fields of the vertex at an index, as far as they can be read. *)
Definition nextOf (arena : list Obstacle.t) (k : nat) : option nat :=
  o ← arena !! k; Obstacle.next o.
Definition prevOf (arena : list Obstacle.t) (k : nat) : option nat :=
  o ← arena !! k; Obstacle.previous o.

(** The vertices form doubly linked rings, and each carries its index as
    [id]. *)
Definition linked (arena : list Obstacle.t) : Prop :=
  (forall k o, arena !! k = Some o -> Obstacle.id o = k)
  /\ (forall k, k < length arena ->
        exists n, nextOf arena k = Some n /\ prevOf arena n = Some k)
  /\ (forall k, k < length arena ->
        exists p, prevOf arena k = Some p /\ nextOf arena p = Some k).

(** What a later state keeps of the vertices of an earlier one: everything
    but the links. *)
Definition sameVertices (arena arena' : list Obstacle.t) : Prop :=
  forall k o, arena !! k = Some o ->
    exists o', arena' !! k = Some o'
               /\ Obstacle.point o' = Obstacle.point o
               /\ Obstacle.direction o' = Obstacle.direction o
               /\ Obstacle.convex o' = Obstacle.convex o
               /\ Obstacle.id o' = Obstacle.id o.

Lemma sameVertices_refl (arena : list Obstacle.t) : sameVertices arena arena.
Proof. intros k o Ho. eauto 10. Qed.

Lemma sameVertices_trans (a b c : list Obstacle.t) :
  sameVertices a b -> sameVertices b c -> sameVertices a c.
Proof.
  intros Hab Hbc k o Ho.
  destruct (Hab k o Ho) as (o1 & Ho1 & E1 & E2 & E3 & E4).
  destruct (Hbc k o1 Ho1) as (o2 & Ho2 & F1 & F2 & F3 & F4).
  exists o2. repeat split; congruence.
Qed.

Lemma sameVertices_length (a b : list Obstacle.t) :
  sameVertices a b -> length a <= length b.
Proof.
  intros H. destruct (decide (length a = 0)) as [| Hne]; [lia |].
  destruct (lookup_lt_is_Some_2 a (length a - 1)) as [o Ho]; [lia |].
  destruct (H _ _ Ho) as (o' & Ho' & _). apply lookup_lt_Some in Ho'. lia.
Qed.

Lemma nextOf_lt (arena : list Obstacle.t) (k n : nat) :
  nextOf arena k = Some n -> k < length arena.
Proof.
  unfold nextOf. destruct (arena !! k) eqn:E; [| discriminate].
  intros _. by eapply lookup_lt_Some.
Qed.

Lemma prevOf_lt (arena : list Obstacle.t) (k p : nat) :
  prevOf arena k = Some p -> k < length arena.
Proof.
  unfold prevOf. destruct (arena !! k) eqn:E; [| discriminate].
  intros _. by eapply lookup_lt_Some.
Qed.

(** The arena after a cut of the edge from [oj] to [j2] by a new vertex. *)
Definition cutArena (arena : list Obstacle.t) (oj j2 : nat) (newObstacle : Obstacle.t)
    : list Obstacle.t :=
  alter (Obstacle.set_previous (Some (length arena))) j2
    (alter (Obstacle.set_next (Some (length arena))) oj (arena ++ [newObstacle])).

Lemma cutArena_length (arena : list Obstacle.t) (oj j2 : nat) (o : Obstacle.t) :
  length (cutArena arena oj j2 o) = S (length arena).
Proof. unfold cutArena. rewrite !length_alter, length_app. simpl. lia. Qed.

Lemma cutArena_lookup (arena : list Obstacle.t) (oj j2 : nat) (new : Obstacle.t) (k : nat) :
  oj < length arena -> j2 < length arena ->
  cutArena arena oj j2 new !! k
  = (fun o => if decide (j2 = k) then Obstacle.set_previous (Some (length arena)) o else o)
    <$> ((fun o => if decide (oj = k) then Obstacle.set_next (Some (length arena)) o else o)
         <$> (arena ++ [new]) !! k).
Proof.
  intros Hoj Hj2. unfold cutArena. rewrite !list_lookup_alter.
  destruct (decide (j2 = k)) as [-> |], (decide (oj = k)) as [-> |];
    destruct ((arena ++ [new]) !! k); reflexivity.
Qed.

Lemma cutArena_nextOf (arena : list Obstacle.t) (oj j2 : nat) (new : Obstacle.t) (k : nat) :
  oj < length arena -> j2 < length arena ->
  nextOf (cutArena arena oj j2 new) k
  = if decide (k = oj) then Some (length arena)
    else if decide (k = length arena) then Obstacle.next new
    else nextOf arena k.
Proof.
  intros Hoj Hj2. unfold nextOf. rewrite cutArena_lookup by assumption.
  destruct (decide (k = oj)) as [-> |].
  - rewrite lookup_app_l by lia.
    destruct (lookup_lt_is_Some_2 arena oj Hoj) as [o ->]. simpl.
    repeat case_decide; done.
  - destruct (decide (k = length arena)) as [-> |].
    + rewrite lookup_app_r by lia. rewrite Nat.sub_diag. simpl.
      repeat case_decide; done || lia.
    + destruct (decide (k < length arena)).
      * rewrite lookup_app_l by lia. destruct (arena !! k) as [o |]; [| done]. simpl.
        repeat case_decide; done || lia.
      * rewrite !lookup_ge_None_2; [done | lia |].
        rewrite length_app. simpl. lia.
Qed.

Lemma cutArena_prevOf (arena : list Obstacle.t) (oj j2 : nat) (new : Obstacle.t) (k : nat) :
  oj < length arena -> j2 < length arena ->
  prevOf (cutArena arena oj j2 new) k
  = if decide (k = j2) then Some (length arena)
    else if decide (k = length arena) then Obstacle.previous new
    else prevOf arena k.
Proof.
  intros Hoj Hj2. unfold prevOf. rewrite cutArena_lookup by assumption.
  destruct (decide (k = j2)) as [-> |].
  - rewrite lookup_app_l by lia.
    destruct (lookup_lt_is_Some_2 arena j2 Hj2) as [o ->]. simpl.
    repeat case_decide; done.
  - destruct (decide (k = length arena)) as [-> |].
    + rewrite lookup_app_r by lia. rewrite Nat.sub_diag. simpl.
      repeat case_decide; done || lia.
    + destruct (decide (k < length arena)).
      * rewrite lookup_app_l by lia. destruct (arena !! k) as [o |]; [| done]. simpl.
        repeat case_decide; done || lia.
      * rewrite !lookup_ge_None_2; [done | lia |].
        rewrite length_app. simpl. lia.
Qed.

Lemma cutArena_sameVertices (arena : list Obstacle.t) (oj j2 : nat) (new : Obstacle.t) :
  sameVertices arena (cutArena arena oj j2 new).
Proof.
  intros k o Ho. unfold cutArena. rewrite !list_lookup_alter.
  assert (Hk : (arena ++ [new]) !! k = Some o).
  { rewrite lookup_app_l; [exact Ho | by eapply lookup_lt_Some]. }
  repeat case_decide; subst; rewrite Hk; simpl;
    (eexists; split; [reflexivity |]; by destruct o).
Qed.

Lemma cutArena_linked (arena : list Obstacle.t) (oj j2 : nat) (new : Obstacle.t) :
  linked arena -> nextOf arena oj = Some j2 ->
  Obstacle.next new = Some j2 -> Obstacle.previous new = Some oj ->
  Obstacle.id new = length arena ->
  linked (cutArena arena oj j2 new).
Proof.
  intros (Hid & Hnext & Hprev) Hoj2 Hn Hp Hi.
  assert (Hoj : oj < length arena) by (by eapply nextOf_lt).
  destruct (Hnext oj Hoj) as (n & Hn' & Hpj2). rewrite Hoj2 in Hn'.
  injection Hn' as <-.
  assert (Hj2 : j2 < length arena) by (by eapply prevOf_lt).
  split; [| split].
  - intros k o Ho.
    destruct (decide (k < length arena)) as [Hk | Hk].
    + destruct (lookup_lt_is_Some_2 arena k Hk) as [o0 Ho0].
      destruct (cutArena_sameVertices arena oj j2 new k o0 Ho0) as (o' & Ho' & _ & _ & _ & E).
      rewrite Ho in Ho'. injection Ho' as <-. rewrite E. by apply Hid.
    + assert (Hk' : k = length arena).
      { apply lookup_lt_Some in Ho. rewrite cutArena_length in Ho. lia. }
      subst k. rewrite cutArena_lookup in Ho by assumption.
      rewrite lookup_app_r in Ho by lia. rewrite Nat.sub_diag in Ho. simpl in Ho.
      rewrite !decide_False in Ho by lia. injection Ho as <-. exact Hi.
  - intros k Hk. rewrite cutArena_length in Hk.
    rewrite cutArena_nextOf by assumption.
    destruct (decide (k = oj)) as [-> |].
    { exists (length arena). split; [done |]. rewrite cutArena_prevOf by assumption.
      rewrite decide_False by lia. rewrite decide_True by done. exact Hp. }
    destruct (decide (k = length arena)) as [-> |].
    { exists j2. split; [exact Hn |]. rewrite cutArena_prevOf by assumption.
      by rewrite decide_True. }
    destruct (Hnext k) as (nk & Hkn & Hnk); [lia |].
    exists nk. split; [exact Hkn |]. rewrite cutArena_prevOf by assumption.
    assert (nk <> j2) by (intros ->; congruence).
    assert (nk < length arena) by (by eapply prevOf_lt).
    rewrite !decide_False by lia. exact Hnk.
  - intros k Hk. rewrite cutArena_length in Hk.
    rewrite cutArena_prevOf by assumption.
    destruct (decide (k = j2)) as [-> |].
    { exists (length arena). split; [done |]. rewrite cutArena_nextOf by assumption.
      rewrite decide_False by lia. rewrite decide_True by done. exact Hn. }
    destruct (decide (k = length arena)) as [-> |].
    { exists oj. split; [exact Hp |]. rewrite cutArena_nextOf by assumption.
      by rewrite decide_True. }
    destruct (Hprev k) as (p & Hkp & Hpk); [lia |].
    exists p. split; [exact Hkp |]. rewrite cutArena_nextOf by assumption.
    assert (p <> oj) by (intros ->; congruence).
    assert (p < length arena) by (by eapply nextOf_lt).
    rewrite !decide_False by lia. exact Hpk.
Qed.
End ObstacleLinks.

(** ** What the obstacle tree holds *)

Section ObstacleTreeContents.

(** The vertices at the nodes of a tree. *)
Fixpoint treeList (node : ObstacleTreeNode) : list nat :=
  match node with
  | ONull => []
  | ONode obstacle l r => obstacle :: treeList l ++ treeList r
  end.

(** One round of the second loop: at most one vertex is appended, the edge
    goes to one list, or its two halves go one to each. *)
Lemma splitEdge_step (i : nat) (pI : Vector2.t * Vector2.t)
    (arena : list Obstacle.t) (leftObstacles rightObstacles : list nat) (j oj : nat) :
  oj < length arena ->
  let st' := splitEdge i pI (arena, leftObstacles, rightObstacles) (j, oj) in
  exists e,
    e <= 1 /\ length st'.1.1 = length arena + e
    /\ sameVertices arena st'.1.1
    /\ st'.1.2 ++ st'.2
       ≡ₚ leftObstacles ++ rightObstacles
          ++ (if decide (j = i) then [] else [oj]) ++ seq (length arena) e
    /\ (linked arena -> linked st'.1.1).
Proof.
  intros Hoj. unfold splitEdge.
  destruct (Nat.eqb_spec i j) as [-> | Hne].
  { exists 0. simpl. rewrite decide_True by done. simpl.
    rewrite !app_nil_r.
    split; [lia |]. split; [lia |]. split; [apply sameVertices_refl |]. done. }
  rewrite decide_False by congruence.
  destruct (classify arena pI oj).
  - exists 0. simpl. rewrite ?app_nil_r.
    split; [lia |]. split; [lia |]. split; [apply sameVertices_refl |].
    split; [| done].
    solve_Permutation.
  - exists 0. simpl. rewrite ?app_nil_r.
    split; [lia |]. split; [lia |]. split; [apply sameVertices_refl |].
    split; [| done].
    solve_Permutation.
  - exists 1. cbv zeta.
    set (obstacleJ1 := getObstacle arena oj).
    set (newObstacle := Obstacle.mk _ _ _ _ _ _).
    set (arena3 := match Obstacle.next obstacleJ1 with Some j2 => _ | None => _ end).
    assert (Hlen : length arena3 = length arena + 1).
    { subst arena3. destruct (Obstacle.next obstacleJ1);
        rewrite ?length_alter, length_app; simpl; lia. }
    assert (Hsame : sameVertices arena arena3).
    { subst arena3. destruct (Obstacle.next obstacleJ1) as [j2 |].
      - apply cutArena_sameVertices.
      - intros k o Ho. rewrite list_lookup_alter.
        assert (Hk : (arena ++ [newObstacle]) !! k = Some o).
        { rewrite lookup_app_l; [exact Ho | by eapply lookup_lt_Some]. }
        case_decide; subst; rewrite Hk; simpl;
          (eexists; split; [reflexivity |]; by destruct o). }
    assert (Hlinked : linked arena -> linked arena3).
    { intros Hl. subst arena3.
      assert (Hn : nextOf arena oj = Obstacle.next obstacleJ1).
      { unfold nextOf, obstacleJ1, getObstacle.
        destruct (lookup_lt_is_Some_2 arena oj Hoj) as [o ->]. reflexivity. }
      destruct (proj1 (proj2 Hl) oj Hoj) as (j2 & Hj2 & _).
      rewrite Hn in Hj2. rewrite Hj2.
      apply cutArena_linked; [exact Hl | by rewrite Hn | exact Hj2 | reflexivity
                             | reflexivity]. }
    destruct (Num.gt _ _); simpl;
      (split; [lia |]; split; [exact Hlen |]; split; [exact Hsame |];
       split; [| exact Hlinked]).
    + solve_Permutation.
    + solve_Permutation.
Qed.

Lemma splitEdge_fold (i : nat) (pI : Vector2.t * Vector2.t) :
  forall (jos : list (nat * nat)) (arena : list Obstacle.t)
         (leftObstacles rightObstacles : list nat),
  Forall (fun jo => jo.2 < length arena) jos ->
  let st' := foldl (splitEdge i pI) (arena, leftObstacles, rightObstacles) jos in
  length arena <= length st'.1.1
  /\ sameVertices arena st'.1.1
  /\ st'.1.2 ++ st'.2
     ≡ₚ leftObstacles ++ rightObstacles
        ++ (filter (fun jo => jo.1 <> i) jos).*2
        ++ seq (length arena) (length st'.1.1 - length arena)
  /\ (linked arena -> linked st'.1.1).
Proof.
  induction jos as [| [j oj] jos IH]; intros arena leftObstacles rightObstacles Hall.
  - simpl. rewrite Nat.sub_diag. simpl. rewrite !app_nil_r.
    split; [lia |]. split; [apply sameVertices_refl |]. done.
  - inversion Hall as [| ? ? Hoj Hrest]; subst. simpl in Hoj.
    destruct (splitEdge_step i pI arena leftObstacles rightObstacles j oj Hoj)
      as (e & He & Hlen & Hsame & Hperm & Hlinked).
    cbv zeta.
    change (foldl (splitEdge i pI) (arena, leftObstacles, rightObstacles) ((j, oj) :: jos))
      with (foldl (splitEdge i pI)
              (splitEdge i pI (arena, leftObstacles, rightObstacles) (j, oj)) jos).
    cbv zeta in Hlen, Hsame, Hperm, Hlinked.
    destruct (splitEdge i pI (arena, leftObstacles, rightObstacles) (j, oj))
      as [[arena1 left1] right1].
    simpl in Hlen, Hsame, Hperm, Hlinked.
    destruct (IH arena1 left1 right1) as (Hlen' & Hsame' & Hperm' & Hlinked').
    { eapply Forall_impl; [exact Hrest |]. simpl. intros; lia. }
    split; [lia |]. split; [by eapply sameVertices_trans |].
    split; [| tauto].
    rewrite Hperm'. rewrite (assoc_L (++) left1), Hperm.
    rewrite filter_cons. simpl.
    replace (length _ - length arena)
      with (e + (length (foldl (splitEdge i pI) (arena1, left1, right1) jos).1.1
                 - length arena1)) by lia.
    rewrite seq_app, <- Hlen.
    generalize (seq (length arena1)
                  (length (foldl (splitEdge i pI) (arena1, left1, right1) jos).1.1
                   - length arena1)).
    generalize (seq (length arena) e). intros l1 l2.
    destruct (decide (j = i)) as [-> | Hne].
    + rewrite decide_False by tauto. simpl. solve_Permutation.
    + rewrite decide_True by done. simpl. solve_Permutation.
Qed.

Lemma filter_imap_delete (i : nat) : forall (obstacles : list nat) (k : nat),
  (filter (fun jo : nat * nat => jo.1 <> i)
          (imap (fun j oj => (k + j, oj)) obstacles)).*2
  = if decide (k <= i) then delete (i - k) obstacles else obstacles.
Proof.
  induction obstacles as [| o obstacles IH]; intros k.
  - simpl. by case_decide.
  - rewrite imap_cons, filter_cons. cbn [fst].
    rewrite (imap_ext _ (fun j oj => (S k + j, oj)));
      [| intros j oj _; simpl; f_equal; lia].
    specialize (IH (S k)). replace (k + 0) with k by lia.
    destruct (decide (k = i)) as [-> | Hne].
    + rewrite decide_False by tauto. rewrite IH.
      rewrite decide_False by lia.
      rewrite decide_True by lia. by rewrite Nat.sub_diag.
    + rewrite decide_True by done. rewrite fmap_cons, IH. cbn [snd].
      destruct (decide (S k <= i)).
      * rewrite decide_True by lia.
        replace (i - k) with (S (i - S k)) by lia. reflexivity.
      * rewrite decide_False by lia. reflexivity.
Qed.

(** The tree built from a list of edges holds each of them once, and with
    them the vertices that cuts have appended; the vertices that were there
    keep their place and everything but their links. *)
Lemma buildObstacleTreeRecursive_contents :
  forall (fuel : nat) (obstacles : list nat) (arena : list Obstacle.t),
  length obstacles <= fuel ->
  Forall (fun o => o < length arena) obstacles ->
  let res := buildObstacleTreeRecursive fuel obstacles arena in
  sameVertices arena res.2
  /\ treeList res.1 ≡ₚ obstacles ++ seq (length arena) (length res.2 - length arena)
  /\ (linked arena -> linked res.2).
Proof.
  induction fuel as [| fuel IH]; intros obstacles arena Hlen Hall.
  { destruct obstacles; [| simpl in Hlen; lia]. simpl.
    rewrite Nat.sub_diag. split; [apply sameVertices_refl |]. done. }
  destruct obstacles as [| o os] eqn:Eo.
  { simpl. rewrite Nat.sub_diag. split; [apply sameVertices_refl |]. done. }
  rewrite <- Eo in *.
  assert (Hne : obstacles <> []) by (rewrite Eo; discriminate).
  pose proof (optimalSplit_lt arena obstacles Hne) as Hk.
  set (i := (optimalSplit arena obstacles).1.1) in *.
  destruct (lookup_lt_is_Some_2 obstacles i Hk) as [oi Hoi].
  pose proof (split_lists_shorter i (edgePoints arena oi) arena obstacles Hk) as [Hl Hr].
  assert (Hjos : Forall (fun jo : nat * nat => jo.2 < length arena)
                        (imap (fun j oj => (j, oj)) obstacles)).
  { apply Forall_forall. intros [j oj] Hin.
    apply elem_of_lookup_imap in Hin as (j' & oj' & [= -> ->] & Hj).
    simpl. apply (proj1 (Forall_forall _ _) Hall). by eapply list_elem_of_lookup_2. }
  pose proof (splitEdge_fold i (edgePoints arena oi) _ arena [] [] Hjos)
    as (Hlen1 & Hsame1 & Hperm1 & Hlinked1).
  assert (Hunfold : buildObstacleTreeRecursive (S fuel) obstacles arena
    = let '(arena1, leftObstacles, rightObstacles) :=
        foldl (splitEdge i (edgePoints arena oi)) (arena, [], [])
              (imap (fun j oj => (j, oj)) obstacles) in
      let '(l, arena2) := buildObstacleTreeRecursive fuel leftObstacles arena1 in
      let '(r, arena3) := buildObstacleTreeRecursive fuel rightObstacles arena2 in
      (ONode oi l r, arena3)).
  { rewrite Eo. simpl. rewrite <- Eo. fold i. rewrite Hoi. reflexivity. }
  rewrite Hunfold. clear Hunfold.
  destruct (foldl _ _ _) as [[arena1 leftObstacles] rightObstacles].
  simpl in Hl, Hr, Hlen1, Hsame1, Hperm1, Hlinked1.
  pose proof (filter_imap_delete i obstacles 0) as Hdel.
  rewrite decide_True in Hdel by lia. rewrite Nat.sub_0_r in Hdel.
  simpl in Hdel. rewrite Hdel in Hperm1. clear Hdel.
  assert (Hvalid : Forall (fun o => o < length arena1) (leftObstacles ++ rightObstacles)).
  { rewrite Hperm1. apply Forall_app. split.
    - apply Forall_forall. intros x Hx.
      assert (x ∈ obstacles) by (eapply elem_of_sublist; [exact Hx | apply sublist_delete]).
      pose proof (proj1 (Forall_forall _ _) Hall x ltac:(assumption)). simpl in *. lia.
    - apply Forall_forall. intros x Hx. apply elem_of_seq in Hx. lia. }
  apply Forall_app in Hvalid as [HvL HvR].
  pose proof (IH leftObstacles arena1 ltac:(lia) HvL) as (Hsame2 & Hperm2 & Hlinked2).
  destruct (buildObstacleTreeRecursive fuel leftObstacles arena1) as [l arena2].
  simpl in Hsame2, Hperm2, Hlinked2.
  pose proof (sameVertices_length _ _ Hsame2) as Hlen2.
  assert (HvR2 : Forall (fun o => o < length arena2) rightObstacles).
  { eapply Forall_impl; [exact HvR |]. simpl. intros; lia. }
  pose proof (IH rightObstacles arena2 ltac:(lia) HvR2) as (Hsame3 & Hperm3 & Hlinked3).
  destruct (buildObstacleTreeRecursive fuel rightObstacles arena2) as [r arena3].
  simpl in Hsame3, Hperm3, Hlinked3.
  pose proof (sameVertices_length _ _ Hsame3) as Hlen3.
  simpl. split; [| split; [| tauto]].
  { eapply sameVertices_trans; [exact Hsame1 |].
    eapply sameVertices_trans; [exact Hsame2 | exact Hsame3]. }
  rewrite Hperm2, Hperm3.
  replace (length arena3 - length arena)
    with ((length arena1 - length arena)
          + ((length arena2 - length arena1) + (length arena3 - length arena2))) by lia.
  rewrite !seq_app.
  replace (length arena + (length arena1 - length arena)) with (length arena1) by lia.
  replace (length arena1 + (length arena2 - length arena1)) with (length arena2) by lia.
  rewrite (delete_Permutation obstacles i oi Hoi) at 1.
  simpl. apply Permutation_skip.
  transitivity ((leftObstacles ++ rightObstacles)
                ++ seq (length arena1) (length arena2 - length arena1)
                ++ seq (length arena2) (length arena3 - length arena2)).
  { solve_Permutation. }
  rewrite Hperm1. solve_Permutation.
Qed.
End ObstacleTreeContents.

(** ** addObstacle and processObstacles *)

Section ObstacleTheorems.
Import Simulator.

Lemma addObstacle_obstacles (vertices : list Vector2.t) (s : Simulator.t) :
  2 <= length vertices ->
  addObstacle vertices s
  = (Z.of_nat (length (obstacles s)),
     set_obstacles (foldl (addObstacle_step vertices (length (obstacles s)))
                          (obstacles s) (seq 0 (length vertices))) s).
Proof.
  intros Hn. unfold addObstacle.
  destruct (Nat.ltb_spec (length vertices) 2); [lia | reflexivity].
Qed.

Lemma ringLinked_nextOf (vertices : list Vector2.t) (obstacles0 obstacles : list Obstacle.t)
    (i : nat) :
  2 <= length vertices -> i < length vertices ->
  ringLinked vertices obstacles0 (length vertices) obstacles ->
  nextOf obstacles (length obstacles0 + i)
  = Some (length obstacles0 + S i mod length vertices)
  /\ prevOf obstacles (length obstacles0 + i)
     = Some (length obstacles0 + (i + length vertices - 1) mod length vertices).
Proof.
  intros Hn Hi (_ & _ & Hring).
  destruct (Hring i Hi) as (o & Ho & Hnext & Hprev & _).
  unfold nextOf, prevOf. rewrite Ho. simpl. rewrite Hnext, Hprev.
  unfold ringNext, ringPrev. split.
  - destruct (Nat.ltb_spec (S i) (length vertices)).
    + by rewrite Nat.mod_small.
    + destruct (Nat.eqb_spec i (length vertices - 1)); [| lia].
      replace (S i) with (length vertices) by lia.
      rewrite Nat.Div0.mod_same. f_equal. lia.
  - rewrite Nat.eqb_refl. destruct (Nat.eqb_spec i 0) as [-> | Hne].
    + rewrite Nat.mod_small by lia. f_equal.
    + replace (i + length vertices - 1) with (i - 1 + 1 * length vertices) by lia.
      rewrite Nat.Div0.mod_add, Nat.mod_small by lia. reflexivity.
Qed.

Lemma addObstacle_linked (vertices : list Vector2.t) (s : Simulator.t) :
  linked (obstacles s) -> linked (obstacles (addObstacle vertices s).2).
Proof.
  intros Hl. destruct (decide (2 <= length vertices)) as [Hn | Hn].
  2: { unfold addObstacle. destruct (Nat.ltb_spec (length vertices) 2); [exact Hl | lia]. }
  rewrite addObstacle_obstacles by exact Hn. simpl.
  pose proof (addObstacle_fold_linked vertices (obstacles s) (length vertices) Hn
                ltac:(lia)) as Hring.
  set (obs' := foldl _ _ _) in *.
  destruct Hl as (Hid & Hnext & Hprev). destruct Hring as (Hlen & Hold & Hring') eqn:E.
  assert (HoldN : forall k, k < length (obstacles s) -> nextOf obs' k = nextOf (obstacles s) k).
  { intros k Hk. unfold nextOf. by rewrite Hold. }
  assert (HoldP : forall k, k < length (obstacles s) -> prevOf obs' k = prevOf (obstacles s) k).
  { intros k Hk. unfold prevOf. by rewrite Hold. }
  assert (Hmod : forall m, m mod length vertices < length vertices).
  { intros m. apply Nat.mod_upper_bound. lia. }
  split; [| split].
  - intros k o Ho. destruct (decide (k < length (obstacles s))) as [Hk | Hk].
    + apply Hid. by rewrite <- Hold.
    + assert (Hk' : k < length (obstacles s) + length vertices).
      { apply lookup_lt_Some in Ho. lia. }
      destruct (Hring' (k - length (obstacles s))) as (o' & Ho' & _ & _ & _ & Hi & _); [lia |].
      replace (length (obstacles s) + (k - length (obstacles s))) with k in * by lia.
      congruence.
  - intros k Hk. destruct (decide (k < length (obstacles s))) as [Hk0 | Hk0].
    + destruct (Hnext k Hk0) as (nk & Hkn & Hnk). exists nk.
      rewrite HoldN by exact Hk0. split; [exact Hkn |].
      rewrite HoldP; [exact Hnk | by eapply prevOf_lt].
    + set (i := k - length (obstacles s)).
      assert (Hi : i < length vertices) by (unfold i; lia).
      replace k with (length (obstacles s) + i) by (unfold i; lia).
      pose proof (ringLinked_nextOf vertices (obstacles s) obs' i Hn Hi
                    (conj Hlen (conj Hold Hring'))) as [Hn1 _].
      eexists. split; [exact Hn1 |].
      pose proof (ringLinked_nextOf vertices (obstacles s) obs' _ Hn (Hmod (S i))
                    (conj Hlen (conj Hold Hring'))) as [_ Hp1].
      rewrite Hp1. f_equal. f_equal.
      destruct (decide (S i = length vertices)) as [E1 | E1].
      * rewrite E1, Nat.Div0.mod_same. simpl.
        rewrite Nat.mod_small by lia. lia.
      * rewrite (Nat.mod_small (S i)) by lia.
        replace (S i + length vertices - 1) with (i + 1 * length vertices) by lia.
        rewrite Nat.Div0.mod_add, Nat.mod_small by lia. reflexivity.
  - intros k Hk. destruct (decide (k < length (obstacles s))) as [Hk0 | Hk0].
    + destruct (Hprev k Hk0) as (pk & Hkp & Hpk). exists pk.
      rewrite HoldP by exact Hk0. split; [exact Hkp |].
      rewrite HoldN; [exact Hpk | by eapply nextOf_lt].
    + set (i := k - length (obstacles s)).
      assert (Hi : i < length vertices) by (unfold i; lia).
      replace k with (length (obstacles s) + i) by (unfold i; lia).
      pose proof (ringLinked_nextOf vertices (obstacles s) obs' i Hn Hi
                    (conj Hlen (conj Hold Hring'))) as [_ Hp1].
      eexists. split; [exact Hp1 |].
      pose proof (ringLinked_nextOf vertices (obstacles s) obs' _ Hn
                    (Hmod (i + length vertices - 1))
                    (conj Hlen (conj Hold Hring'))) as [Hn1 _].
      rewrite Hn1. f_equal. f_equal.
      destruct (decide (i = 0)) as [E1 | E1].
      * rewrite E1. simpl. rewrite (Nat.mod_small (length vertices - 1)) by lia.
        replace (S (length vertices - 1)) with (length vertices) by lia.
        by rewrite Nat.Div0.mod_same.
      * replace (i + length vertices - 1) with (i - 1 + 1 * length vertices) by lia.
        rewrite Nat.Div0.mod_add, (Nat.mod_small (i - 1)) by lia.
        rewrite Nat.mod_small by lia. lia.
Qed.

(** [addObstacle] with at least two vertices appends them in order after the
    vertices that are there, which it leaves as they are, and returns the
    number of the first; the new vertices form one ring: the successor of
    vertex [i] of the polygon is vertex [i + 1], the successor of the last is
    the first, and the predecessors are the other way round. *)
Theorem addObstacle_ring (vertices : list Vector2.t) (s : Simulator.t) :
  2 <= length vertices ->
  let n := length vertices in
  let obstacleNo := getNumObstacleVertices s in
  let s' := (addObstacle vertices s).2 in
  (addObstacle vertices s).1 = Z.of_nat obstacleNo
  /\ getNumObstacleVertices s' = obstacleNo + n
  /\ (forall j, j < obstacleNo -> obstacles s' !! j = obstacles s !! j)
  /\ (forall i, i < n ->
        getObstacleVertex s' (obstacleNo + i) = vertices !! i
        /\ getNextObstacleVertexNo s' (obstacleNo + i) = Some (obstacleNo + S i mod n)
        /\ getPrevObstacleVertexNo s' (obstacleNo + i)
           = Some (obstacleNo + (i + n - 1) mod n))
  /\ (n = 2 -> forall i o, i < n -> obstacles s' !! (obstacleNo + i) = Some o ->
        Obstacle.convex o = true)
  /\ agents s' = agents s /\ kdTree s' = kdTree s /\ timeStep s' = timeStep s
  /\ defaultAgent s' = defaultAgent s /\ globalTime s' = globalTime s.
Proof.
  intros Hn n obstacleNo s'. subst s'. unfold obstacleNo, getNumObstacleVertices.
  rewrite addObstacle_obstacles by exact Hn. simpl.
  pose proof (addObstacle_fold_linked vertices (obstacles s) (length vertices) Hn
                ltac:(lia)) as Hring.
  set (obs' := foldl _ _ _) in *.
  assert (Hmod : forall m, m mod n < n).
  { intros m. apply Nat.mod_upper_bound. unfold n. lia. }
  assert (Hidx : forall i, i < n ->
            Obstacle.id (getObstacle obs' (length (obstacles s) + i))
            = length (obstacles s) + i).
  { intros i Hi. destruct Hring as (_ & _ & Hring).
    destruct (Hring i Hi) as (o & Ho & _ & _ & _ & Hid & _).
    unfold getObstacle. rewrite Ho. exact Hid. }
  split; [reflexivity |]. split; [apply Hring |]. split; [apply Hring |].
  split; [| split; [| done]].
  - intros i Hi.
    pose proof (ringLinked_nextOf vertices (obstacles s) obs' i Hn Hi Hring) as [Hn1 Hp1].
    destruct Hring as (_ & _ & Hring).
    destruct (Hring i Hi) as (o & Ho & _ & _ & Hpt & _).
    unfold getObstacleVertex, getNextObstacleVertexNo, getPrevObstacleVertexNo.
    unfold nextOf, prevOf in Hn1, Hp1. simpl. rewrite Ho in *. simpl in *.
    rewrite Hn1, Hp1. simpl. rewrite !Hidx by apply Hmod.
    split; [| done]. rewrite Hpt. unfold vertexAt.
    destruct (lookup_lt_is_Some_2 vertices i Hi) as [v ->]. reflexivity.
  - intros Hn2 i o Hi Ho. destruct Hring as (_ & _ & Hring).
    destruct (Hring i Hi) as (o' & Ho' & _ & _ & _ & _ & Hcv).
    rewrite Ho in Ho'. injection Ho' as <-. by apply Hcv.
Qed.

Lemma addObstacle_ring_witness :
  let s' := (addObstacle [Vector2.mk 0 0; Vector2.mk 4 0; Vector2.mk 4 3] fresh).2 in
  getNumObstacleVertices s' = 3
  /\ getObstacleVertex s' 2 = Some (Vector2.mk 4 3)
  /\ getNextObstacleVertexNo s' 2 = Some 0
  /\ getPrevObstacleVertexNo s' 0 = Some 2.
Proof.
  pose proof (addObstacle_ring [Vector2.mk 0 0; Vector2.mk 4 0; Vector2.mk 4 3] fresh
                ltac:(simpl; lia)) as (_ & Hnum & _ & Hring & _).
  split; [exact Hnum |].
  pose proof (Hring 2 ltac:(simpl; lia)) as (Hv & Hnx & _).
  pose proof (Hring 0 ltac:(simpl; lia)) as (_ & _ & Hpv).
  split; [exact Hv |]. split; [exact Hnx | exact Hpv].
Defined.

Lemma processObstacles_contents (s : Simulator.t) :
  let s' := processObstacles s in
  treeList (KdTree.obstacleTree (kdTree s')) ≡ₚ seq 0 (getNumObstacleVertices s')
  /\ getNumObstacleVertices s <= getNumObstacleVertices s'
  /\ (forall v o, obstacles s !! v = Some o ->
        exists o', obstacles s' !! v = Some o'
                   /\ Obstacle.point o' = Obstacle.point o
                   /\ Obstacle.direction o' = Obstacle.direction o
                   /\ Obstacle.convex o' = Obstacle.convex o
                   /\ Obstacle.id o' = Obstacle.id o)
  /\ agents s' = agents s /\ timeStep s' = timeStep s
  /\ defaultAgent s' = defaultAgent s /\ globalTime s' = globalTime s
  /\ KdTree.agents (kdTree s') = KdTree.agents (kdTree s)
  /\ KdTree.agentTree (kdTree s') = KdTree.agentTree (kdTree s).
Proof.
  unfold processObstacles, buildObstacleTree, getNumObstacleVertices.
  pose proof (buildObstacleTreeRecursive_contents
                (length (seq 0 (length (obstacles s)))) (seq 0 (length (obstacles s)))
                (obstacles s) (Nat.le_refl _)) as H.
  destruct (buildObstacleTreeRecursive _ _ _) as [tree arena]. simpl in *.
  destruct H as (Hsame & Hperm & _).
  { apply Forall_forall. intros o Ho. apply elem_of_seq in Ho. lia. }
  pose proof (sameVertices_length _ _ Hsame) as Hlen.
  split; [| split; [exact Hlen | split; [exact Hsame | done]]].
  rewrite Hperm.
  replace (length arena)
    with (length (obstacles s) + (length arena - length (obstacles s))) at 2 by lia.
  by rewrite seq_app.
Qed.

(** [processObstacles] leaves of every vertex its place, point, direction,
    convexity and [id], and only appends vertices; the tree it builds holds
    every vertex of the list it leaves (the appended ones included) at
    exactly one node; nothing else of the simulator changes. *)
Theorem processObstacles_tree (s : Simulator.t) :
  let s' := processObstacles s in
  treeList (KdTree.obstacleTree (kdTree s')) ≡ₚ seq 0 (getNumObstacleVertices s')
  /\ getNumObstacleVertices s <= getNumObstacleVertices s'
  /\ (forall v o, obstacles s !! v = Some o ->
        exists o', obstacles s' !! v = Some o'
                   /\ Obstacle.point o' = Obstacle.point o
                   /\ Obstacle.direction o' = Obstacle.direction o
                   /\ Obstacle.convex o' = Obstacle.convex o
                   /\ Obstacle.id o' = Obstacle.id o)
  /\ agents s' = agents s /\ timeStep s' = timeStep s
  /\ defaultAgent s' = defaultAgent s /\ globalTime s' = globalTime s
  /\ KdTree.agents (kdTree s') = KdTree.agents (kdTree s)
  /\ KdTree.agentTree (kdTree s') = KdTree.agentTree (kdTree s).
Proof. exact (processObstacles_contents s). Qed.

Lemma processObstacles_linked (s : Simulator.t) :
  linked (obstacles s) -> linked (obstacles (processObstacles s)).
Proof.
  unfold processObstacles, buildObstacleTree, getNumObstacleVertices.
  pose proof (buildObstacleTreeRecursive_contents
                (length (seq 0 (length (obstacles s)))) (seq 0 (length (obstacles s)))
                (obstacles s) (Nat.le_refl _)) as H.
  destruct (buildObstacleTreeRecursive _ _ _) as [tree arena]. simpl in *.
  destruct H as (_ & _ & Hl); [| exact Hl].
  apply Forall_forall. intros o Ho. apply elem_of_seq in Ho. lia.
Qed.
End ObstacleTheorems.

(** ** Sorted neighbour lists *)

Section SortedKeys.
Implicit Types (l : list Agent.entry) (x e : Agent.entry).

(** In an ascending list of comparable keys no key is above the last. *)
Lemma ascending_le_last l e :
  ascending l -> Forall (fun x => ordered x.1) l -> list.last l = Some e ->
  Forall (fun x => Num.le x.1 e.1 = true) l.
Proof.
  induction l as [| a l IH]; intros Hasc Hord Hlast; [constructor |].
  inversion Hord as [| ? ? Ha Hl]; subst.
  destruct l as [| b l'].
  - simpl in Hlast. injection Hlast as <-. constructor; [by apply le_refl | constructor].
  - assert (Hrest : Forall (fun x => Num.le x.1 e.1 = true) (b :: l')).
    { apply IH; [by eapply ascending_tail | exact Hl | exact Hlast]. }
    constructor; [| exact Hrest].
    destruct Hasc as [Hab _]. inversion Hrest; subst.
    by eapply le_trans.
Qed.

Lemma last_snoc_take l e :
  list.last l = Some e -> l = take (length l - 1) l ++ [e].
Proof.
  intros H. apply last_Some in H as [l' ->].
  rewrite length_app. simpl. replace (length l' + 1 - 1) with (length l') by lia.
  by rewrite take_app_length.
Qed.
End SortedKeys.

(** ** The range of the agent query *)

Section AgentQuery.
Local Open Scope float_scope.

Variables (s : Simulator.t) (self : nat) (pos : Vector2.t).

(** The squared distance the query computes for the agent at index [j]. *)
Definition distSqTo (j : nat) : float :=
  RVOMath.absSq (Vector2.subtract pos (Agent.position (getAgent s j))).

(** [insertAgentNeighbor] for another agent that is within the range: the
    list without its last entry when it is full, with the new entry put
    before the first larger key; and the range written back. *)
Lemma insertAgentNeighbor_inserts (this : Agent.t) (agent : nat) (rangeSq : float) :
  Agent.position this = pos ->
  self <> agent ->
  (0 < Agent.maxNeighbors this)%nat ->
  (length (Agent.agentNeighbors this) <= Agent.maxNeighbors this)%nat ->
  Num.lt (distSqTo agent) rangeSq = true ->
  let l := Agent.agentNeighbors this in
  let b := if (length l <? Agent.maxNeighbors this)%nat then l
           else take (length l - 1) l in
  let x := (distSqTo agent, agent) in
  exists j,
    insertAgentNeighbor s self this agent rangeSq
    = Some (Agent.set_agentNeighbors (take j b ++ x :: drop j b) this,
            if decide (S (length b) = Agent.maxNeighbors this)
            then default rangeSq (fst <$> list.last (take j b ++ x :: drop j b))
            else rangeSq)
    /\ (j <= length b)%nat
    /\ Forall (fun e => Num.lt x.1 e.1 = true) (drop j b)
    /\ (forall e, list.last (take j b) = Some e -> Num.lt x.1 e.1 = false).
Proof.
  intros Hpos Hne Hm Hlen Hlt l b x. unfold insertAgentNeighbor.
  rewrite decide_False by exact Hne. rewrite Hpos. fold (distSqTo agent). rewrite Hlt.
  fold l. fold x.
  set (l1 := if (_ <? _)%nat then _ else _).
  assert (Hl1 : l1 <> [] /\ b = take (length l1 - 1) l1).
  { subst l1 b. destruct (Nat.ltb_spec (length l) (Agent.maxNeighbors this)).
    - split; [by destruct l |]. rewrite length_app. simpl.
      replace (length l + 1 - 1)%nat with (length l) by lia.
      by rewrite take_app_length.
    - split; [| reflexivity]. intros E. rewrite E in *. simpl in *. lia. }
  destruct Hl1 as [Hne1 Hb].
  destruct (insert_from_end (distSqTo agent) x l1 Hne1)
    as (l' & j & Hs & Hj & Hl & Hafter & Hbefore).
  rewrite <- Hb in Hj, Hl, Hafter, Hbefore.
  destruct (length l1) as [| i0] eqn:El1; [by destruct l1 |].
  replace (S i0 - 1)%nat with i0 in Hs by lia. rewrite Hs. simpl.
  exists j. rewrite Hl. split; [| done].
  assert (Hlen3 : length (take j b ++ x :: drop j b) = S (length b)).
  { rewrite length_app. simpl. rewrite length_take, length_drop. lia. }
  rewrite Hlen3, last_lookup, Hlen3. simpl. rewrite Nat.sub_0_r.
  change (match Agent.maxNeighbors this with
          | 0%nat => false
          | S m' => (length b =? m')%nat
          end) with (S (length b) =? Agent.maxNeighbors this)%nat.
  destruct (Nat.eqb_spec (S (length b)) (Agent.maxNeighbors this));
    [by rewrite decide_True | by rewrite decide_False].
Qed.

(** The state of a query that started with an empty list and the squared
    range [r0]: the list is good, its keys are below [r0], and the cell holds
    [r0] until the list is full and its largest key from then on. *)
Definition rangeInv (m : nat) (r0 : float) (st : Agent.t * float) : Prop :=
  Agent.position st.1 = pos
  /\ Agent.maxNeighbors st.1 = m
  /\ neighbors_ok s self pos m (Agent.agentNeighbors st.1)
  /\ Forall (fun e => Num.lt e.1 r0 = true) (Agent.agentNeighbors st.1)
  /\ ((length (Agent.agentNeighbors st.1) < m)%nat -> st.2 = r0)
  /\ (length (Agent.agentNeighbors st.1) = m ->
      exists e, list.last (Agent.agentNeighbors st.1) = Some e /\ st.2 = e.1).

(** The agents of [seen] have been offered: each one within [r0] is in the
    list, unless the list is full of entries that are not farther. *)
Definition offeredAll (m : nat) (r0 : float) (seen : list nat)
    (l : list Agent.entry) : Prop :=
  forall j, j ∈ seen -> j <> self -> Num.lt (distSqTo j) r0 = true ->
    (distSqTo j, j) ∈ l
    \/ (length l = m /\ Forall (fun e => Num.le e.1 (distSqTo j) = true) l).

Lemma neighbors_ok_ordered (m : nat) (l : list Agent.entry) :
  neighbors_ok s self pos m l -> Forall (fun x => ordered x.1) l.
Proof.
  intros (_ & Hall & _). eapply Forall_impl; [exact Hall |].
  intros e (_ & _ & He). exact He.
Qed.

Lemma insertAgentNeighbor_rangeInv (m : nat) (r0 : float) (seen : list nat)
    (st st' : Agent.t * float) (other : nat) :
  (0 < m)%nat ->
  rangeInv m r0 st -> offeredAll m r0 seen (Agent.agentNeighbors st.1) ->
  insertAgentNeighbor s self st.1 other st.2 = Some st' ->
  rangeInv m r0 st'
  /\ offeredAll m r0 (other :: seen) (Agent.agentNeighbors st'.1)
  /\ (st'.2 = st.2 \/ Num.le st'.2 st.2 = true)
  /\ (exists l, st'.1 = Agent.set_agentNeighbors l st.1).
Proof.
  intros Hm (Hpos & Hmax & Hok & Hkeys & Hlt & Hfull) Hoff Hins.
  destruct st as [this r]. simpl in *.
  set (l := Agent.agentNeighbors this) in *.
  pose proof (neighbors_ok_ordered _ _ Hok) as Hord.
  assert (Hlen : (length l <= m)%nat) by apply Hok.
  assert (Hasc : ascending l) by apply Hok.
  assert (Hsame : this = Agent.set_agentNeighbors l this) by (by destruct this).
  (* what is known of an agent that is not inserted *)
  assert (Hskip : forall j, Num.lt (distSqTo j) r = false ->
            Num.lt (distSqTo j) r0 = true ->
            length l = m /\ Forall (fun e => Num.le e.1 (distSqTo j) = true) l).
  { intros j Hnlt Hj0.
    destruct (decide (length l < m)%nat) as [Hl | Hl].
    { rewrite (Hlt Hl) in Hnlt. congruence. }
    assert (Hlm : length l = m) by lia. split; [exact Hlm |].
    destruct (Hfull Hlm) as (e & Hlast & ->).
    assert (Hle : Num.le e.1 (distSqTo j) = true).
    { apply not_lt_le; [by eexists | | exact Hnlt].
      apply (proj1 (Forall_forall _ _) Hord). by apply last_Some_elem_of. }
    eapply Forall_impl; [exact (ascending_le_last l e Hasc Hord Hlast) |].
    simpl. intros x Hx. by eapply le_trans. }
  destruct (decide (self = other)) as [Heq | Hne].
  { unfold insertAgentNeighbor in Hins. rewrite decide_True in Hins by exact Heq.
    injection Hins as <-. simpl. split; [done |]. split; [| split; [by left | eauto]].
    intros j Hj Hjs Hj0. apply elem_of_cons in Hj as [-> | Hj]; [congruence |].
    by apply Hoff. }
  destruct (Num.lt (distSqTo other) r) eqn:Hd.
  2: { unfold insertAgentNeighbor in Hins. rewrite decide_False in Hins by exact Hne.
       rewrite Hpos in Hins. fold (distSqTo other) in Hins. rewrite Hd in Hins.
       injection Hins as <-. simpl. split; [done |]. split; [| split; [by left | eauto]].
       intros j Hj Hjs Hj0. apply elem_of_cons in Hj as [-> | Hj]; [| by apply Hoff].
       right. by apply Hskip. }
  assert (Hm' : (0 < Agent.maxNeighbors this)%nat) by lia.
  assert (Hlen0 : (length (Agent.agentNeighbors this) <= Agent.maxNeighbors this)%nat)
    by (fold l; lia).
  destruct (insertAgentNeighbor_inserts this other r Hpos Hne Hm' Hlen0 Hd)
    as (j & Hins' & Hj & Hafter & Hbefore).
  clear Hm' Hlen0.
  rewrite Hins in Hins'. injection Hins' as ->. unfold rangeInv. cbn [fst snd].
  fold l in Hins, Hj, Hafter, Hbefore |- *.
  rewrite Hmax in *.
  set (b := if (length l <? m)%nat then l else take (length l - 1) l) in *.
  set (x := (distSqTo other, other)) in *.
  set (l' := take j b ++ x :: drop j b) in *.
  change (Agent.agentNeighbors (Agent.set_agentNeighbors l' this)) with l'.
  change (Agent.position (Agent.set_agentNeighbors l' this)) with (Agent.position this).
  change (Agent.maxNeighbors (Agent.set_agentNeighbors l' this))
    with (Agent.maxNeighbors this).
  assert (Hok' : neighbors_ok s self pos m l').
  { destruct (insertAgentNeighbor_ok s self pos this _ other r _ Hpos
                ltac:(rewrite Hmax; exact Hok) Hins) as (l0 & E & Hl0).
    rewrite Hmax in Hl0. apply (f_equal Agent.agentNeighbors) in E. simpl in E.
    subst l0. exact Hl0. }
  assert (Hlen' : length l' = S (length b)).
  { unfold l'. rewrite length_app. simpl. rewrite length_take, length_drop. lia. }
  assert (Hb : b `sublist_of` l).
  { unfold b. destruct (_ <? _)%nat; [done | apply sublist_take]. }
  assert (Hin' : forall e, e ∈ l' <-> e = x \/ e ∈ b).
  { intros e. unfold l'. rewrite elem_of_app, elem_of_cons.
    rewrite <- (take_drop j b) at 3. rewrite elem_of_app. tauto. }
  assert (Hx0 : Num.lt x.1 r0 = true).
  { simpl. destruct (decide (length l < m)%nat) as [Hl | Hl].
    - by rewrite <- (Hlt Hl).
    - destruct (Hfull ltac:(lia)) as (e & Hlast & ->).
      eapply lt_le_trans; [exact Hd |]. apply lt_le.
      apply (proj1 (Forall_forall _ _) Hkeys). by apply last_Some_elem_of. }
  assert (Hkeys' : Forall (fun e => Num.lt e.1 r0 = true) l').
  { apply Forall_forall. intros e He. apply Hin' in He as [-> | He]; [exact Hx0 |].
    apply (proj1 (Forall_forall _ _) Hkeys). by eapply elem_of_sublist. }
  assert (Hlast' : exists e, list.last l' = Some e).
  { destruct (list.last l') eqn:E; [eauto |]. apply last_None in E.
    rewrite E in Hlen'. discriminate. }
  destruct Hlast' as [e' He'].
  split; [| split; [| split; [| eauto]]].
  - split; [exact Hpos |]. split; [exact Hmax |]. split; [exact Hok' |].
    split; [exact Hkeys' |]. rewrite Hlen'. split.
    + intros Hl'. rewrite decide_False by lia.
      apply Hlt. unfold b in Hl'. destruct (Nat.ltb_spec (length l) m); [lia |].
      rewrite length_take in Hl'. lia.
    + intros Hl'. rewrite decide_True by done. rewrite He'. simpl. eauto.
  - intros k Hk Hks Hk0. apply elem_of_cons in Hk as [-> | Hk].
    { left. apply Hin'. by left. }
    destruct (decide (length l < m)%nat) as [Hl | Hl].
    + assert (b = l) as Hbl by (unfold b; destruct (Nat.ltb_spec (length l) m); [done | lia]).
      destruct (Hoff k Hk Hks Hk0) as [Hin | [Hfl _]]; [| lia].
      left. apply Hin'. right. by rewrite Hbl.
    + assert (Hlm : length l = m) by lia.
      destruct (Hfull Hlm) as (e & Hlast & Hre). simpl in Hre. subst r.
      assert (Hbl : l = b ++ [e]).
      { unfold b. destruct (Nat.ltb_spec (length l) m); [lia |].
        by apply last_snoc_take. }
      assert (Hble : Forall (fun y => Num.le y.1 e.1 = true) l)
        by exact (ascending_le_last l e Hasc Hord Hlast).
      assert (Hlenb : S (length b) = m).
      { pose proof (f_equal length Hbl) as Hll. rewrite length_app in Hll.
        simpl in Hll. lia. }
      assert (Hcase : Num.le e.1 (distSqTo k) = true ->
                length l' = m /\ Forall (fun y => Num.le y.1 (distSqTo k) = true) l').
      { intros Hek. split; [lia |]. apply Forall_forall.
        intros y Hy. apply Hin' in Hy as [-> | Hy].
        - simpl. apply lt_le. exact (lt_le_trans _ _ _ Hd Hek).
        - eapply le_trans; [| exact Hek].
          apply (proj1 (Forall_forall _ _) Hble). by eapply elem_of_sublist. }
      destruct (Hoff k Hk Hks Hk0) as [Hin | [_ Hall]].
      * rewrite Hbl in Hin. apply elem_of_app in Hin as [Hin | Hin].
        -- left. apply Hin'. by right.
        -- apply list_elem_of_singleton in Hin. right. apply Hcase.
           rewrite <- Hin. simpl. apply le_refl. by eexists.
      * right. apply Hcase.
        apply (proj1 (Forall_forall _ _) Hall). by apply last_Some_elem_of.
  - destruct (decide (S (length b) = m)) as [Hbm | Hbm]; [| by left].
    rewrite He'. simpl. right.
    apply last_Some_elem_of, Hin' in He' as [-> | He'].
    + simpl. by apply lt_le.
    + destruct (decide (length l < m)%nat) as [Hl | Hl].
      * rewrite (Hlt Hl). apply lt_le.
        apply (proj1 (Forall_forall _ _) Hkeys). by eapply elem_of_sublist.
      * destruct (Hfull ltac:(lia)) as (e & Hlast & ->).
        apply (proj1 (Forall_forall _ _) (ascending_le_last l e Hasc Hord Hlast)).
        by eapply elem_of_sublist.
Qed.
End AgentQuery.

(** ** What the agent tree holds *)

Section AgentTreeContents.
Variable s : Simulator.t.

Lemma swapAgents_Permutation (agents agents' : list nat) (i j : nat) :
  swapAgents agents i j = Some agents' -> agents' ≡ₚ agents.
Proof.
  unfold swapAgents.
  destruct (agents !! i) as [ai |] eqn:Ei; [| discriminate].
  destruct (agents !! j) as [aj |] eqn:Ej; [| discriminate].
  simpl. intros [= <-]. by apply Permutation_insert_swap.
Qed.

Lemma partitionLoop_Permutation (isVertical : bool) (splitValue : float) :
  forall (fuel : nat) (agents agents' : list nat) (left right left' right' : nat),
  partitionLoop s isVertical splitValue fuel agents left right
  = Some (agents', left', right') ->
  agents' ≡ₚ agents.
Proof.
  induction fuel as [| fuel IH]; intros agents agents' left right left' right'.
  - simpl. destruct (left <? right)%nat; [discriminate | by intros [= <- _ _]].
  - rewrite partitionLoop_S. destruct (left <? right)%nat; [| by intros [= <- _ _]].
    destruct (scanLeft _ _ _ _ _ _) as [left1 |]; [| discriminate].
    cbn [mbind option_bind].
    destruct (scanRight _ _ _ _ _ _) as [right1 |]; [| discriminate].
    cbn [mbind option_bind].
    destruct (left1 <? right1)%nat; [| by apply IH].
    destruct (swapAgents agents left1 (right1 - 1)) as [agents1 |] eqn:Es;
      [| discriminate].
    cbn [mbind option_bind]. intros H. apply IH in H.
    rewrite H. by eapply swapAgents_Permutation.
Qed.

(** Building the tree only swaps entries of [agents]. *)
Lemma buildAgentTreeRecursive_Permutation :
  forall (fuel begin_ end_ node : nat) (kd kd' : KdTree.t),
  buildAgentTreeRecursive s fuel begin_ end_ node kd = Some kd' ->
  KdTree.agents kd' ≡ₚ KdTree.agents kd
  /\ KdTree.obstacleTree kd' = KdTree.obstacleTree kd.
Proof.
  induction fuel as [| fuel IH]; intros begin_ end_ node kd kd'; [discriminate |].
  rewrite buildAgentTreeRecursive_S.
  destruct (KdTree.agentTree kd !! node) as [n0 |]; [| discriminate].
  cbn [mbind option_bind].
  destruct (kdPosition s (KdTree.agents kd) begin_) as [p |]; [| discriminate].
  cbn [mbind option_bind].
  destruct (boundingBox _ _ _ _ _) as [n1 |]; [| discriminate].
  cbn [mbind option_bind].
  destruct (KdTree.MAX_LEAF_SIZE <? end_ - begin_)%nat; [| by intros [= <-]].
  cbv zeta.
  destruct (partitionLoop _ _ _ _ _ _ _) as [[[agents' left0] right0] |] eqn:Ep;
    [| discriminate].
  cbn [mbind option_bind].
  apply partitionLoop_Permutation in Ep.
  destruct (buildAgentTreeRecursive s fuel begin_ _ _ _) as [kd2 |] eqn:E2;
    [| discriminate].
  cbn [mbind option_bind]. intros E3.
  apply IH in E2 as [H2 H2']. apply IH in E3 as [H3 H3'].
  simpl in H2, H2'. split; [by rewrite H3, H2 | congruence].
Qed.

(** [buildAgentTree] leaves in [agents] a rearrangement of what it started
    from: the old array when its length is the number of agents, all the
    agents otherwise. *)
Lemma buildAgentTree_Permutation (kd kd' : KdTree.t) :
  buildAgentTree s kd = Some kd' ->
  KdTree.agents kd'
  ≡ₚ (if decide (length (KdTree.agents kd) = getNumAgents s)
      then KdTree.agents kd else seq 0 (getNumAgents s))
  /\ length (KdTree.agentTree kd')
     = (if decide (length (KdTree.agents kd) = getNumAgents s)
        then length (KdTree.agentTree kd) else 2 * getNumAgents s)
  /\ KdTree.obstacleTree kd' = KdTree.obstacleTree kd.
Proof.
  unfold buildAgentTree.
  set (kd1 := if decide (length (KdTree.agents kd) = getNumAgents s) then kd else _).
  assert (H1 : KdTree.agents kd1
               = (if decide (length (KdTree.agents kd) = getNumAgents s)
                  then KdTree.agents kd else seq 0 (getNumAgents s))
               /\ length (KdTree.agentTree kd1)
                  = (if decide (length (KdTree.agents kd) = getNumAgents s)
                     then length (KdTree.agentTree kd) else 2 * getNumAgents s)
               /\ KdTree.obstacleTree kd1 = KdTree.obstacleTree kd).
  { subst kd1. destruct (decide _); [done |]. simpl. by rewrite length_replicate. }
  destruct H1 as (<- & <- & <-).
  destruct (decide (length (KdTree.agents kd1) = 0)); [by intros [= <-] |].
  intros H. pose proof (buildAgentTreeRecursive_tree s _ _ _ _ _ _ H) as [Hlen _].
  apply buildAgentTreeRecursive_Permutation in H as [Hp Ho]. done.
Qed.
End AgentTreeContents.

(** ** What the agent query keeps *)

Section AgentQueryKeeps.
Variables (s : Simulator.t) (self : nat) (kd : KdTree.t).

(** What every [insertAgentNeighbor] keeps, the whole query keeps. *)
Lemma insertLeaf_keeps (Inv : Agent.t * float -> Prop) :
  (forall st other st', other ∈ KdTree.agents kd -> Inv st ->
     insertAgentNeighbor s self st.1 other st.2 = Some st' -> Inv st') ->
  forall (range : list nat) (st st' : Agent.t * float),
  Inv st -> insertLeaf s kd self range st = Some st' -> Inv st'.
Proof.
  intros Hstep. induction range as [| i range IH]; intros st st' Hst; simpl.
  - by intros [= <-].
  - destruct (KdTree.agents kd !! i) as [other |] eqn:Ei; [| discriminate]. simpl.
    destruct (insertAgentNeighbor s self st.1 other st.2) as [st1 |] eqn:E;
      [| discriminate]. simpl.
    apply IH. eapply Hstep; [| exact Hst | exact E].
    by eapply list_elem_of_lookup_2.
Qed.

Lemma queryAgentTreeRecursive_keeps (Inv : Agent.t * float -> Prop) :
  (forall st other st', other ∈ KdTree.agents kd -> Inv st ->
     insertAgentNeighbor s self st.1 other st.2 = Some st' -> Inv st') ->
  forall (fuel node : nat) (st st' : Agent.t * float),
  Inv st -> queryAgentTreeRecursive s fuel kd self node st = Some st' -> Inv st'.
Proof.
  intros Hstep. induction fuel as [| fuel IH]; intros node st st' Hst; [discriminate |].
  rewrite queryAgentTreeRecursive_S.
  destruct (KdTree.agentTree kd !! node) as [n |]; [| discriminate].
  cbn [mbind option_bind].
  destruct (_ <=? _)%nat; [by apply insertLeaf_keeps |].
  destruct (KdTree.agentTree kd !! AgentTreeNode.left n) as [nl |]; [| discriminate].
  destruct (KdTree.agentTree kd !! AgentTreeNode.right n) as [nr |]; [| discriminate].
  cbn [mbind option_bind]. cbv zeta.
  destruct (Num.lt (distSqBox _ nl) (distSqBox _ nr)).
  - destruct (Num.lt (distSqBox _ nl) st.2); [| by intros [= <-]].
    destruct (queryAgentTreeRecursive s fuel kd self (AgentTreeNode.left n) st)
      as [st1 |] eqn:E1; [| discriminate].
    cbn [mbind option_bind]. apply IH in E1; [| exact Hst].
    destruct (Num.lt _ _); [by apply IH | by intros [= <-]].
  - destruct (Num.lt (distSqBox _ nr) st.2); [| by intros [= <-]].
    destruct (queryAgentTreeRecursive s fuel kd self (AgentTreeNode.right n) st)
      as [st1 |] eqn:E1; [| discriminate].
    cbn [mbind option_bind]. apply IH in E1; [| exact Hst].
    destruct (Num.lt _ _); [by apply IH | by intros [= <-]].
Qed.

(** The leaf loop offers every agent of its range. *)
Lemma insertLeaf_offeredAll (pos : Vector2.t) (m : nat) (r0 : float) :
  (0 < m)%nat ->
  forall (range : list nat) (seen : list nat) (st st' : Agent.t * float),
  rangeInv s self pos m r0 st ->
  offeredAll s self pos m r0 seen (Agent.agentNeighbors st.1) ->
  insertLeaf s kd self range st = Some st' ->
  exists seen',
    rangeInv s self pos m r0 st'
    /\ offeredAll s self pos m r0 seen' (Agent.agentNeighbors st'.1)
    /\ (forall j, j ∈ seen -> j ∈ seen')
    /\ (forall i j, i ∈ range -> KdTree.agents kd !! i = Some j -> j ∈ seen').
Proof.
  intros Hm. induction range as [| i range IH]; intros seen st st' Hst Hoff; simpl.
  - intros [= <-]. exists seen. split; [exact Hst |]. split; [exact Hoff |].
    split; [done |]. intros i j Hi. by apply elem_of_nil in Hi.
  - destruct (KdTree.agents kd !! i) as [other |] eqn:Ei; [| discriminate]. simpl.
    destruct (insertAgentNeighbor s self st.1 other st.2) as [st1 |] eqn:E;
      [| discriminate]. simpl. intros Hrest.
    destruct (insertAgentNeighbor_rangeInv s self pos m r0 seen st st1 other Hm Hst Hoff E)
      as (Hst1 & Hoff1 & _).
    destruct (IH (other :: seen) st1 st' Hst1 Hoff1 Hrest)
      as (seen' & Hst' & Hoff' & Hsub & Hall).
    exists seen'. split; [exact Hst' |]. split; [exact Hoff' |]. split.
    + intros j Hj. apply Hsub. by apply elem_of_cons; right.
    + intros i' j Hi' Hj. apply elem_of_cons in Hi' as [-> | Hi'].
      * rewrite Ei in Hj. injection Hj as <-. apply Hsub. by apply elem_of_cons; left.
      * by eapply Hall.
Qed.
End AgentQueryKeeps.

(** ** The order of the obstacle neighbours *)

Section ObstacleNeighborOrder.
Local Open Scope float_scope.
Variables (obstacles : list Obstacle.t) (rangeSq : float).

(** An ascending list of keys that can be compared. *)
Definition sortedKeys (l : list Agent.entry) : Prop :=
  ascending l /\ Forall (fun e => ordered e.1) l.

Lemma insertObstacleNeighbor_sorted (this this' : Agent.t) (o : nat) :
  sortedKeys (Agent.obstacleNeighbors this) ->
  insertObstacleNeighbor obstacles this o rangeSq = Some this' ->
  sortedKeys (Agent.obstacleNeighbors this').
Proof.
  intros [Hasc Hord]. unfold insertObstacleNeighbor.
  set (d := edgeDistSq obstacles (Agent.position this) o).
  destruct (Num.lt d rangeSq) eqn:Hd; [| by intros [= <-]].
  set (x := (d, o)). set (l := Agent.obstacleNeighbors this) in *.
  assert (Hne : l ++ [x] <> []) by (by destruct l).
  destruct (insert_from_end d x (l ++ [x]) Hne) as (l' & j & Hs & Hj & Hl & Hafter & Hbefore).
  assert (Hb : take (length (l ++ [x]) - 1) (l ++ [x]) = l).
  { rewrite length_app. simpl. replace (length l + 1 - 1)%nat with (length l) by lia.
    by rewrite take_app_length. }
  rewrite Hb in Hj, Hl, Hafter, Hbefore. rewrite Hs. simpl. intros [= <-]. simpl.
  rewrite Hl. assert (Hx : ordered x.1) by (by exists rangeSq).
  split.
  - apply ascending_insert; [exact Hasc | |].
    + intros e He. apply not_lt_le; [exact Hx | | by apply Hbefore].
      apply (proj1 (Forall_forall _ _) Hord).
      eapply (subseteq_take j l). by apply last_Some_elem_of.
    + intros e He. apply lt_le. destruct (drop j l) as [| e' t]; [discriminate |].
      simpl in He. injection He as ->. by inversion Hafter.
  - apply Forall_app. split; [by apply Forall_take |].
    constructor; [exact Hx | by apply Forall_drop].
Qed.

Lemma queryObstacleTreeRecursive_sorted :
  forall (node : ObstacleTreeNode) (this this' : Agent.t),
  sortedKeys (Agent.obstacleNeighbors this) ->
  queryObstacleTreeRecursive obstacles rangeSq node this = Some this' ->
  sortedKeys (Agent.obstacleNeighbors this').
Proof.
  induction node as [| o l IHl r IHr]; intros this this' Hs; [by intros [= <-] |].
  cbn [queryObstacleTreeRecursive]. cbv zeta.
  set (side := agentLeftOfLine obstacles (Agent.position this) o).
  destruct (queryObstacleTreeRecursive obstacles rangeSq
              (if Num.ge side 0 then l else r) this) as [this1 |] eqn:E1;
    [| discriminate].
  cbn [mbind option_bind].
  assert (Hs1 : sortedKeys (Agent.obstacleNeighbors this1)).
  { destruct (Num.ge side 0); [by eapply IHl | by eapply IHr]. }
  destruct (Num.lt (distSqLine _ _ _) rangeSq); [| by intros [= <-]].
  destruct (if Num.lt side 0 then _ else _) as [this2 |] eqn:E2; [| discriminate].
  cbn [mbind option_bind].
  assert (Hs2 : sortedKeys (Agent.obstacleNeighbors this2)).
  { destruct (Num.lt side 0).
    - by eapply insertObstacleNeighbor_sorted.
    - by injection E2 as <-. }
  destruct (Num.ge side 0); [by apply IHr | by apply IHl].
Qed.

Lemma reached_treeList (pos : Vector2.t) (node : ObstacleTreeNode) (o : nat) :
  reached obstacles rangeSq pos node o -> o ∈ treeList node.
Proof.
  induction 1 as [o l r | o l r o' _ IH | o l r o' _ _ IH]; simpl.
  - by apply elem_of_cons; left.
  - apply elem_of_cons; right. apply elem_of_app.
    destruct (Num.ge _ _); [by left | by right].
  - apply elem_of_cons; right. apply elem_of_app.
    destruct (Num.ge _ _); [by right | by left].
Qed.
End ObstacleNeighborOrder.

(** ** The step, agent by agent *)

Section StepEach.
Import Simulator.

(** The first loop of [doStep] over distinct agents: when the turn of agent
    [i] comes, the agent is as it was when the loop began, and the other
    agents differ from what they were only within [stepFrame]. *)
Lemma computeAll_each : forall (todo : list nat) (s s1 : Simulator.t),
  NoDup todo -> computeAll s todo = Some s1 ->
  forall i a0 a1, i ∈ todo -> agents s !! i = Some a0 -> agents s1 !! i = Some a1 ->
    exists si an,
      si = set_agents (agents si) s
      /\ Forall2 stepFrame (agents s) (agents si)
      /\ computeNeighbors si i a0 = Some an
      /\ a1 = computeNewVelocity si an.
Proof.
  induction todo as [| i todo IH]; intros s s1 Hnd Hall k a0 a1 Hk Ha0 Ha1.
  { by apply elem_of_nil in Hk. }
  apply NoDup_cons in Hnd as [Hi Hnd]. simpl in Hall.
  destruct (agents s !! i) as [a |] eqn:Ea; [| discriminate]. simpl in Hall.
  destruct (computeNeighbors s i a) as [an |] eqn:En; [| discriminate]. simpl in Hall.
  set (s2 := set_agents (<[i := computeNewVelocity s an]> (agents s)) s) in *.
  destruct (computeAll_spec _ _ _ Hall) as (Hs1 & HF & Hout & _).
  destruct (decide (k = i)) as [-> | Hne].
  - exists s, an. rewrite (Hout i Hi) in Ha1. simpl in Ha1.
    rewrite list_lookup_insert_eq in Ha1 by (by eapply lookup_lt_Some).
    rewrite Ea in Ha0. injection Ha0 as <-. injection Ha1 as <-.
    split; [by destruct s |]. split; [| done].
    apply Forall2_same_length_lookup. split; [done |].
    intros j x y Hx Hy. simplify_eq. apply stepFrame_refl.
  - apply elem_of_cons in Hk as [-> | Hk]; [done |].
    assert (Ha2 : agents s2 !! k = Some a0).
    { simpl. by rewrite list_lookup_insert_ne. }
    destruct (IH s2 s1 Hnd Hall k a0 a1 Hk Ha2 Ha1) as (si & ak & Hsi & HFi & Hn & Hv).
    exists si, ak. split; [rewrite Hsi; reflexivity |]. split; [| done].
    assert (HF2 : Forall2 stepFrame (agents s) (agents s2)).
    { destruct (computeNeighbors_ok _ _ _ _ En) as [Hfr1 _].
      destruct (computeNewVelocity_frame s an) as [Hfr2 _].
      apply Forall2_same_length_lookup. split; [simpl; by rewrite length_insert |].
      intros j b0 b Hb0 Hb. simpl in Hb.
      destruct (decide (j = i)) as [-> | Hne'].
      - rewrite list_lookup_insert_eq in Hb by (by eapply lookup_lt_Some).
        simplify_eq. by eapply stepFrame_trans.
      - rewrite list_lookup_insert_ne in Hb by done. simplify_eq. apply stepFrame_refl. }
    apply Forall2_same_length_lookup. split.
    + rewrite <- (Forall2_length _ _ _ HFi). by rewrite <- (Forall2_length _ _ _ HF2).
    + intros j b0 b Hb0 Hb.
      destruct (Forall2_lookup_l _ _ _ _ _ HF2 Hb0) as (b2 & Hb2 & Hfr).
      destruct (Forall2_lookup_l _ _ _ _ _ HFi Hb2) as (b' & Hb' & Hfr').
      simplify_eq. by eapply stepFrame_trans.
Qed.

(** [doStep] seen from one agent: the tree is built, the agent computes its
    neighbours and its new velocity in a simulator whose agents are those of
    the start within [stepFrame], and [update] moves it. *)
Lemma doStep_each (s s' : Simulator.t) (t : float) (i : nat) (a a' : Agent.t) :
  doStep s = Some (s', t) ->
  agents s !! i = Some a -> agents s' !! i = Some a' ->
  exists kd si an,
    buildAgentTree s (kdTree s) = Some kd
    /\ si = set_agents (agents si) (set_kdTree kd s)
    /\ Forall2 stepFrame (agents s) (agents si)
    /\ computeNeighbors si i a = Some an
    /\ a' = update (timeStep s) (computeNewVelocity si an).
Proof.
  unfold doStep. intros Hdo Ha Ha'.
  destruct (buildAgentTree s (kdTree s)) as [kd |]; [| discriminate]. simpl in Hdo.
  destruct (computeAll _ _) as [s1 |] eqn:E; [| discriminate]. simpl in Hdo.
  injection Hdo as <- <-. simpl in Ha'.
  apply list_lookup_fmap_Some in Ha' as (a1 & -> & Ha1).
  destruct (computeAll_spec _ _ _ E) as (Hs1 & _).
  destruct (computeAll_each _ _ _ (NoDup_seq 0 _) E i a a1) as (si & an & Hsi & HF & Hn & Hv);
    [apply elem_of_seq; apply lookup_lt_Some in Ha; lia | exact Ha | exact Ha1 |].
  exists kd, si, an. split; [reflexivity |]. split; [exact Hsi |].
  split; [exact HF |]. split; [exact Hn |].
  rewrite Hv. f_equal. unfold getTimeStep. rewrite Hs1. reflexivity.
Qed.
End StepEach.

(** ** The step reads one snapshot *)

Section Synchronous.
Import Simulator.

(** Two simulators that a step cannot tell apart while it computes: the
    same obstacles, tree and time step, and agents that differ within
    [stepFrame] only. *)
Definition sameSnapshot (s s' : Simulator.t) : Prop :=
  obstacles s' = obstacles s /\ kdTree s' = kdTree s /\ timeStep s' = timeStep s
  /\ Forall2 stepFrame (agents s) (agents s').

Lemma sameSnapshot_getAgent (s s' : Simulator.t) (j : nat) :
  sameSnapshot s s' -> stepFrame (getAgent s j) (getAgent s' j).
Proof.
  intros (_ & _ & _ & HF). unfold getAgent.
  destruct (agents s !! j) as [a |] eqn:E.
  - destruct (Forall2_lookup_l _ _ _ _ _ HF E) as (a' & -> & Hfr). exact Hfr.
  - assert (agents s' !! j = None) as ->; [| apply stepFrame_refl].
    apply lookup_ge_None. rewrite <- (Forall2_length _ _ _ HF). by apply lookup_ge_None.
Qed.

Lemma insertAgentNeighbor_snapshot (s s' : Simulator.t) (self : nat) (this : Agent.t)
    (agent : nat) (rangeSq : float) :
  sameSnapshot s s' ->
  insertAgentNeighbor s' self this agent rangeSq
  = insertAgentNeighbor s self this agent rangeSq.
Proof.
  intros H. unfold insertAgentNeighbor.
  by rewrite (stepFrame_position _ _ (sameSnapshot_getAgent s s' agent H)).
Qed.

Lemma insertLeaf_snapshot (s s' : Simulator.t) (kd : KdTree.t) (self : nat) :
  sameSnapshot s s' ->
  forall (range : list nat) (st : Agent.t * float),
  insertLeaf s' kd self range st = insertLeaf s kd self range st.
Proof.
  intros H. induction range as [| i range IH]; intros st; simpl; [done |].
  destruct (KdTree.agents kd !! i) as [other |]; [| done]. simpl.
  rewrite (insertAgentNeighbor_snapshot s s') by exact H.
  destruct (insertAgentNeighbor s self st.1 other st.2); [apply IH | done].
Qed.

Lemma queryAgentTreeRecursive_snapshot (s s' : Simulator.t) (kd : KdTree.t) (self : nat) :
  sameSnapshot s s' ->
  forall (fuel node : nat) (st : Agent.t * float),
  queryAgentTreeRecursive s' fuel kd self node st
  = queryAgentTreeRecursive s fuel kd self node st.
Proof.
  intros H. induction fuel as [| fuel IH]; intros node st; [done |].
  rewrite !queryAgentTreeRecursive_S.
  destruct (KdTree.agentTree kd !! node) as [n |]; [| done].
  cbn [mbind option_bind].
  rewrite (insertLeaf_snapshot s s') by exact H.
  destruct (_ <=? _)%nat; [done |].
  destruct (KdTree.agentTree kd !! AgentTreeNode.left n) as [nl |]; [| done].
  destruct (KdTree.agentTree kd !! AgentTreeNode.right n) as [nr |]; [| done].
  cbn [mbind option_bind]. cbv zeta. rewrite !IH.
  destruct (Num.lt _ _); destruct (Num.lt _ _); try done;
    destruct (queryAgentTreeRecursive s fuel kd self _ st); try done;
    cbn [mbind option_bind]; by rewrite IH.
Qed.

Lemma computeNeighbors_snapshot (s s' : Simulator.t) (self : nat) (this : Agent.t) :
  sameSnapshot s s' ->
  computeNeighbors s' self this = computeNeighbors s self this.
Proof.
  intros H. pose proof H as (Ho & Hk & _ & _).
  unfold computeNeighbors, computeObstacleNeighbors, computeAgentNeighbors.
  rewrite Ho, Hk.
  destruct (queryObstacleTreeRecursive _ _ _ _) as [this1 |]; [| done].
  cbn [mbind option_bind]. cbv zeta.
  destruct (0 <? _)%nat; [| done].
  by rewrite (queryAgentTreeRecursive_snapshot s s').
Qed.

Lemma agentLine_stepFrame (timeStep : float) (this this' other other' : Agent.t) :
  stepFrame this this' -> stepFrame other other' ->
  agentLine timeStep this' other' = agentLine timeStep this other.
Proof. unfold stepFrame. intros -> ->. reflexivity. Qed.

Lemma computeNewVelocity_snapshot (s s' : Simulator.t) (this : Agent.t) :
  sameSnapshot s s' ->
  computeNewVelocity s' this = computeNewVelocity s this.
Proof.
  intros H. pose proof H as (Ho & _ & Ht & _).
  assert (Hl : orcaLinesOf s' this = orcaLinesOf s this).
  { unfold orcaLinesOf, getTimeStep. rewrite Ho, Ht. f_equal.
    apply map_ext. intros e.
    apply agentLine_stepFrame; [apply stepFrame_refl | by apply sameSnapshot_getAgent]. }
  unfold computeNewVelocity. by rewrite Hl.
Qed.
End Synchronous.

(** ** The step as a whole *)

Section StepTheorems.
Import Simulator.
Local Open Scope float_scope.

(** [doStep] seen from one agent, in terms of the simulator before the
    step. *)
Lemma doStep_agent (s s' : Simulator.t) (t : float) :
  doStep s = Some (s', t) ->
  exists kd,
    buildAgentTree s (kdTree s) = Some kd
    /\ s' = Simulator.mk (agents s') (obstacles s) kd (timeStep s) (defaultAgent s)
                         (globalTime s + timeStep s)
    /\ length (agents s') = length (agents s)
    /\ forall i a, agents s !! i = Some a ->
         exists an,
           computeNeighbors (set_kdTree kd s) i a = Some an
           /\ agents s' !! i
              = Some (update (timeStep s) (computeNewVelocity (set_kdTree kd s) an)).
Proof.
  intros Hdo. pose proof Hdo as Hdo'. unfold doStep in Hdo'.
  destruct (buildAgentTree s (kdTree s)) as [kd |] eqn:Hkd; [| discriminate].
  simpl in Hdo'.
  destruct (computeAll _ _) as [s1 |] eqn:E; [| discriminate]. simpl in Hdo'.
  destruct (computeAll_spec _ _ _ E) as (Hs1 & HF & _).
  injection Hdo' as Hs' _.
  assert (Hlen : length (agents s') = length (agents s)).
  { rewrite <- Hs'. simpl. rewrite length_map.
    symmetry. exact (Forall2_length _ _ _ HF). }
  exists kd. split; [reflexivity |]. split; [| split; [exact Hlen |]].
  { rewrite <- Hs'. rewrite Hs1. reflexivity. }
  intros i a Ha.
  destruct (lookup_lt_is_Some_2 (agents s') i) as [a' Ha'].
  { rewrite Hlen. by eapply lookup_lt_Some. }
  destruct (doStep_each s s' t i a a' Hdo Ha Ha')
    as (kd0 & si & an & Hkd0 & Hsi & HFi & Hn & Hv).
  rewrite Hkd in Hkd0. injection Hkd0 as <-.
  assert (Hsnap : sameSnapshot (set_kdTree kd s) si).
  { rewrite Hsi. by repeat split. }
  exists an. rewrite <- (computeNeighbors_snapshot _ _ _ _ Hsnap).
  rewrite <- (computeNewVelocity_snapshot _ _ _ Hsnap). split; [exact Hn |].
  by rewrite Ha', Hv.
Qed.

(** A step is synchronous.  In the source the first loop of [doStep] writes
    into each agent in turn while later agents read earlier ones; what it
    writes (the neighbour lists, the ORCA lines, [newVelocity]) is nothing a
    later agent reads, so every agent computes from the simulator as it was
    before the step, with the agent tree rebuilt, and [update] moves it. *)
Theorem doStep_synchronous (s s' : Simulator.t) (t : float) :
  doStep s = Some (s', t) ->
  exists kd,
    buildAgentTree s (kdTree s) = Some kd
    /\ kdTree s' = kd
    /\ getNumAgents s' = getNumAgents s
    /\ forall i a, agents s !! i = Some a ->
         exists an,
           computeNeighbors (set_kdTree kd s) i a = Some an
           /\ agents s' !! i
              = Some (update (timeStep s) (computeNewVelocity (set_kdTree kd s) an)).
Proof.
  intros Hdo. destruct (doStep_agent s s' t Hdo) as (kd & Hkd & Hs' & Hlen & Hall).
  exists kd. split; [exact Hkd |]. split; [by rewrite Hs' |].
  split; [exact Hlen | exact Hall].
Qed.

Lemma doStep_synchronous_witness :
  exists an,
    computeNeighbors (set_kdTree (kdTree tiedSceneAfter) tiedScene) 0
                     (getAgent tiedScene 0) = Some an
    /\ agents tiedSceneAfter !! 0%nat
       = Some (update (timeStep tiedScene)
                 (computeNewVelocity (set_kdTree (kdTree tiedSceneAfter) tiedScene) an)).
Proof.
  destruct (doStep_synchronous tiedScene tiedSceneAfter 0.1)
    as (kd & _ & <- & _ & Hall); [vm_compute; reflexivity |].
  exact (Hall 0%nat (getAgent tiedScene 0) eq_refl).
Defined.

(** What a step changes of the simulator: the agent tree, the global time,
    and of each agent the two neighbour lists, the ORCA lines, the velocity,
    which becomes the new velocity, and the position, which advances by the
    new velocity times the time step.  The number of agents, their other
    fields, the obstacles, the obstacle tree, the defaults and the time step
    stay. *)
Theorem doStep_moves_agents (s s' : Simulator.t) (t : float) :
  doStep s = Some (s', t) ->
  getNumAgents s' = getNumAgents s
  /\ obstacles s' = obstacles s
  /\ KdTree.obstacleTree (kdTree s') = KdTree.obstacleTree (kdTree s)
  /\ defaultAgent s' = defaultAgent s
  /\ timeStep s' = timeStep s
  /\ forall i a a', agents s !! i = Some a -> agents s' !! i = Some a' ->
       Agent.velocity a' = Agent.newVelocity a'
       /\ Agent.position a'
          = Vector2.add (Agent.position a)
                        (Vector2.multiply (Agent.velocity a') (timeStep s))
       /\ Agent.id a' = Agent.id a
       /\ Agent.prefVelocity a' = Agent.prefVelocity a
       /\ Agent.maxNeighbors a' = Agent.maxNeighbors a
       /\ Agent.maxSpeed a' = Agent.maxSpeed a
       /\ Agent.neighborDist a' = Agent.neighborDist a
       /\ Agent.radius a' = Agent.radius a
       /\ Agent.timeHorizon a' = Agent.timeHorizon a
       /\ Agent.timeHorizonObst a' = Agent.timeHorizonObst a.
Proof.
  intros Hdo. destruct (doStep_agent s s' t Hdo) as (kd & Hkd & Hs' & Hlen & Hall).
  destruct (buildAgentTree_Permutation s _ _ Hkd) as (_ & _ & Htree).
  split; [exact Hlen |]. rewrite Hs'. simpl.
  split; [reflexivity |]. split; [exact Htree |]. split; [reflexivity |].
  split; [reflexivity |].
  intros i a a' Ha Ha'. destruct (Hall i a Ha) as (an & Hn & Ha2).
  rewrite Ha' in Ha2. injection Ha2 as ->.
  destruct (computeNeighbors_ok _ _ _ _ Hn) as [Hfr1 _].
  destruct (computeNewVelocity_frame (set_kdTree kd s) an) as [Hfr2 _].
  pose proof (stepFrame_trans _ _ _ Hfr1 Hfr2) as Hfr.
  set (b := computeNewVelocity (set_kdTree kd s) an) in *.
  unfold stepFrame in Hfr. unfold update. simpl. rewrite Hfr. simpl. done.
Qed.

Lemma doStep_moves_agents_witness :
  exists a', agents tiedSceneAfter !! 0%nat = Some a'
    /\ Agent.position a'
       = Vector2.add (Vector2.mk 0 0) (Vector2.multiply (Agent.velocity a') 0.1).
Proof.
  eexists. split; [reflexivity |].
  pose proof (doStep_moves_agents tiedScene tiedSceneAfter 0.1
                ltac:(vm_compute; reflexivity)) as (_ & _ & _ & _ & _ & Hall).
  exact (proj1 (proj2 (Hall 0%nat _ _ eq_refl eq_refl))).
Defined.
End StepTheorems.

(** ** The nearest neighbours *)

Section NeighborTheorems.
Import Simulator.
Local Open Scope float_scope.

(** The agent-neighbour query that [computeNeighbors] starts (empty list,
    squared range [r0]) returns with the range cell at [r0] as long as the
    list is not full, and at the largest key of the list once it is full;
    every key is below [r0]. *)
Theorem agent_query_range (s : Simulator.t) (kd : KdTree.t) (self : nat)
    (this this' : Agent.t) (r0 r' : float) :
  (0 < Agent.maxNeighbors this)%nat ->
  Agent.agentNeighbors this = [] ->
  computeAgentNeighbors s kd self this r0 = Some (this', r') ->
  let l := Agent.agentNeighbors this' in
  this' = Agent.set_agentNeighbors l this
  /\ (length l <= Agent.maxNeighbors this)%nat
  /\ Forall (fun e => Num.lt e.1 r0 = true) l
  /\ ((length l < Agent.maxNeighbors this)%nat -> r' = r0)
  /\ (length l = Agent.maxNeighbors this ->
      exists e, list.last l = Some e /\ r' = e.1 /\ Num.lt r' r0 = true).
Proof.
  intros Hm Hnil Hq l. unfold computeAgentNeighbors in Hq.
  set (Inv := fun st : Agent.t * float =>
                rangeInv s self (Agent.position this) (Agent.maxNeighbors this) r0 st
                /\ exists l0, st.1 = Agent.set_agentNeighbors l0 this).
  assert (H : Inv (this', r')).
  { eapply (queryAgentTreeRecursive_keeps s self kd Inv); [| | exact Hq].
    - intros st other st' _ [Hst [l0 Hl0]] Hins.
      destruct (insertAgentNeighbor_rangeInv s self _ _ r0 [] st st' other Hm Hst)
        as (Hst' & _ & _ & l1 & Hl1); [| exact Hins |].
      + intros j Hj. by apply elem_of_nil in Hj.
      + split; [exact Hst' |]. exists l1. rewrite Hl1, Hl0. reflexivity.
    - split.
      + unfold rangeInv. simpl. rewrite Hnil. simpl.
        split; [done |]. split; [done |]. split; [apply neighbors_ok_nil |].
        split; [constructor |]. split; [done | lia].
      + exists []. rewrite <- Hnil. by destruct this. }
  destruct H as [(Hpos & Hmax & Hok & Hkeys & Hlt & Hfull) [l0 Hl0]]. simpl in *.
  fold l in Hok, Hkeys, Hlt, Hfull.
  assert (Hll : l = l0) by (unfold l; rewrite Hl0; reflexivity).
  split; [rewrite Hll; exact Hl0 |].
  split; [apply Hok |]. split; [exact Hkeys |]. split; [exact Hlt |].
  intros Hl. destruct (Hfull Hl) as (e & He & Hr). exists e.
  split; [exact He |]. split; [exact Hr |]. rewrite Hr.
  apply (proj1 (Forall_forall _ _) Hkeys). by apply last_Some_elem_of.
Qed.

Lemma agent_query_range_witness :
  exists this' r',
    computeAgentNeighbors tiedScene (kdTree tiedSceneAfter) 0 (getAgent tiedScene 0) 225
    = Some (this', r')
    /\ ((length (Agent.agentNeighbors this') < 10)%nat -> r' = 225).
Proof.
  eexists _, _. split; [vm_compute; reflexivity |].
  refine (proj1 (proj2 (proj2 (proj2
            (agent_query_range tiedScene (kdTree tiedSceneAfter) 0
               (getAgent tiedScene 0) _ 225 _ _ _ _))))).
  - vm_compute. lia.
  - reflexivity.
  - vm_compute. reflexivity.
Defined.

(** The agent tree of a simulator lists every agent once, in an array as
    long as the node array is half as long. *)
Definition kdTreeCurrent (s : Simulator.t) : Prop :=
  KdTree.agents (kdTree s) ≡ₚ seq 0 (length (KdTree.agents (kdTree s)))
  /\ length (KdTree.agentTree (kdTree s)) = (2 * length (KdTree.agents (kdTree s)))%nat.

Lemma kdTreeCurrent_treeAllocated (s : Simulator.t) :
  kdTreeCurrent s -> treeAllocated s.
Proof. intros [_ H] E. by rewrite H, E. Qed.

Lemma buildAgentTree_current (s : Simulator.t) (kd : KdTree.t) :
  kdTreeCurrent s -> buildAgentTree s (kdTree s) = Some kd ->
  KdTree.agents kd ≡ₚ seq 0 (getNumAgents s)
  /\ length (KdTree.agentTree kd) = (2 * getNumAgents s)%nat.
Proof.
  intros [Hp Hl] Hkd.
  destruct (buildAgentTree_Permutation s _ _ Hkd) as (Hp' & Hl' & _).
  destruct (decide _) as [E | _]; [| done].
  rewrite Hp', Hl'. split; [by rewrite <- E | by rewrite Hl, E].
Qed.

(** With the root a leaf over all agents, [computeNeighbors] offers every
    agent. *)
Lemma computeNeighbors_nearest (s : Simulator.t) (self : nat) (this this' : Agent.t) :
  leafRoot (kdTree s) (getNumAgents s) ->
  (0 < getNumAgents s <= KdTree.MAX_LEAF_SIZE)%nat ->
  KdTree.agents (kdTree s) ≡ₚ seq 0 (getNumAgents s) ->
  (0 < Agent.maxNeighbors this)%nat ->
  computeNeighbors s self this = Some this' ->
  offeredAll s self (Agent.position this) (Agent.maxNeighbors this)
             (RVOMath.sqr (Agent.neighborDist this)) (seq 0 (getNumAgents s))
             (Agent.agentNeighbors this').
Proof.
  intros [Hagents Hroot] [Hpos Hsmall] Hperm Hm.
  unfold computeNeighbors, computeObstacleNeighbors.
  set (this0 := Agent.set_obstacleNeighbors [] this).
  destruct (queryObstacleTreeRecursive_spec (Simulator.obstacles s)
              (RVOMath.sqr (Agent.timeHorizonObst this0 * Agent.maxSpeed this0
                            + Agent.radius this0))
              (Agent.position this) (KdTree.obstacleTree (kdTree s)) this0 eq_refl)
    as (lo & -> & _).
  cbn [mbind option_bind]. cbv zeta.
  change (Agent.maxNeighbors (Agent.set_agentNeighbors []
            (Agent.set_obstacleNeighbors lo this0))) with (Agent.maxNeighbors this).
  destruct (Nat.ltb_spec 0 (Agent.maxNeighbors this)) as [_ | ?]; [| lia].
  unfold computeAgentNeighbors. rewrite queryAgentTreeRecursive_S.
  destruct (Hroot Hpos) as (root & -> & Hb & He). cbn [mbind option_bind].
  rewrite Hb, He.
  replace (getNumAgents s - 0 <=? KdTree.MAX_LEAF_SIZE)%nat with true
    by (symmetry; apply Nat.leb_le; lia).
  rewrite Nat.sub_0_r.
  destruct (insertLeaf _ _ _ _ _) as [st |] eqn:El; [| discriminate].
  cbn [mbind option_bind]. intros [= <-].
  apply (insertLeaf_offeredAll s self (kdTree s) (Agent.position this)
           (Agent.maxNeighbors this) (RVOMath.sqr (Agent.neighborDist this)) Hm
           _ []) in El as (seen' & _ & Hoff & _ & Hall).
  2: { unfold rangeInv. simpl.
       split; [done |]. split; [done |]. split; [apply neighbors_ok_nil |].
       split; [constructor |]. split; [done | lia]. }
  2: { intros j Hj. by apply elem_of_nil in Hj. }
  - intros j Hj. apply Hoff.
    rewrite <- Hperm in Hj. apply list_elem_of_lookup in Hj as [i Hi].
    apply (Hall i j); [| exact Hi]. apply elem_of_seq.
    apply lookup_lt_Some in Hi. rewrite Hagents in Hi. lia.
Qed.

(** With at most [MAX_LEAF_SIZE] agents the neighbours a step finds are
    the nearest ones.  For an agent with [maxNeighbors > 0], every other agent
    whose squared distance (between the positions before the step) is below
    the square of [neighborDist] is in the agent-neighbour list with that
    distance as its key, unless the list is full and none of its keys is
    above that distance. *)
Theorem nearest_neighbors (s s' : Simulator.t) (t : float) (i j : nat)
    (a a' b : Agent.t) :
  kdTreeCurrent s ->
  (getNumAgents s <= KdTree.MAX_LEAF_SIZE)%nat ->
  doStep s = Some (s', t) ->
  agents s !! i = Some a -> agents s' !! i = Some a' ->
  (0 < Agent.maxNeighbors a)%nat ->
  agents s !! j = Some b -> j <> i ->
  let distSq := RVOMath.absSq (Vector2.subtract (Agent.position a) (Agent.position b)) in
  Num.lt distSq (RVOMath.sqr (Agent.neighborDist a)) = true ->
  (distSq, j) ∈ Agent.agentNeighbors a'
  \/ (length (Agent.agentNeighbors a') = Agent.maxNeighbors a
      /\ Forall (fun e => Num.le e.1 distSq = true) (Agent.agentNeighbors a')).
Proof.
  intros Hkd Hsmall Hdo Ha Ha' Hm Hb Hji distSq Hlt.
  destruct (doStep_agent s s' t Hdo) as (kd & Hbuild & _ & _ & Hall).
  destruct (Hall i a Ha) as (an & Hn & Ha2).
  rewrite Ha' in Ha2. injection Ha2 as ->.
  destruct (buildAgentTree_small s (kdTreeCurrent_treeAllocated s Hkd) Hsmall)
    as (kd0 & Hkd0 & Hleaf).
  rewrite Hbuild in Hkd0. injection Hkd0 as <-.
  destruct (buildAgentTree_current s kd Hkd Hbuild) as [Hperm _].
  assert (Hpos : (0 < getNumAgents s)%nat).
  { unfold getNumAgents. apply lookup_lt_Some in Ha. lia. }
  pose proof (computeNeighbors_nearest (set_kdTree kd s) i a an Hleaf
                (conj Hpos Hsmall) Hperm Hm Hn) as Hoff.
  assert (Hsame : Agent.agentNeighbors
                    (update (timeStep s) (computeNewVelocity (set_kdTree kd s) an))
                  = Agent.agentNeighbors an).
  { destruct (computeNewVelocity_frame (set_kdTree kd s) an) as [_ E].
    rewrite <- E. reflexivity. }
  rewrite Hsame.
  assert (Hd : distSqTo (set_kdTree kd s) (Agent.position a) j = distSq).
  { unfold distSqTo, getAgent. simpl. by rewrite Hb. }
  rewrite <- Hd. apply Hoff.
  - apply elem_of_seq. apply lookup_lt_Some in Hb. unfold getNumAgents. simpl. lia.
  - exact Hji.
  - rewrite Hd. exact Hlt.
Qed.

Lemma nearest_neighbors_witness :
  let a := getAgent tiedScene 0 in
  let b := getAgent tiedScene 2 in
  let a' := getAgent tiedSceneAfter 0 in
  let distSq := RVOMath.absSq (Vector2.subtract (Agent.position a) (Agent.position b)) in
  (distSq, 2%nat) ∈ Agent.agentNeighbors a'
  \/ (length (Agent.agentNeighbors a') = Agent.maxNeighbors a
      /\ Forall (fun e => Num.le e.1 distSq = true) (Agent.agentNeighbors a')).
Proof.
  intros a b a' distSq.
  apply (nearest_neighbors tiedScene tiedSceneAfter 0.1 0 2 a a' b).
  - split; reflexivity.
  - vm_compute. lia.
  - vm_compute. reflexivity.
  - reflexivity.
  - reflexivity.
  - vm_compute. lia.
  - reflexivity.
  - lia.
  - vm_compute. reflexivity.
Defined.
End NeighborTheorems.

(** ** The obstacle neighbours after a step *)

Section ObstacleNeighborTheorems.
Import Simulator.
Local Open Scope float_scope.

(** The obstacle neighbours [computeNeighbors] leaves are those of the
    obstacle query run from an empty list. *)
Lemma computeNeighbors_obstacles (s : Simulator.t) (self : nat) (this this' : Agent.t) :
  computeNeighbors s self this = Some this' ->
  let this0 := Agent.set_obstacleNeighbors [] this in
  queryObstacleTreeRecursive (obstacles s)
    (RVOMath.sqr (Agent.timeHorizonObst this * Agent.maxSpeed this + Agent.radius this))
    (KdTree.obstacleTree (kdTree s)) this0
  = Some (Agent.set_obstacleNeighbors (Agent.obstacleNeighbors this') this0).
Proof.
  unfold computeNeighbors, computeObstacleNeighbors.
  set (this0 := Agent.set_obstacleNeighbors [] this).
  destruct (queryObstacleTreeRecursive_spec (Simulator.obstacles s)
              (RVOMath.sqr (Agent.timeHorizonObst this0 * Agent.maxSpeed this0
                            + Agent.radius this0))
              (Agent.position this) (KdTree.obstacleTree (kdTree s)) this0 eq_refl)
    as (lo & E & _).
  rewrite E. simpl.
  destruct (0 <? Agent.maxNeighbors this)%nat.
  - unfold computeAgentNeighbors.
    destruct (queryAgentTreeRecursive _ _ _ _ _ _) as [st |] eqn:Eq; [| discriminate].
    simpl. intros [= <-].
    destruct (queryAgentTreeRecursive_ok s self (Agent.position this) _ _ _
                (Agent.set_agentNeighbors [] (Agent.set_obstacleNeighbors lo this0),
                 RVOMath.sqr (Agent.neighborDist this))
                st eq_refl (neighbors_ok_nil _ _ _ _) Eq) as (la & Ela & Hok).
    rewrite Ela. exact E.
  - intros [= <-]. exact E.
Qed.

(** After a step the obstacle-neighbour list of every agent is in ascending
    order of its keys (equal keys allowed), however long it is.  Each entry
    is an edge at a node of the obstacle tree; its key is the squared distance
    from the agent's position before the step to the edge, below the squared
    range [(timeHorizonObst * maxSpeed + radius)^2]; the agent is strictly on
    the right of the edge's line, and closer to that line than the range. *)
Theorem obstacle_neighbors_sorted (s s' : Simulator.t) (t : float) (i : nat)
    (a a' : Agent.t) :
  doStep s = Some (s', t) ->
  agents s !! i = Some a -> agents s' !! i = Some a' ->
  let l := Agent.obstacleNeighbors a' in
  let rangeSq :=
    RVOMath.sqr (Agent.timeHorizonObst a * Agent.maxSpeed a + Agent.radius a) in
  (forall k e1 e2, l !! k = Some e1 -> l !! S k = Some e2 -> Num.le e1.1 e2.1 = true)
  /\ (forall e, e ∈ l ->
        e.1 = edgeDistSq (obstacles s) (Agent.position a) e.2
        /\ Num.lt e.1 rangeSq = true
        /\ e.2 ∈ treeList (KdTree.obstacleTree (kdTree s))
        /\ Num.lt (agentLeftOfLine (obstacles s) (Agent.position a) e.2) 0 = true
        /\ Num.lt (distSqLine (obstacles s) (Agent.position a) e.2) rangeSq = true).
Proof.
  intros Hdo Ha Ha' l rangeSq.
  destruct (doStep_agent s s' t Hdo) as (kd & Hbuild & _ & _ & Hall).
  destruct (Hall i a Ha) as (an & Hn & Ha2).
  rewrite Ha' in Ha2. injection Ha2 as Ea'.
  destruct (buildAgentTree_Permutation s _ _ Hbuild) as (_ & _ & Htree).
  assert (Hl : l = Agent.obstacleNeighbors an).
  { unfold l. rewrite Ea'. unfold computeNewVelocity.
    destruct (linearProgram2 _ _ _ _). reflexivity. }
  pose proof (computeNeighbors_obstacles _ _ _ _ Hn) as Hq. simpl in Hq.
  rewrite Htree, <- Hl in Hq. fold rangeSq in Hq.
  split.
  - apply ascending_lookup.
    apply (queryObstacleTreeRecursive_sorted (obstacles s) rangeSq _ _ _) in Hq;
      [apply Hq | split; [exact I | constructor]].
  - intros e He.
    destruct (queryObstacleTreeRecursive_spec (obstacles s) rangeSq (Agent.position a)
                (KdTree.obstacleTree (kdTree s)) (Agent.set_obstacleNeighbors [] a) eq_refl)
      as (l0 & E0 & H0).
    rewrite Hq in E0. injection E0 as <-.
    apply H0 in He as [He | (o & (Hr & Hside & Hline) & Hd & ->)].
    { simpl in He. by apply elem_of_nil in He. }
    unfold edgeEntry. simpl.
    split; [reflexivity |]. split; [exact Hd |].
    split; [by eapply reached_treeList |]. split; [exact Hside | exact Hline].
Qed.
Lemma obstacle_neighbors_sorted_witness :
  exists s' t a',
    doStep wallScene = Some (s', t)
    /\ agents s' !! 0%nat = Some a'
    /\ Agent.obstacleNeighbors a' = [(25, 2%nat); (25, 3%nat)]
    /\ (forall k e1 e2, Agent.obstacleNeighbors a' !! k = Some e1 ->
          Agent.obstacleNeighbors a' !! S k = Some e2 -> Num.le e1.1 e2.1 = true).
Proof.
  destruct (doStep wallScene) as [[s' t] |] eqn:E; [| vm_compute in E; discriminate E].
  destruct (agents s' !! 0%nat) as [a' |] eqn:Ea.
  2: { vm_compute in E. injection E as <- _. discriminate Ea. }
  exists s', t, a'. split; [reflexivity |]. split; [exact Ea |].
  split.
  - vm_compute in E. injection E as <- _. injection Ea as <-. reflexivity.
  - exact (proj1 (obstacle_neighbors_sorted wallScene s' t 0 (getAgent wallScene 0) a'
                    E eq_refl Ea)).
Defined.
End ObstacleNeighborTheorems.

(** ** The new velocity *)

Section VelocityTheorems.
Import Simulator.
Local Open Scope float_scope.

(** The test of the loop of [linearProgram2]: the velocity is on the wrong
    side of the line. *)
Definition violates (line : Line.t) (v : Vector2.t) : bool :=
  Num.gt (RVOMath.det (Line.direction line) (Vector2.subtract (Line.point line) v)) 0.0.

Lemma linearProgram2_loop_feasible (lines : list Line.t) (radius : float)
    (optVelocity : Vector2.t) (directionOpt : bool) (v : Vector2.t) :
  forall (rest : list Line.t) (i : nat),
  Forall (fun line => violates line v = false) rest ->
  linearProgram2_loop lines radius optVelocity directionOpt rest i v = (length lines, v).
Proof.
  induction rest as [| li rest IH]; intros i Hall; [reflexivity |].
  inversion Hall as [| ? ? Hli Hrest]; subst. simpl.
  unfold violates in Hli. rewrite Hli. by apply IH.
Qed.

Lemma linearProgram2_loop_result (lines : list Line.t) (radius : float)
    (optVelocity : Vector2.t) (directionOpt : bool) :
  forall (rest : list Line.t) (i : nat) (v : Vector2.t),
  drop i lines = rest -> (i <= length lines)%nat ->
  let res := linearProgram2_loop lines radius optVelocity directionOpt rest i v in
  (i <= res.1 <= length lines)%nat
  /\ ((res.1 < length lines)%nat ->
      linearProgram1 lines res.1 radius optVelocity directionOpt = None
      /\ violates (lineAt lines res.1) res.2 = true)
  /\ (res.2 = v
      \/ exists j, (i <= j < res.1)%nat
                   /\ linearProgram1 lines j radius optVelocity directionOpt = Some res.2).
Proof.
  induction rest as [| li rest IH]; intros i v Hdrop Hle.
  - simpl. assert (length lines <= i)%nat.
    { apply (f_equal length) in Hdrop. rewrite length_drop in Hdrop. simpl in Hdrop. lia. }
    split; [lia |]. split; [lia |]. by left.
  - assert (Hi : lines !! i = Some li).
    { rewrite <- (Nat.add_0_r i), <- lookup_drop, Hdrop. reflexivity. }
    assert (Hrest : drop (S i) lines = rest).
    { rewrite <- (Nat.add_1_r i), <- drop_drop, Hdrop. reflexivity. }
    pose proof (lookup_lt_Some _ _ _ Hi) as Hlt.
    cbn [linearProgram2_loop].
    destruct (Num.gt _ _) eqn:Hv.
    + destruct (linearProgram1 lines i radius optVelocity directionOpt) as [result |] eqn:E1.
      * specialize (IH (S i) result Hrest ltac:(lia)). cbv zeta in IH.
        destruct IH as (Hk & Hfail & Hres).
        split; [lia |]. split; [exact Hfail |]. right.
        destruct Hres as [-> | (j & Hj & Hj1)].
        -- exists i. split; [lia | exact E1].
        -- exists j. split; [lia | exact Hj1].
      * simpl. split; [lia |]. split; [| by left].
        intros _. split; [exact E1 |]. unfold violates, lineAt. rewrite Hi. exact Hv.
    + specialize (IH (S i) v Hrest ltac:(lia)). cbv zeta in IH.
      destruct IH as (Hk & Hfail & Hres).
      split; [lia |]. split; [exact Hfail |].
      destruct Hres as [-> | (j & Hj & Hj1)]; [by left |].
      right. exists j. split; [lia | exact Hj1].
Qed.

(** [linearProgram2] returns the number of the line it fails on, or the
    number of lines.  When it fails, on line [k], that is because
    [linearProgram1] returned false for line [k], which the velocity left in
    [newVelocity] violates; in either case that velocity is the one the loop
    started from or what [linearProgram1] computed for an earlier line. *)
Theorem linearProgram2_result (lines : list Line.t) (radius : float)
    (optVelocity : Vector2.t) (directionOpt : bool) :
  let res := linearProgram2 lines radius optVelocity directionOpt in
  (res.1 <= length lines)%nat
  /\ ((res.1 < length lines)%nat ->
      linearProgram1 lines res.1 radius optVelocity directionOpt = None
      /\ violates (lineAt lines res.1) res.2 = true)
  /\ (res.2 = seedVelocity radius optVelocity directionOpt
      \/ exists j, (j < res.1)%nat
                   /\ linearProgram1 lines j radius optVelocity directionOpt = Some res.2).
Proof.
  unfold linearProgram2.
  destruct (linearProgram2_loop_result lines radius optVelocity directionOpt lines 0
              (seedVelocity radius optVelocity directionOpt) eq_refl ltac:(lia))
    as (Hk & Hfail & Hres).
  split; [lia |]. split; [exact Hfail |].
  destruct Hres as [E | (j & Hj & Hj1)]; [by left |].
  right. exists j. split; [lia | exact Hj1].
Qed.

(** The velocity an agent prefers, cut to the length [maxSpeed] when it is
    longer, is the velocity the agent gets whenever it violates none of the
    agent's ORCA lines; in particular when the agent has no neighbour. *)
Theorem feasible_velocity_kept (s : Simulator.t) (timeStep : float) (this : Agent.t) :
  let seed := seedVelocity (Agent.maxSpeed this) (Agent.prefVelocity this) false in
  (Forall (fun line => violates line seed = false) (orcaLinesOf s this) ->
   Agent.velocity (update timeStep (computeNewVelocity s this)) = seed)
  /\ (Agent.obstacleNeighbors this = [] -> Agent.agentNeighbors this = [] ->
      Agent.velocity (update timeStep (computeNewVelocity s this)) = seed)
  /\ seed = (if Num.gt (RVOMath.absSq (Agent.prefVelocity this))
                       (RVOMath.sqr (Agent.maxSpeed this))
             then Vector2.multiply (RVOMath.normalize (Agent.prefVelocity this))
                                   (Agent.maxSpeed this)
             else Agent.prefVelocity this).
Proof.
  intros seed.
  assert (H : Forall (fun line => violates line seed = false) (orcaLinesOf s this) ->
              Agent.velocity (update timeStep (computeNewVelocity s this)) = seed).
  { intros Hall. unfold computeNewVelocity, linearProgram2.
    rewrite (linearProgram2_loop_feasible _ _ _ _ _ _ _ Hall).
    rewrite Nat.ltb_irrefl. reflexivity. }
  split; [exact H |]. split; [| reflexivity].
  intros Ho Ha. apply H. unfold orcaLinesOf. rewrite Ho, Ha. constructor.
Qed.

Lemma feasible_velocity_kept_witness :
  let this := getAgent testScene 0 in
  Agent.velocity (update 0.25 (computeNewVelocity testScene this)) = Vector2.mk 1 0.
Proof.
  intros this.
  apply (proj1 (proj2 (feasible_velocity_kept testScene 0.25 this))); reflexivity.
Defined.

Lemma obstacleOrcaStep_length (obstacles : list Obstacle.t) (this : Agent.t) :
  forall (l : list Agent.entry) (acc : list Line.t),
  (length (foldl (obstacleOrcaStep obstacles this) acc l) <= length acc + length l)%nat.
Proof.
  induction l as [| e l IH]; intros acc; simpl; [lia |].
  etransitivity; [apply IH |].
  unfold obstacleOrcaStep. destruct (alreadyCovered _ _ _ _ _); [lia |].
  destruct (obstacleLine _ _ _); rewrite ?length_app; simpl; lia.
Qed.

(** The ORCA lines a step leaves with an agent: first the lines against
    obstacles, at most one for each obstacle neighbour, then exactly one line
    for each agent neighbour, in the order of the neighbour list, computed
    from the positions and velocities that the two agents had before the
    step. *)
Theorem orcaLines_of_step (s s' : Simulator.t) (t : float) (i : nat) (a a' : Agent.t) :
  doStep s = Some (s', t) ->
  agents s !! i = Some a -> agents s' !! i = Some a' ->
  exists obstLines,
    Agent.orcaLines a'
    = obstLines
      ++ map (fun e : Agent.entry => agentLine (timeStep s) a (getAgent s e.2))
             (Agent.agentNeighbors a')
    /\ (length obstLines <= length (Agent.obstacleNeighbors a'))%nat.
Proof.
  intros Hdo Ha Ha'.
  destruct (doStep_agent s s' t Hdo) as (kd & Hbuild & _ & _ & Hall).
  destruct (Hall i a Ha) as (an & Hn & Ha2).
  rewrite Ha' in Ha2. injection Ha2 as ->.
  destruct (computeNeighbors_ok _ _ _ _ Hn) as [Hfr _].
  assert (E : forall b : Agent.t,
            update (timeStep s) (computeNewVelocity (set_kdTree kd s) an) = b ->
            Agent.orcaLines b = orcaLinesOf (set_kdTree kd s) an
            /\ Agent.agentNeighbors b = Agent.agentNeighbors an
            /\ Agent.obstacleNeighbors b = Agent.obstacleNeighbors an).
  { intros b <-. unfold computeNewVelocity. destruct (linearProgram2 _ _ _ _). done. }
  destruct (E _ eq_refl) as (-> & -> & ->). unfold orcaLinesOf.
  eexists. split.
  - f_equal. apply map_ext. intros e.
    apply (agentLine_stepFrame _ a an); [exact Hfr | apply stepFrame_refl].
  - etransitivity; [apply obstacleOrcaStep_length | simpl; lia].
Qed.

Lemma orcaLines_of_step_witness :
  exists a' obstLines,
    agents tiedSceneAfter !! 0%nat = Some a'
    /\ Agent.orcaLines a'
       = obstLines
         ++ map (fun e : Agent.entry =>
                   agentLine 0.1 (getAgent tiedScene 0) (getAgent tiedScene e.2))
                (Agent.agentNeighbors a')
    /\ (length obstLines <= length (Agent.obstacleNeighbors a'))%nat.
Proof.
  destruct (orcaLines_of_step tiedScene tiedSceneAfter 0.1 0
              (getAgent tiedScene 0) (getAgent tiedSceneAfter 0))
    as (obstLines & E & Hlen).
  - vm_compute. reflexivity.
  - reflexivity.
  - reflexivity.
  - exists (getAgent tiedSceneAfter 0), obstLines. split; [reflexivity |].
    split; [exact E | exact Hlen].
Defined.
End VelocityTheorems.

(** ** The visibility query *)

Section NumberOrderStrict.
Lemma lt_not_le (a b : float) : Num.lt a b = true -> Num.le b a = false.
Proof.
  unfold Num.lt, Num.le. rewrite ltb_spec, leb_spec. unfold SFltb, SFleb.
  destruct (SFcompare (Prim2SF a) (Prim2SF b)) as [c |] eqn:E; [| discriminate].
  rewrite (SFcompare_antisym _ _ _ E). by destruct c.
Qed.
End NumberOrderStrict.

Section VisibilityTheorems.
Local Open Scope float_scope.
Variables (obstacles : list Obstacle.t) (q1 q2 : Vector2.t) (radius : float).

(** The signed distances of the two query points to the line of the edge
    that starts at vertex [o], and the reciprocal of the squared length of
    that edge. *)
Definition q1LeftOf (o : nat) : float :=
  RVOMath.leftOf (edgePoints obstacles o).1 (edgePoints obstacles o).2 q1.
Definition q2LeftOf (o : nat) : float :=
  RVOMath.leftOf (edgePoints obstacles o).1 (edgePoints obstacles o).2 q2.
Definition invLength (o : nat) : float :=
  1.0 / RVOMath.absSq (Vector2.subtract (edgePoints obstacles o).2
                                         (edgePoints obstacles o).1).

(** Both query points are on one side of the line of edge [o], each at
    least [radius] away from it. *)
Definition clearOf (o : nat) : Prop :=
  ((Num.ge (q1LeftOf o) 0 && Num.ge (q2LeftOf o) 0)
   || (Num.le (q1LeftOf o) 0 && Num.le (q2LeftOf o) 0)) = true
  /\ Num.ge (RVOMath.sqr (q1LeftOf o) * invLength o) (RVOMath.sqr radius) = true
  /\ Num.ge (RVOMath.sqr (q2LeftOf o) * invLength o) (RVOMath.sqr radius) = true.

(** Three cases of the visibility query.  Two points that are clear of
    every edge of a tree see each other.  At a node whose edge the segment
    crosses from its left to its right, the edge itself is not looked at:
    the answer is that of the two subtrees.  At a node whose edge the
    segment crosses from its right to its left, with the two end points of
    the edge strictly on different sides of the line through the query
    points, the answer is no. *)
Theorem queryVisibility_cases (o : nat) (l r : ObstacleTreeNode) :
  (forall node, Forall clearOf (treeList node) ->
     queryVisibilityRecursive obstacles q1 q2 radius node = true)
  /\ (Num.gt (q1LeftOf o) 0 = true -> Num.lt (q2LeftOf o) 0 = true ->
      queryVisibilityRecursive obstacles q1 q2 radius (ONode o l r)
      = queryVisibilityRecursive obstacles q1 q2 radius l
        && queryVisibilityRecursive obstacles q1 q2 radius r)
  /\ (Num.lt (q1LeftOf o) 0 = true -> Num.gt (q2LeftOf o) 0 = true ->
      Num.ge (RVOMath.leftOf q1 q2 (edgePoints obstacles o).1
              * RVOMath.leftOf q1 q2 (edgePoints obstacles o).2) 0 = false ->
      queryVisibilityRecursive obstacles q1 q2 radius (ONode o l r) = false).
Proof.
  unfold clearOf, q1LeftOf, q2LeftOf, invLength, edgePoints. cbn [fst snd].
  split; [| split].
  - induction node as [| o' l' IHl r' IHr]; intros Hall; [reflexivity |].
    simpl in Hall. apply Forall_cons in Hall as [(Hside & H1 & H2) Hall].
    apply Forall_app in Hall as [Hl Hr].
    cbn [queryVisibilityRecursive]. cbv zeta.
    rewrite H1, H2, (IHl Hl), (IHr Hr). cbn [andb orb].
    destruct (Num.ge _ 0 && Num.ge _ 0); [reflexivity |].
    cbn [orb] in Hside. rewrite Hside. reflexivity.
  - intros H1 H2. cbn [queryVisibilityRecursive]. cbv zeta.
    set (a := RVOMath.leftOf _ _ q1) in *. set (b := RVOMath.leftOf _ _ q2) in *.
    assert (Hge1 : Num.ge a 0 = true) by exact (lt_le _ _ H1).
    assert (Hle1 : Num.le a 0 = false) by exact (lt_not_le _ _ H1).
    assert (Hge2 : Num.ge b 0 = false) by exact (lt_not_le _ _ H2).
    assert (Hle2 : Num.le b 0 = true) by exact (lt_le _ _ H2).
    rewrite Hge1, Hle1, Hge2, Hle2. reflexivity.
  - intros H1 H2 H3. cbn [queryVisibilityRecursive]. cbv zeta.
    set (a := RVOMath.leftOf _ _ q1) in *. set (b := RVOMath.leftOf _ _ q2) in *.
    assert (Hge1 : Num.ge a 0 = false) by exact (lt_not_le _ _ H1).
    assert (Hle2 : Num.le b 0 = false) by exact (lt_not_le _ _ H2).
    rewrite Hge1, Hle2, H3. cbn [andb]. by rewrite andb_false_r.
Qed.

End VisibilityTheorems.

Lemma queryVisibility_cases_witness :
  queryVisibility segmentScene (Vector2.mk 5 (-1)) (Vector2.mk 5 1) 0 = false.
Proof.
  unfold queryVisibility.
  change (KdTree.obstacleTree (Simulator.kdTree segmentScene))
    with (ONode 0 (ONode 1 ONull ONull) ONull).
  apply (proj2 (proj2 (queryVisibility_cases (Simulator.obstacles segmentScene)
                         (Vector2.mk 5 (-1)) (Vector2.mk 5 1) 0 0
                         (ONode 1 ONull ONull) ONull)));
    vm_compute; reflexivity.
Defined.

(** ** Simulators that calls of the interface reach *)

Section ApiCalls.
Import Simulator.

(** The calls of the public interface that change the simulator
    ([addObstacleVertex], which the tree construction uses to append the
    vertex of a cut, is not among them). *)
Inductive apiCall : Set :=
| ApiAddAgent (position : Vector2.t)
| ApiAddAgentWithParams (position : Vector2.t) (neighborDist : float)
    (maxNeighbors : nat) (timeHorizon timeHorizonObst radius maxSpeed : float)
    (velocity : Vector2.t)
| ApiAddObstacle (vertices : list Vector2.t)
| ApiClear
| ApiDoStep
| ApiProcessObstacles
| ApiSetAgentDefaults (neighborDist : float) (maxNeighbors : nat)
    (timeHorizon timeHorizonObst radius maxSpeed : float) (velocity : Vector2.t)
| ApiSetAgentMaxNeighbors (agentNo maxNeighbors : nat)
| ApiSetAgentMaxSpeed (agentNo : nat) (maxSpeed : float)
| ApiSetAgentNeighborDist (agentNo : nat) (neighborDist : float)
| ApiSetAgentPosition (agentNo : nat) (position : Vector2.t)
| ApiSetAgentPrefVelocity (agentNo : nat) (prefVelocity : Vector2.t)
| ApiSetAgentRadius (agentNo : nat) (radius : float)
| ApiSetAgentTimeHorizon (agentNo : nat) (timeHorizon : float)
| ApiSetAgentTimeHorizonObst (agentNo : nat) (timeHorizonObst : float)
| ApiSetAgentVelocity (agentNo : nat) (velocity : Vector2.t)
| ApiSetGlobalTime (globalTime : float)
| ApiSetTimeStep (timeStep : float).

(** The simulator after a call, or [None] when the call throws; a setter
    throws for an agent number that is out of range. *)
Definition apiRun (s : Simulator.t) (c : apiCall) : option Simulator.t :=
  match c with
  | ApiAddAgent position => Some (addAgent position s).2
  | ApiAddAgentWithParams position neighborDist maxNeighbors timeHorizon
      timeHorizonObst radius maxSpeed velocity =>
      Some (addAgentWithParams position neighborDist maxNeighbors timeHorizon
              timeHorizonObst radius maxSpeed velocity s).2
  | ApiAddObstacle vertices => Some (addObstacle vertices s).2
  | ApiClear => Some (clear s)
  | ApiDoStep => fst <$> doStep s
  | ApiProcessObstacles => Some (processObstacles s)
  | ApiSetAgentDefaults neighborDist maxNeighbors timeHorizon timeHorizonObst
      radius maxSpeed velocity =>
      Some (setAgentDefaults neighborDist maxNeighbors timeHorizon timeHorizonObst
              radius maxSpeed velocity s)
  | ApiSetAgentMaxNeighbors agentNo maxNeighbors =>
      setAgentMaxNeighbors agentNo maxNeighbors s
  | ApiSetAgentMaxSpeed agentNo maxSpeed => setAgentMaxSpeed agentNo maxSpeed s
  | ApiSetAgentNeighborDist agentNo neighborDist =>
      setAgentNeighborDist agentNo neighborDist s
  | ApiSetAgentPosition agentNo position =>
      if decide (agentNo < getNumAgents s)
      then Some (setAgentPosition agentNo position s) else None
  | ApiSetAgentPrefVelocity agentNo prefVelocity =>
      if decide (agentNo < getNumAgents s)
      then Some (setAgentPrefVelocity agentNo prefVelocity s) else None
  | ApiSetAgentRadius agentNo radius => setAgentRadius agentNo radius s
  | ApiSetAgentTimeHorizon agentNo timeHorizon =>
      setAgentTimeHorizon agentNo timeHorizon s
  | ApiSetAgentTimeHorizonObst agentNo timeHorizonObst =>
      setAgentTimeHorizonObst agentNo timeHorizonObst s
  | ApiSetAgentVelocity agentNo velocity =>
      if decide (agentNo < getNumAgents s)
      then Some (setAgentVelocity agentNo velocity s) else None
  | ApiSetGlobalTime globalTime => Some (setGlobalTime globalTime s)
  | ApiSetTimeStep timeStep => Some (setTimeStep timeStep s)
  end.

Fixpoint apiRuns (s : Simulator.t) (calls : list apiCall) : option Simulator.t :=
  match calls with
  | [] => Some s
  | c :: calls' => s' ← apiRun s c; apiRuns s' calls'
  end.

(** A simulator that a sequence of calls, none of which throws, makes of
    the fresh one. *)
Definition reachable (s : Simulator.t) : Prop :=
  exists calls, apiRuns fresh calls = Some s.

(** What the calls keep. *)
Definition neighborsValid (s : Simulator.t) : Prop :=
  forall i a, agents s !! i = Some a ->
    Forall (fun e : Agent.entry => e.2 < length (agents s) /\ e.2 <> i)
           (Agent.agentNeighbors a)
    /\ Forall (fun e : Agent.entry => e.2 < length (obstacles s))
              (Agent.obstacleNeighbors a).

Definition simulatorOk (s : Simulator.t) : Prop :=
  ids_ok s
  /\ linked (obstacles s)
  /\ Forall (fun o => o < length (obstacles s))
            (treeList (KdTree.obstacleTree (kdTree s)))
  /\ kdTreeCurrent s
  /\ length (KdTree.agents (kdTree s)) <= length (agents s)
  /\ neighborsValid s.
End ApiCalls.

(** ** The members of the neighbour lists *)

Section NeighborMembers.
Import Simulator.
Local Open Scope float_scope.

(** An insertion keeps entries of the list or adds the agent offered. *)
Lemma insertAgentNeighbor_members (s : Simulator.t) (self : nat) (this this' : Agent.t)
    (agent : nat) (rangeSq rangeSq' : float) :
  (0 < Agent.maxNeighbors this)%nat ->
  (length (Agent.agentNeighbors this) <= Agent.maxNeighbors this)%nat ->
  insertAgentNeighbor s self this agent rangeSq = Some (this', rangeSq') ->
  forall e, e ∈ Agent.agentNeighbors this' ->
    e ∈ Agent.agentNeighbors this \/ e.2 = agent.
Proof.
  intros Hm Hlen Hins e He.
  destruct (decide (self = agent)) as [Heq | Hne].
  { unfold insertAgentNeighbor in Hins. rewrite decide_True in Hins by exact Heq.
    injection Hins as <- _. by left. }
  destruct (Num.lt (distSqTo s (Agent.position this) agent) rangeSq) eqn:Hd.
  2: { unfold insertAgentNeighbor in Hins. rewrite decide_False in Hins by exact Hne.
       unfold distSqTo in Hd. rewrite Hd in Hins. injection Hins as <- _. by left. }
  destruct (insertAgentNeighbor_inserts s self (Agent.position this) this agent rangeSq
              eq_refl Hne Hm Hlen Hd) as (j & Hins' & _).
  rewrite Hins in Hins'. injection Hins' as -> _. simpl in He.
  apply elem_of_app in He as [He | He].
  - left. apply (subseteq_take j) in He.
    destruct (_ <? _)%nat; [exact He | by apply (subseteq_take _ _) in He].
  - apply elem_of_cons in He as [-> | He]; [by right |].
    left. apply (subseteq_drop j) in He.
    destruct (_ <? _)%nat; [exact He | by apply (subseteq_take _ _) in He].
Qed.

(** The agent neighbours that [computeNeighbors] leaves are agents of the
    tree's array, other than the agent itself; the obstacle neighbours are
    vertices at nodes of the obstacle tree. *)
Lemma computeNeighbors_members (s : Simulator.t) (self : nat) (this this' : Agent.t) :
  computeNeighbors s self this = Some this' ->
  Forall (fun e : Agent.entry => e.2 ∈ KdTree.agents (kdTree s) /\ e.2 <> self)
         (Agent.agentNeighbors this')
  /\ Forall (fun e : Agent.entry => e.2 ∈ treeList (KdTree.obstacleTree (kdTree s)))
            (Agent.obstacleNeighbors this').
Proof.
  intros Hn. split.
  - destruct (computeNeighbors_ok _ _ _ _ Hn) as [_ (_ & Hall & _)].
    assert (Hin : Forall (fun e : Agent.entry => e.2 ∈ KdTree.agents (kdTree s))
                         (Agent.agentNeighbors this')).
    { revert Hn. unfold computeNeighbors, computeObstacleNeighbors.
      destruct (queryObstacleTreeRecursive _ _ _ _) as [this1 |]; [| discriminate].
      cbn [mbind option_bind]. cbv zeta.
      destruct (Nat.ltb_spec 0 (Agent.maxNeighbors (Agent.set_agentNeighbors [] this1)))
        as [Hm | _]; [| by intros [= <-]; constructor].
      unfold computeAgentNeighbors.
      destruct (queryAgentTreeRecursive _ _ _ _ _ _) as [st |] eqn:Eq; [| discriminate].
      cbn [mbind option_bind]. intros [= <-].
      set (m := Agent.maxNeighbors (Agent.set_agentNeighbors [] this1)) in *.
      set (pos := Agent.position (Agent.set_agentNeighbors [] this1)).
      set (Inv := fun st : Agent.t * float =>
                    Agent.position st.1 = pos /\ Agent.maxNeighbors st.1 = m
                    /\ neighbors_ok s self pos m (Agent.agentNeighbors st.1)
                    /\ Forall (fun e : Agent.entry => e.2 ∈ KdTree.agents (kdTree s))
                              (Agent.agentNeighbors st.1)).
      assert (H : Inv st); [| apply H].
      eapply (queryAgentTreeRecursive_keeps s self (kdTree s) Inv); [| | exact Eq].
      - intros [this2 r2] other [this3 r3] Hother (Hpos & Hmax & Hok & Hmem) Hins.
        simpl in *.
        assert (Hok2 : neighbors_ok s self pos (Agent.maxNeighbors this2)
                                    (Agent.agentNeighbors this2)) by (by rewrite Hmax).
        destruct (insertAgentNeighbor_ok s self pos this2 this3 other r2 r3 Hpos Hok2 Hins)
          as (l3 & E3 & Hok3).
        assert (Hmem3 : Forall (fun e : Agent.entry => e.2 ∈ KdTree.agents (kdTree s))
                               (Agent.agentNeighbors this3)).
        { apply Forall_forall. intros e He.
          destruct (insertAgentNeighbor_members s self this2 this3 other r2 r3) with (4 := He)
            as [He' | ->]; [lia | rewrite Hmax; apply Hok | exact Hins | | exact Hother].
          by apply (proj1 (Forall_forall _ _) Hmem). }
        rewrite E3 in Hmem3 |- *. simpl in *.
        split; [exact Hpos |]. split; [exact Hmax |].
        split; [by rewrite <- Hmax | exact Hmem3].
      - split; [reflexivity |]. split; [reflexivity |].
        split; [apply neighbors_ok_nil | constructor]. }
    apply Forall_forall. intros e He. split.
    + by apply (proj1 (Forall_forall _ _) Hin).
    + by apply (proj1 (Forall_forall _ _) Hall).
  - pose proof (computeNeighbors_obstacles _ _ _ _ Hn) as Hq. cbv zeta in Hq.
    destruct (queryObstacleTreeRecursive_spec (obstacles s)
                (RVOMath.sqr (Agent.timeHorizonObst this * Agent.maxSpeed this
                              + Agent.radius this))
                (Agent.position this)
                (KdTree.obstacleTree (kdTree s)) (Agent.set_obstacleNeighbors [] this)
                eq_refl) as (l0 & E0 & H0).
    rewrite Hq in E0. injection E0 as <-.
    apply Forall_forall. intros e He.
    apply H0 in He as [He | (o & (Hr & _) & _ & ->)].
    + simpl in He. by apply elem_of_nil in He.
    + simpl. by eapply reached_treeList.
Qed.
End NeighborMembers.

(** ** What every call keeps *)

Section Reachable.
Import Simulator.
Local Open Scope nat_scope.

Lemma simulatorOk_fresh : simulatorOk fresh.
Proof.
  split; [apply ids_ok_fresh |]. split.
  { split; [intros k o H; discriminate H |]. split; intros k Hk; simpl in Hk; lia. }
  split; [constructor |]. split; [by split |]. split; [done |].
  intros i a H. discriminate H.
Qed.

Lemma neighborsValid_weaken (s s' : Simulator.t) :
  agents s' = agents s -> length (obstacles s) <= length (obstacles s') ->
  neighborsValid s -> neighborsValid s'.
Proof.
  intros Ha Ho H i a Hi. rewrite Ha in *. destruct (H i a Hi) as [H1 H2].
  split; [exact H1 |]. eapply Forall_impl; [exact H2 |]. simpl. intros; lia.
Qed.

(** A simulator that differs in its obstacles and obstacle tree only. *)
Lemma simulatorOk_obstacles (s s' : Simulator.t) :
  agents s' = agents s ->
  KdTree.agents (kdTree s') = KdTree.agents (kdTree s) ->
  KdTree.agentTree (kdTree s') = KdTree.agentTree (kdTree s) ->
  length (obstacles s) <= length (obstacles s') ->
  linked (obstacles s') ->
  Forall (fun o => o < length (obstacles s'))
         (treeList (KdTree.obstacleTree (kdTree s'))) ->
  simulatorOk s -> simulatorOk s'.
Proof.
  intros Ha Hka Hkt Hlen Hl Ht (Hid & _ & _ & Hkd & Hkl & Hn).
  split; [unfold ids_ok; by rewrite Ha |]. split; [exact Hl |]. split; [exact Ht |].
  split; [unfold kdTreeCurrent; by rewrite Hka, Hkt |].
  split; [by rewrite Hka, Ha |]. by eapply neighborsValid_weaken.
Qed.

(** A simulator that differs in fields of its agents that carry no
    reference. *)
Lemma simulatorOk_agents (s : Simulator.t) (l : list Agent.t) :
  Forall2 (fun a b => Agent.id b = Agent.id a
                      /\ Agent.agentNeighbors b = Agent.agentNeighbors a
                      /\ Agent.obstacleNeighbors b = Agent.obstacleNeighbors a)
          (agents s) l ->
  simulatorOk s -> simulatorOk (set_agents l s).
Proof.
  intros HF (Hid & Hl & Ht & Hkd & Hkl & Hn).
  pose proof (Forall2_length _ _ _ HF) as Hlen.
  split; [| split; [exact Hl | split; [exact Ht | split; [exact Hkd |]]]].
  - intros k b Hb. simpl in Hb.
    destruct (Forall2_lookup_r _ _ _ _ _ HF Hb) as (a & Ha & E & _).
    rewrite E. by apply Hid.
  - split; [simpl; lia |]. intros i b Hb. simpl in Hb |- *.
    destruct (Forall2_lookup_r _ _ _ _ _ HF Hb) as (a & Ha & _ & E1 & E2).
    rewrite E1, E2, <- Hlen. by apply Hn.
Qed.

Lemma simulatorOk_alter (s : Simulator.t) (agentNo : nat) (f : Agent.t -> Agent.t) :
  (forall a, Agent.id (f a) = Agent.id a
             /\ Agent.agentNeighbors (f a) = Agent.agentNeighbors a
             /\ Agent.obstacleNeighbors (f a) = Agent.obstacleNeighbors a) ->
  simulatorOk s -> simulatorOk (set_agents (alter f agentNo (agents s)) s).
Proof.
  intros Hf. apply simulatorOk_agents.
  apply Forall2_same_length_lookup. split; [by rewrite length_alter |].
  intros i a b Ha Hb. rewrite list_lookup_alter in Hb.
  destruct (decide (agentNo = i)) as [-> |].
  - rewrite Ha in Hb. injection Hb as <-. apply Hf.
  - rewrite Ha in Hb. by injection Hb as <-.
Qed.

Lemma assignAgent_alter (agentNo : nat) (f : Agent.t -> Agent.t) (s s' : Simulator.t) :
  assignAgent agentNo f s = Some s' ->
  s' = set_agents (alter f agentNo (agents s)) s.
Proof.
  unfold assignAgent. destruct (agents s !! agentNo) as [a |] eqn:E; [| discriminate].
  simpl. intros [= <-]. f_equal. apply list_eq. intros i.
  rewrite list_lookup_alter. destruct (decide (agentNo = i)) as [-> |].
  - rewrite list_lookup_insert_eq by (by eapply lookup_lt_Some). by rewrite E.
  - by rewrite list_lookup_insert_ne.
Qed.

Lemma simulatorOk_snoc (s : Simulator.t) (a : Agent.t) :
  Agent.id a = length (agents s) ->
  Agent.agentNeighbors a = [] -> Agent.obstacleNeighbors a = [] ->
  simulatorOk s -> simulatorOk (set_agents (agents s ++ [a]) s).
Proof.
  intros Hida Han Hao (Hid & Hl & Ht & Hkd & Hkl & Hn).
  split; [by apply ids_ok_snoc |]. split; [exact Hl |]. split; [exact Ht |].
  split; [exact Hkd |]. split; [simpl; rewrite length_app; simpl in *; lia |].
  intros i b Hb. simpl in Hb |- *. rewrite length_app. simpl.
  apply lookup_app_Some in Hb as [Hb | [_ Hb]].
  - destruct (Hn i b Hb) as [H1 H2]. split; [| exact H2].
    eapply Forall_impl; [exact H1 |]. simpl. intros e [? ?]. split; [lia | done].
  - apply list_lookup_singleton_Some in Hb as [_ <-]. rewrite Han, Hao.
    split; constructor.
Qed.

Lemma addObstacle_grows (vertices : list Vector2.t) (s : Simulator.t) :
  length (obstacles s) <= length (obstacles (addObstacle vertices s).2)
  /\ agents (addObstacle vertices s).2 = agents s
  /\ kdTree (addObstacle vertices s).2 = kdTree s.
Proof.
  destruct (decide (2 <= length vertices)) as [Hn | Hn].
  - rewrite addObstacle_obstacles by exact Hn. simpl.
    pose proof (addObstacle_fold_linked vertices (obstacles s) (length vertices) Hn
                  ltac:(lia)) as (Hlen & _). rewrite Hlen. split; [lia | done].
  - unfold addObstacle. destruct (Nat.ltb_spec (length vertices) 2); [done | lia].
Qed.

Lemma doStep_simulatorOk (s s' : Simulator.t) (t : float) :
  simulatorOk s -> doStep s = Some (s', t) -> simulatorOk s'.
Proof.
  intros (Hid & Hl & Ht & Hkd & Hkl & Hn) Hdo.
  destruct (doStep_agent s s' t Hdo) as (kd & Hbuild & Hs' & Hlen & Hall).
  destruct (buildAgentTree_current s kd Hkd Hbuild) as [Hperm Htl].
  destruct (buildAgentTree_Permutation s _ _ Hbuild) as (_ & _ & Htree).
  pose proof (Permutation_length Hperm) as Hpl. rewrite length_seq in Hpl.
  assert (Hagent : forall i a', agents s' !! i = Some a' ->
            exists a an, agents s !! i = Some a
              /\ computeNeighbors (set_kdTree kd s) i a = Some an
              /\ Agent.id a' = Agent.id a
              /\ Agent.agentNeighbors a' = Agent.agentNeighbors an
              /\ Agent.obstacleNeighbors a' = Agent.obstacleNeighbors an).
  { intros i a' Ha'.
    destruct (lookup_lt_is_Some_2 (agents s) i) as [a Ha].
    { rewrite <- Hlen. by eapply lookup_lt_Some. }
    destruct (Hall i a Ha) as (an & Hcn & Ha2). rewrite Ha' in Ha2. injection Ha2 as ->.
    exists a, an. split; [exact Ha |]. split; [exact Hcn |].
    destruct (computeNeighbors_ok _ _ _ _ Hcn) as [Hfr _].
    unfold computeNewVelocity. destruct (linearProgram2 _ _ _ _). simpl.
    split; [| done]. unfold stepFrame in Hfr. by rewrite Hfr. }
  rewrite Hs'. unfold simulatorOk. simpl.
  split; [| split; [exact Hl | split; [by rewrite Htree | split; [| split]]]].
  - intros i a' Ha'. destruct (Hagent i a' Ha') as (a & an & Ha & _ & -> & _).
    by apply Hid.
  - unfold kdTreeCurrent. simpl. rewrite Hpl. by split.
  - rewrite Hpl, Hlen. unfold getNumAgents. lia.
  - intros i a' Ha'. simpl in Ha' |- *.
    destruct (Hagent i a' Ha') as (a & an & Ha & Hcn & _ & -> & ->).
    destruct (computeNeighbors_members _ _ _ _ Hcn) as [H1 H2]. simpl in H1, H2.
    split.
    + eapply Forall_impl; [exact H1 |]. simpl. intros e [He ?]. split; [| done].
      rewrite Hperm in He. apply elem_of_seq in He. rewrite Hlen.
      unfold getNumAgents in He. lia.
    + rewrite Htree in H2. apply Forall_forall. intros e He.
      apply (proj1 (Forall_forall _ _) Ht).
      by apply (proj1 (Forall_forall _ _) H2).
Qed.

Lemma apiRun_simulatorOk (s s' : Simulator.t) (c : apiCall) :
  simulatorOk s -> apiRun s c = Some s' -> simulatorOk s'.
Proof.
  intros Hok. destruct c; simpl.
  - intros [= <-]. unfold addAgent. destruct (defaultAgent s); [| exact Hok].
    simpl. by apply simulatorOk_snoc.
  - intros [= <-]. unfold addAgentWithParams. simpl. by apply simulatorOk_snoc.
  - intros [= <-]. destruct (addObstacle_grows vertices s) as (Hlen & Ha & Hk).
    eapply simulatorOk_obstacles; try exact Hok; try (by rewrite ?Hk); try exact Hlen.
    + apply addObstacle_linked, Hok.
    + rewrite Hk. eapply Forall_impl; [apply Hok |]. simpl. intros; lia.
  - intros [= <-]. apply simulatorOk_fresh.
  - destruct (doStep s) as [[s1 t] |] eqn:E; [| discriminate]. simpl. intros [= <-].
    by eapply doStep_simulatorOk.
  - intros [= <-].
    pose proof (processObstacles_contents s) as (Hperm & Hlen & _ & Ha & _ & _ & _ & Hka & Hkt).
    eapply simulatorOk_obstacles; try exact Hok; try assumption.
    + apply processObstacles_linked, Hok.
    + rewrite Hperm. apply Forall_forall. intros o Ho. apply elem_of_seq in Ho.
      unfold getNumObstacleVertices in Ho. lia.
  - intros [= <-]. exact Hok.
  - intros H. apply assignAgent_alter in H as ->. by apply simulatorOk_alter.
  - intros H. apply assignAgent_alter in H as ->. by apply simulatorOk_alter.
  - intros H. apply assignAgent_alter in H as ->. by apply simulatorOk_alter.
  - case_decide; [| discriminate]. intros [= <-]. by apply simulatorOk_alter.
  - case_decide; [| discriminate]. intros [= <-]. by apply simulatorOk_alter.
  - intros H. apply assignAgent_alter in H as ->. by apply simulatorOk_alter.
  - intros H. apply assignAgent_alter in H as ->. by apply simulatorOk_alter.
  - intros H. apply assignAgent_alter in H as ->. by apply simulatorOk_alter.
  - case_decide; [| discriminate]. intros [= <-]. by apply simulatorOk_alter.
  - intros [= <-]. exact Hok.
  - intros [= <-]. exact Hok.
Qed.

Lemma apiRuns_simulatorOk : forall (calls : list apiCall) (s s' : Simulator.t),
  simulatorOk s -> apiRuns s calls = Some s' -> simulatorOk s'.
Proof.
  induction calls as [| c calls IH]; intros s s' Hok; simpl; [by intros [= <-] |].
  destruct (apiRun s c) as [s1 |] eqn:E; [| discriminate]. simpl.
  apply IH. by eapply apiRun_simulatorOk.
Qed.

Lemma reachable_simulatorOk (s : Simulator.t) : reachable s -> simulatorOk s.
Proof. intros [calls H]. eapply apiRuns_simulatorOk; [apply simulatorOk_fresh | exact H]. Qed.
End Reachable.

(** ** Every reachable simulator *)

Section ReachableTheorems.
Import Simulator.
Local Open Scope nat_scope.

Lemma apiRuns_app : forall (calls calls' : list apiCall) (s : Simulator.t),
  apiRuns s (calls ++ calls') = s' ← apiRuns s calls; apiRuns s' calls'.
Proof.
  induction calls as [| c calls IH]; intros calls' s; simpl; [done |].
  destruct (apiRun s c); simpl; [apply IH | done].
Qed.

(** The calls that built [testScene], and a step. *)
Definition testCalls : list apiCall :=
  [ApiSetAgentDefaults 15 10 10 10 2 2 (Vector2.mk 0 0);
   ApiAddAgent (Vector2.mk 0 0);
   ApiAddAgent (Vector2.mk 10 0);
   ApiSetAgentPrefVelocity 0 (Vector2.mk 1 0);
   ApiSetAgentPrefVelocity 1 (Vector2.mk (-1) 0);
   ApiAddObstacle [Vector2.mk (-5) (-5); Vector2.mk (-5) 5;
                   Vector2.mk 5 5; Vector2.mk 5 (-5)];
   ApiProcessObstacles].

Lemma testScene_reachable : reachable testScene.
Proof. exists testCalls. reflexivity. Qed.

(** In every simulator that calls of the interface make of the fresh one,
    the agent at index [k] has [id = k] and the obstacle vertex at index [v]
    has [id = v], whatever the calls were: adding agents or obstacles,
    stepping, processing the obstacles (which appends the vertices of cuts),
    setting fields, clearing. *)
Theorem reachable_ids (s : Simulator.t) :
  reachable s ->
  (forall k a, agents s !! k = Some a -> Agent.id a = k)
  /\ (forall v o, obstacles s !! v = Some o -> Obstacle.id o = v).
Proof.
  intros H. destruct (reachable_simulatorOk s H) as (Hid & (Hoid & _) & _).
  split; [exact Hid | exact Hoid].
Qed.

Lemma reachable_ids_witness :
  (forall k a, agents testScene !! k = Some a -> Agent.id a = k)
  /\ (forall v o, obstacles testScene !! v = Some o -> Obstacle.id o = v).
Proof. exact (reachable_ids testScene testScene_reachable). Defined.

(** In every such simulator the obstacle vertices form closed, doubly
    linked rings: for every vertex number [v] in range
    [getNextObstacleVertexNo] and [getPrevObstacleVertexNo] return vertex
    numbers in range, and each undoes the other. *)
Theorem reachable_obstacle_rings (s : Simulator.t) (v : nat) :
  reachable s -> v < getNumObstacleVertices s ->
  exists n p,
    getNextObstacleVertexNo s v = Some n /\ n < getNumObstacleVertices s
    /\ getPrevObstacleVertexNo s n = Some v
    /\ getPrevObstacleVertexNo s v = Some p /\ p < getNumObstacleVertices s
    /\ getNextObstacleVertexNo s p = Some v.
Proof.
  intros H Hv. destruct (reachable_simulatorOk s H) as (_ & (Hid & Hnext & Hprev) & _).
  assert (Hget : forall k, k < length (obstacles s) ->
            Obstacle.id (getObstacle (obstacles s) k) = k).
  { intros k Hk. unfold getObstacle.
    destruct (lookup_lt_is_Some_2 (obstacles s) k Hk) as [o Ho]. rewrite Ho. by apply Hid. }
  assert (Hn : forall a b, nextOf (obstacles s) a = Some b -> b < length (obstacles s) ->
            getNextObstacleVertexNo s a = Some b).
  { intros a b Hab Hb. unfold getNextObstacleVertexNo, nextOf in *.
    destruct (obstacles s !! a) as [o |]; [| discriminate]. simpl in *.
    rewrite Hab. simpl. by rewrite Hget. }
  assert (Hp : forall a b, prevOf (obstacles s) a = Some b -> b < length (obstacles s) ->
            getPrevObstacleVertexNo s a = Some b).
  { intros a b Hab Hb. unfold getPrevObstacleVertexNo, prevOf in *.
    destruct (obstacles s !! a) as [o |]; [| discriminate]. simpl in *.
    rewrite Hab. simpl. by rewrite Hget. }
  destruct (Hnext v Hv) as (n & Hvn & Hnv). destruct (Hprev v Hv) as (p & Hvp & Hpv).
  pose proof (prevOf_lt _ _ _ Hnv). pose proof (nextOf_lt _ _ _ Hpv).
  unfold getNumObstacleVertices in *.
  exists n, p. split; [by apply Hn |]. split; [done |]. split; [by apply Hp |].
  split; [by apply Hp |]. split; [done | by apply Hn].
Qed.

Lemma reachable_obstacle_rings_witness :
  exists n p,
    getNextObstacleVertexNo testScene 3 = Some n /\ n < getNumObstacleVertices testScene
    /\ getPrevObstacleVertexNo testScene n = Some 3
    /\ getPrevObstacleVertexNo testScene 3 = Some p /\ p < getNumObstacleVertices testScene
    /\ getNextObstacleVertexNo testScene p = Some 3.
Proof.
  apply (reachable_obstacle_rings testScene 3 testScene_reachable). vm_compute. lia.
Defined.

(** In every such simulator the neighbour getters return numbers in range:
    an agent neighbour is the number of another agent of the simulator, an
    obstacle neighbour the number of one of its obstacle vertices; and for
    every neighbour number below the count that the counting getter returns
    the getter returns a number. *)
Theorem reachable_neighbors (s : Simulator.t) (agentNo neighborNo : nat) :
  reachable s ->
  (forall j, getAgentAgentNeighbor s agentNo neighborNo = Some j ->
     j < getNumAgents s /\ j <> agentNo)
  /\ (forall v, getAgentObstacleNeighbor s agentNo neighborNo = Some v ->
        v < getNumObstacleVertices s)
  /\ (forall n, getAgentNumAgentNeighbors s agentNo = Some n -> neighborNo < n ->
        is_Some (getAgentAgentNeighbor s agentNo neighborNo))
  /\ (forall n, getAgentNumObstacleNeighbors s agentNo = Some n -> neighborNo < n ->
        is_Some (getAgentObstacleNeighbor s agentNo neighborNo)).
Proof.
  intros H. destruct (reachable_simulatorOk s H) as (Hid & (Hoid & _) & _ & _ & _ & Hn).
  unfold getAgentAgentNeighbor, getAgentObstacleNeighbor, getAgentNumAgentNeighbors,
    getAgentNumObstacleNeighbors, getNumAgents, getNumObstacleVertices.
  destruct (agents s !! agentNo) as [a |] eqn:Ea; simpl; [| by repeat split].
  destruct (Hn agentNo a Ea) as [H1 H2].
  split; [| split; [| split]].
  - intros j. destruct (Agent.agentNeighbors a !! neighborNo) as [e |] eqn:Ee;
      simpl; [| discriminate].
    intros [= <-].
    destruct (proj1 (Forall_forall _ _) H1 e (list_elem_of_lookup_2 _ _ _ Ee)) as [Hlt Hne].
    unfold getAgent. destruct (lookup_lt_is_Some_2 (agents s) e.2 Hlt) as [b Hb].
    rewrite Hb. simpl. by rewrite (Hid _ _ Hb).
  - intros v. destruct (Agent.obstacleNeighbors a !! neighborNo) as [e |] eqn:Ee;
      simpl; [| discriminate].
    intros [= <-].
    pose proof (proj1 (Forall_forall _ _) H2 e (list_elem_of_lookup_2 _ _ _ Ee)) as Hlt.
    simpl in Hlt. unfold getObstacle.
    destruct (lookup_lt_is_Some_2 (obstacles s) e.2 Hlt) as [o Ho].
    rewrite Ho. simpl. by rewrite (Hoid _ _ Ho).
  - intros n [= <-] Hlt.
    destruct (lookup_lt_is_Some_2 (Agent.agentNeighbors a) neighborNo Hlt) as [e ->].
    by eexists.
  - intros n [= <-] Hlt.
    destruct (lookup_lt_is_Some_2 (Agent.obstacleNeighbors a) neighborNo Hlt) as [e ->].
    by eexists.
Qed.

Lemma tiedSceneAfter_reachable : reachable tiedSceneAfter.
Proof.
  exists [ApiSetAgentDefaults 15 10 10 10 0.25 2 (Vector2.mk 0 0);
          ApiAddAgent (Vector2.mk 0 0); ApiAddAgent (Vector2.mk 1 0);
          ApiAddAgent (Vector2.mk (-1) 0);
          ApiSetAgentPrefVelocity 0 (Vector2.mk 0 1); ApiDoStep].
  vm_compute. reflexivity.
Qed.

Lemma reachable_neighbors_witness :
  getAgentAgentNeighbor tiedSceneAfter 0 1 = Some 2
  /\ 2 < getNumAgents tiedSceneAfter /\ 2 <> 0.
Proof.
  split; [vm_compute; reflexivity |].
  apply (proj1 (reachable_neighbors tiedSceneAfter 0 1 tiedSceneAfter_reachable) 2).
  vm_compute. reflexivity.
Defined.

(** From every such simulator with at most [MAX_LEAF_SIZE] agents a step
    returns: the agent tree is a single leaf, allocated for the agents that
    are there, and nothing the step reads is missing. *)
Theorem reachable_doStep_returns (s : Simulator.t) :
  reachable s -> getNumAgents s <= KdTree.MAX_LEAF_SIZE ->
  exists s', doStep s = Some (s', (globalTime s + timeStep s)%float)
             /\ reachable s'
             /\ getNumAgents s' = getNumAgents s.
Proof.
  intros H Hsmall. pose proof (reachable_simulatorOk s H) as (_ & _ & _ & Hkd & _).
  destruct (doStep_returns s (kdTreeCurrent_treeAllocated s Hkd) Hsmall) as [[s' t] Hdo].
  destruct (doStep_globalTime s s' t Hdo) as (-> & _).
  exists s'. split; [exact Hdo |]. split.
  - destruct H as [calls Hc]. exists (calls ++ [ApiDoStep]).
    rewrite apiRuns_app, Hc. simpl. by rewrite Hdo.
  - by destruct (doStep_agent s s' _ Hdo) as (kd & _ & _ & Hlen & _).
Qed.

Lemma reachable_doStep_returns_witness :
  exists s', doStep testScene = Some (s', 0.1%float) /\ reachable s'
             /\ getNumAgents s' = 2.
Proof.
  apply (reachable_doStep_returns testScene testScene_reachable). vm_compute. lia.
Defined.
(** In every such simulator the agent k-D tree lists agents of the simulator,
    none of them twice; and after a step, however many agents there are, it
    lists every agent exactly once and its node array has two nodes for each
    agent. *)
Theorem reachable_agent_tree (s : Simulator.t) :
  reachable s ->
  KdTree.agents (kdTree s) ≡ₚ seq 0 (length (KdTree.agents (kdTree s)))
  /\ length (KdTree.agents (kdTree s)) <= getNumAgents s
  /\ forall s' t, doStep s = Some (s', t) ->
       KdTree.agents (kdTree s') ≡ₚ seq 0 (getNumAgents s')
       /\ length (KdTree.agentTree (kdTree s')) = 2 * getNumAgents s'.
Proof.
  intros H. pose proof (reachable_simulatorOk s H) as (_ & _ & _ & Hkd & Hle & _).
  split; [exact (proj1 Hkd) |]. split; [exact Hle |].
  intros s' t Hdo. destruct (doStep_agent s s' t Hdo) as (kd & Hb & Hs' & Hlen & _).
  pose proof (f_equal kdTree Hs') as Hk. simpl in Hk.
  unfold getNumAgents. rewrite Hk, Hlen.
  exact (buildAgentTree_current s kd Hkd Hb).
Qed.

Lemma reachable_agent_tree_witness :
  KdTree.agents (kdTree tiedSceneAfter) ≡ₚ seq 0 3
  /\ length (KdTree.agents (kdTree tiedSceneAfter)) <= 3.
Proof.
  destruct (reachable_agent_tree tiedSceneAfter tiedSceneAfter_reachable) as (Hp & Hl & _).
  split; [exact Hp | exact Hl].
Defined.
End ReachableTheorems.
